(** * ContactsDB: the persistence layer (DB.cpp) and its input validation

    A shallow embedding of [src/src/DB.cpp], [src/include/DB.hpp] and of the
    validation helpers of [src/src/ContactDialogs.cpp].

    - std::string is [string] (a sequence of bytes, NUL included);
    - [int] values (ids, row counts) are [Z]; the [INT] column type keeps
      every stored id inside the 32-bit range, see [INT_MAX];
    - the MariaDB connection behind [conn_] is an explicit record, and the
      member functions of [DB] are state transformers that either return or
      raise one of the two exception classes the source distinguishes. *)

From Stdlib Require Import String Ascii List ZArith Lia Bool Arith.
From Stdlib Require Import DecimalString Sorted Permutation.
From Stdlib Require OrderedTypeEx.
Import ListNotations.

Local Open Scope string_scope.

(* ===================================================================== *)
(** * Part I. Definitions                                                 *)
(* ===================================================================== *)

(** ** Text helpers *)

Module Text.

(** [std::string::empty]. *)
Definition empty (s : string) : bool :=
  match s with
  | EmptyString => true
  | String _ _ => false
  end.

(** Membership of a byte in a set of bytes given as a string, as used by
    [find_first_not_of] and [find_last_not_of]. *)
Fixpoint mem (c : ascii) (set : string) : bool :=
  match set with
  | EmptyString => false
  | String d set' => Ascii.eqb c d || mem c set'
  end.

(** Every byte of [s] satisfies [p]. *)
Fixpoint all (p : ascii -> bool) (s : string) : bool :=
  match s with
  | EmptyString => true
  | String c s' => p c && all p s'
  end.

(** [std::to_string(int)]: decimal, with a minus sign when negative. *)
Definition to_string (z : Z) : string :=
  NilEmpty.string_of_int (Z.to_int z).

(** [std::to_string(size_t)]. *)
Definition size_to_string (n : nat) : string :=
  NilEmpty.string_of_uint (Nat.to_uint n).

Definition NUL : ascii := "000"%char.

(** [std::string(p)] for a [const char*] [p = x.c_str()]: the bytes before
    the first NUL.  Every field read back from a result set goes through
    this conversion ([res->getString(col).c_str()]). *)
Fixpoint c_str (s : string) : string :=
  match s with
  | EmptyString => EmptyString
  | String c s' => if Ascii.eqb c NUL then EmptyString else String c (c_str s')
  end.

(** No NUL byte in [s]. *)
Definition nul_free (s : string) : bool :=
  all (fun c => negb (Ascii.eqb c NUL)) s.

(** [n] copies of the byte [c]: [std::string(n, c)]. *)
Fixpoint replicate (n : nat) (c : ascii) : string :=
  match n with
  | O => EmptyString
  | S n' => String c (replicate n' c)
  end.

End Text.

(** ** Regular expressions: [std::regex_match]

    [std::regex_match] succeeds when the pattern matches the WHOLE subject.
    The matcher below decides that by Brzozowski derivatives; [Lang] is the
    usual denotation, used only to state what the matcher computes. *)

Module Regex.

Inductive regex : Type :=
| Void                                  (* matches nothing *)
| Eps                                   (* matches the empty string *)
| Class (p : ascii -> bool)             (* one byte satisfying [p] *)
| Cat (r1 r2 : regex)
| Alt (r1 r2 : regex)
| Star (r : regex).

(** [r+] *)
Definition Plus (r : regex) : regex := Cat r (Star r).

(** [r{n,}] *)
Fixpoint AtLeast (n : nat) (r : regex) : regex :=
  match n with
  | O => Star r
  | S n' => Cat r (AtLeast n' r)
  end.

(** A literal byte. *)
Definition Chr (c : ascii) : regex := Class (Ascii.eqb c).

(** One item of a bracket expression [[...]]. *)
Inductive item : Type :=
| Range (lo hi : ascii)                 (* [lo-hi] *)
| Single (c : ascii).

Definition in_item (c : ascii) (i : item) : bool :=
  match i with
  | Range lo hi => (N_of_ascii lo <=? N_of_ascii c)%N && (N_of_ascii c <=? N_of_ascii hi)%N
  | Single d => Ascii.eqb c d
  end.

Definition Bracket (items : list item) : regex :=
  Class (fun c => existsb (in_item c) items).

Fixpoint nullable (r : regex) : bool :=
  match r with
  | Void => false
  | Eps => true
  | Class _ => false
  | Cat r1 r2 => nullable r1 && nullable r2
  | Alt r1 r2 => nullable r1 || nullable r2
  | Star _ => true
  end.

Fixpoint deriv (c : ascii) (r : regex) : regex :=
  match r with
  | Void => Void
  | Eps => Void
  | Class p => if p c then Eps else Void
  | Cat r1 r2 =>
      if nullable r1
      then Alt (Cat (deriv c r1) r2) (deriv c r2)
      else Cat (deriv c r1) r2
  | Alt r1 r2 => Alt (deriv c r1) (deriv c r2)
  | Star r1 => Cat (deriv c r1) (Star r1)
  end.

(** [std::regex_match(s, r)]: anchored at both ends. *)
Fixpoint regex_match (s : string) (r : regex) : bool :=
  match s with
  | EmptyString => nullable r
  | String c s' => regex_match s' (deriv c r)
  end.

(** The language of a pattern. *)
Inductive Lang : regex -> string -> Prop :=
| LEps : Lang Eps ""
| LClass p c : p c = true -> Lang (Class p) (String c "")
| LCat r1 r2 s1 s2 : Lang r1 s1 -> Lang r2 s2 -> Lang (Cat r1 r2) (s1 ++ s2)
| LAltL r1 r2 s : Lang r1 s -> Lang (Alt r1 r2) s
| LAltR r1 r2 s : Lang r2 s -> Lang (Alt r1 r2) s
| LStar0 r : Lang (Star r) ""
| LStarS r s1 s2 : Lang r s1 -> Lang (Star r) s2 -> Lang (Star r) (s1 ++ s2).

End Regex.

(** ** Validation rules *)

Module Validation.
Import Text Regex.

(** The bracket expressions of the pattern at DB.cpp:408. *)
Definition local_class : list item :=
  [Range "a" "z"; Range "A" "Z"; Range "0" "9";
   Single "."; Single "_"; Single "%"; Single "+"; Single "-"]%char.

Definition domain_class : list item :=
  [Range "a" "z"; Range "A" "Z"; Range "0" "9"; Single "."; Single "-"]%char.

Definition alpha_class : list item :=
  [Range "a" "z"; Range "A" "Z"]%char.

(** [R"([a-zA-Z0-9._%+-]+@[a-zA-Z0-9.-]+\.[a-zA-Z]{2,})"] *)
Definition pattern : regex :=
  Cat (Plus (Bracket local_class))
   (Cat (Chr "@")
    (Cat (Plus (Bracket domain_class))
     (Cat (Chr ".")
      (AtLeast 2 (Bracket alpha_class))))).

(** [DB::is_valid_email] (DB.cpp:406-410). *)
Definition is_valid_email (email : string) : bool :=
  regex_match email pattern.

(** The email rule as [insert_contact] (DB.cpp:97), [update_contact]
    (DB.cpp:135) and [ContactDialog::validate_input] apply it: the write
    is refused when [!email.empty() && !is_valid_email(email)].  This is
    the negation of that guard. *)
Definition validateEmail (email : string) : bool :=
  negb (negb (empty email) && negb (is_valid_email email)).

(** The name rule of [insert_contact] (DB.cpp:93), [update_contact]
    (DB.cpp:131): the write is refused when
    [first.empty() && last.empty()].  This is the negation of that guard;
    it is also [Contact::is_valid] (DB.hpp:18). *)
Definition names_present (first last : string) : bool :=
  negb (empty first && empty last).

(** *** The email shape, in the words of the specification

    "ASCII letters/digits/._%+- in the local part, @, a dot-separated
    domain, a TLD of at least 2 letters". *)

Definition ascii_letters : string :=
  "abcdefghijklmnopqrstuvwxyzABCDEFGHIJKLMNOPQRSTUVWXYZ".

Definition ascii_digits : string := "0123456789".

Definition local_char (c : ascii) : bool :=
  mem c ascii_letters || mem c ascii_digits || mem c "._%+-".

Definition domain_char (c : ascii) : bool :=
  mem c ascii_letters || mem c ascii_digits || mem c ".-".

Definition letter (c : ascii) : bool := mem c ascii_letters.

Definition email_shape (s : string) : Prop :=
  exists loc dom tld : string,
    s = loc ++ "@" ++ dom ++ "." ++ tld /\
    loc <> "" /\ all local_char loc = true /\
    dom <> "" /\ all domain_char dom = true /\
    2 <= String.length tld /\ all letter tld = true.

(** *** Trimming (ContactDialogs.cpp) *)

(** [str.find_first_not_of(set)]; [None] is [npos]. *)
Fixpoint find_first_not_of (set s : string) : option nat :=
  match s with
  | EmptyString => None
  | String c s' =>
      if mem c set then option_map S (find_first_not_of set s') else Some 0
  end.

(** [str.find_last_not_of(set)]; [None] is [npos]. *)
Fixpoint find_last_not_of (set s : string) : option nat :=
  match s with
  | EmptyString => None
  | String c s' =>
      match find_last_not_of set s' with
      | Some i => Some (S i)
      | None => if mem c set then None else Some 0
      end
  end.

(** Length of the prefix that ends at the last byte outside [set]. *)
Definition kept (set s : string) : nat :=
  match find_last_not_of set s with
  | Some j => S j
  | None => 0
  end.

Definition whitespace : string :=
  String " " (String "009" (String "010" (String "013" ""))).

(** [ContactDialog::trim] (ContactDialogs.cpp:147-158).  When
    [find_first_not_of] finds a byte so does [find_last_not_of]; were it
    to answer [npos], [last - first + 1] would wrap to a length that
    reaches the end of the string, which is what the last branch keeps. *)
Definition trim (str : string) : string :=
  if empty str then str
  else
    match find_first_not_of whitespace str with
    | None => ""
    | Some first =>
        match find_last_not_of whitespace str with
        | Some last => substring first (last - first + 1) str
        | None => substring first (String.length str - first) str
        end
    end.

(** The name test of [ContactDialog::validate_input]
    (ContactDialogs.cpp:162-170), on the texts of the two entries. *)
Definition validateNames (first_text last_text : string) : bool :=
  let first := trim first_text in
  let last := trim last_text in
  negb (empty first && empty last).

(** [ContactDialog::validate_input] without its label updates. *)
Definition validate_input (first_text last_text email_text : string) : bool :=
  let first := trim first_text in
  let last := trim last_text in
  let email := trim email_text in
  if empty first && empty last then false
  else if negb (empty email) && negb (is_valid_email email) then false
  else true.

(** *** Stripping, in the words of the specification

    "non-empty after trimming leading/trailing whitespace (space, tab,
    CR, LF)". *)

Definition is_space (c : ascii) : bool :=
  Ascii.eqb c " " || Ascii.eqb c "009" || Ascii.eqb c "013" || Ascii.eqb c "010".

Fixpoint strip_leading (s : string) : string :=
  match s with
  | EmptyString => EmptyString
  | String c s' => if is_space c then strip_leading s' else s
  end.

(** Drops the trailing run of whitespace. *)
Fixpoint strip_trailing (s : string) : string :=
  match s with
  | EmptyString => EmptyString
  | String c s' =>
      match strip_trailing s' with
      | EmptyString => if is_space c then EmptyString else String c EmptyString
      | t => String c t
      end
  end.

Definition strip (s : string) : string := strip_trailing (strip_leading s).

End Validation.

(** ** The store behind [conn_]

    What the code relies on from MariaDB and its C++ connector, made
    explicit.  The table is [contacts] as [DB::initialize_schema] creates it
    (DB.cpp:64-74); [created_at] and [updated_at] are never read back and
    are left out. *)

Module Store.
Import Text.

(** [struct Contact] (DB.hpp:10-21); also the shape of a stored row. *)
Record Contact : Type := mkContact {
  id : Z;
  first_name : string;
  last_name : string;
  email : string;
  mobile : string
}.

(** [Contact::is_valid] (DB.hpp:18). *)
Definition is_valid (c : Contact) : bool :=
  negb (empty (first_name c)) || negb (empty (last_name c)).

(** The transport under the connection.  [DropsAfter n]: the link carries
    [n] more exchanges with the server and is dead from then on. *)
Inductive link_state : Type :=
| Healthy
| DropsAfter (n : nat).

Record Connection : Type := mkConnection {
  link : link_state;
  (** session [sql_mode] contains [STRICT_TRANS_TABLES] *)
  strict_mode : bool;
  (** the update count of UPDATE is the number of rows matched (when
      [true]) or the number of rows whose values changed *)
  found_rows : bool;
  (** sort key of the collation of the text columns *)
  weight : string -> string;
  (** [like pattern value]: the LIKE operator under that collation *)
  like : string -> string -> bool;
  (** rows of [contacts] as this session sees them, in storage order *)
  rows : list Contact;
  (** [None]: auto-commit is on.  [Some snap]: auto-commit is off and
      [snap] is the table at the last commit, which ROLLBACK restores *)
  txn : option (list Contact);
  (** the [AUTO_INCREMENT] counter; a rollback does not rewind it *)
  next_id : Z
}.

Definition getAutoCommit (c : Connection) : bool :=
  match txn c with
  | None => true
  | Some _ => false
  end.

Definition with_link (l : link_state) (c : Connection) : Connection :=
  mkConnection l (strict_mode c) (found_rows c) (weight c) (like c)
               (rows c) (txn c) (next_id c).

Definition with_rows (r : list Contact) (c : Connection) : Connection :=
  mkConnection (link c) (strict_mode c) (found_rows c) (weight c) (like c)
               r (txn c) (next_id c).

Definition with_txn (t : option (list Contact)) (c : Connection) : Connection :=
  mkConnection (link c) (strict_mode c) (found_rows c) (weight c) (like c)
               (rows c) t (next_id c).

Definition with_next_id (n : Z) (c : Connection) : Connection :=
  mkConnection (link c) (strict_mode c) (found_rows c) (weight c) (like c)
               (rows c) (txn c) n.

(** Largest value of an [INT] column, and of a C++ [int]. *)
Definition INT_MAX : Z := 2147483647.

(** *** VARCHAR(n) columns

    Widths count characters; text is UTF-8, so a character starts at every
    byte that is not a continuation byte [10xxxxxx]. *)

Definition is_continuation (c : ascii) : bool :=
  match c with
  | Ascii _ _ _ _ _ _ b6 b7 => b7 && negb b6
  end.

Fixpoint char_length (s : string) : nat :=
  match s with
  | EmptyString => 0
  | String c s' =>
      if is_continuation c then char_length s' else S (char_length s')
  end.

(** The first [n] characters of [s]. *)
Fixpoint left_chars (n : nat) (s : string) : string :=
  match s with
  | EmptyString => EmptyString
  | String c s' =>
      if is_continuation c then String c (left_chars n s')
      else
        match n with
        | O => EmptyString
        | S n' => String c (left_chars n' s')
        end
  end.

(** What follows the first [n] characters of [s]. *)
Fixpoint skip_chars (n : nat) (s : string) : string :=
  match s with
  | EmptyString => EmptyString
  | String c s' =>
      if is_continuation c then skip_chars n s'
      else
        match n with
        | O => s
        | S n' => skip_chars n' s'
        end
  end.

(** The value a VARCHAR([width]) column takes for [v]; [None] when the
    server refuses it ("Data too long for column").  A value that fits is
    stored as it is.  An excess made of spaces only is cut off in every
    mode; any other excess is refused in strict mode and cut off
    otherwise. *)
Definition store_varchar (strict : bool) (width : nat) (v : string)
  : option string :=
  if (char_length v <=? width)%nat then Some v
  else if strict && negb (all (Ascii.eqb " ") (skip_chars width v)) then None
  else Some (left_chars width v).

(** The row an INSERT or UPDATE writes for the four bound parameters,
    with the column widths of the schema (DB.cpp:66-69). *)
Definition store_row (strict : bool) (i : Z) (f l e m : string)
  : option Contact :=
  match store_varchar strict 100 f, store_varchar strict 100 l,
        store_varchar strict 255 e, store_varchar strict 50 m with
  | Some f', Some l', Some e', Some m' => Some (mkContact i f' l' e' m')
  | _, _, _, _ => None
  end.

(** The server takes the four values of a row. *)
Definition accepts (strict : bool) (f l e m : string) : bool :=
  match store_row strict 0 f l e m with
  | Some _ => true
  | None => false
  end.

(** Every field fits its column. *)
Definition fits (f l e m : string) : bool :=
  ((char_length f <=? 100) && (char_length l <=? 100) &&
   (char_length e <=? 255) && (char_length m <=? 50))%nat.

(** *** ORDER BY *)

Definition compare_text (w : string -> string) (a b : string) : comparison :=
  String.compare (w a) (w b).

(** [ORDER BY last_name, first_name] *)
Definition compare_names (w : string -> string) (a b : Contact) : comparison :=
  match compare_text w (last_name a) (last_name b) with
  | Eq => compare_text w (first_name a) (first_name b)
  | c => c
  end.

(** The comparison a column name stands for; [None] for a name that is
    not a column of the SELECT list. *)
Definition compare_column (w : string -> string) (col : string)
  : option (Contact -> Contact -> comparison) :=
  if String.eqb col "id" then Some (fun a b => Z.compare (id a) (id b))
  else if String.eqb col "first_name"
       then Some (fun a b => compare_text w (first_name a) (first_name b))
  else if String.eqb col "last_name"
       then Some (fun a b => compare_text w (last_name a) (last_name b))
  else if String.eqb col "email"
       then Some (fun a b => compare_text w (email a) (email b))
  else if String.eqb col "mobile"
       then Some (fun a b => compare_text w (mobile a) (mobile b))
  else None.

Definition ascending (cmp : Contact -> Contact -> comparison)
  (a b : Contact) : bool :=
  match cmp a b with
  | Gt => false
  | _ => true
  end.

Definition descending (cmp : Contact -> Contact -> comparison)
  (a b : Contact) : bool :=
  match cmp a b with
  | Lt => false
  | _ => true
  end.

Fixpoint place (leb : Contact -> Contact -> bool) (x : Contact)
  (l : list Contact) : list Contact :=
  match l with
  | [] => [x]
  | y :: l' => if leb x y then x :: l else y :: place leb x l'
  end.

(** The rows in the order [leb]; rows that compare equal keep their
    storage order (SQL leaves their order open). *)
Definition order_by (leb : Contact -> Contact -> bool) (l : list Contact)
  : list Contact :=
  fold_right (place leb) [] l.

(** *** A binary collation

    Text compares byte by byte, and LIKE matches byte by byte: [%] stands
    for any run of bytes, [_] for any one byte, and a backslash takes the
    next byte of the pattern literally. *)

Definition binary_weight (s : string) : string := s.

Fixpoint like_binary (p v : string) : bool :=
  match p with
  | EmptyString => empty v
  | String "%" p' =>
      (fix any (u : string) : bool :=
         like_binary p' u ||
         match u with
         | EmptyString => false
         | String _ u' => any u'
         end) v
  | String "_" p' =>
      match v with
      | EmptyString => false
      | String _ v' => like_binary p' v'
      end
  | String "\" (String c p') =>
      match v with
      | EmptyString => false
      | String d v' => Ascii.eqb c d && like_binary p' v'
      end
  | String c p' =>
      match v with
      | EmptyString => false
      | String d v' => Ascii.eqb c d && like_binary p' v'
      end
  end.

(** [a] may stand before [b] in a result ordered by [leb]. *)
Definition in_order (leb : Contact -> Contact -> bool) (a b : Contact) : Prop :=
  leb a b = true.

(** [WHERE id = i] *)
Definition has_id (i : Z) (r : Contact) : bool := Z.eqb (id r) i.

(** The rows a [DELETE ... WHERE id = i] leaves. *)
Definition other_id (i : Z) (r : Contact) : bool := negb (has_id i r).

End Store.

(** ** Effects: state, console and the two exception classes *)

Module Effects.
Import Store.

(** [sql::SQLException] is what the connector raises; [DBException]
    (DB.hpp:23) is what [DB] raises.  Neither derives from the other, so
    a [catch (const sql::SQLException&)] lets a [DBException] through. *)
Inductive exception : Type :=
| SQLException (what : string)
| DBException (what : string).

Inductive outcome (A : Type) : Type :=
| Returned (a : A)
| Thrown (e : exception).

Arguments Returned {A} a.
Arguments Thrown {A} e.

(** A [DB] object with the process streams it writes to. *)
Record World : Type := mkWorld {
  conn_ : Connection;
  cout : list string;
  cerr : list string
}.

Definition Op (A : Type) : Type := World -> outcome A * World.

Definition ret {A : Type} (a : A) : Op A := fun w => (Returned a, w).

Definition throw {A : Type} (e : exception) : Op A := fun w => (Thrown e, w).

Definition bind {A B : Type} (m : Op A) (k : A -> Op B) : Op B :=
  fun w =>
    match m w with
    | (Returned a, w') => k a w'
    | (Thrown e, w') => (Thrown e, w')
    end.

(** [try { body } catch (const sql::SQLException& e) { handler(e.what()) }].
    Whatever [body] did before it raised stays done; any other exception
    goes through, and so does one raised by the handler. *)
Definition try_catch_sql {A : Type} (body : Op A) (handler : string -> Op A)
  : Op A :=
  fun w =>
    match body w with
    | (Thrown (SQLException what), w') => handler what w'
    | r => r
    end.

Definition print_cout (s : string) : Op unit :=
  fun w => (Returned tt, mkWorld (conn_ w) (cout w ++ [s]) (cerr w)).

Definition print_cerr (s : string) : Op unit :=
  fun w => (Returned tt, mkWorld (conn_ w) (cout w) (cerr w ++ [s])).

Definition get_conn : Op Connection := fun w => (Returned (conn_ w), w).

Definition put_conn (c : Connection) : Op unit :=
  fun w => (Returned tt, mkWorld c (cout w) (cerr w)).

End Effects.

Declare Scope op_scope.
Delimit Scope op_scope with op.
Notation "x <- m ;; k" := (Effects.bind m (fun x => k))
  (at level 61, m at next level, right associativity) : op_scope.
Notation "m ;; k" := (Effects.bind m (fun _ => k))
  (at level 61, right associativity) : op_scope.

(** ** The connector: what each call on [conn_], a statement or a result
    set does to the store *)

Module Driver.
Import Text Store Effects.
Local Open Scope op_scope.

(** What the connector reports when the link is gone. *)
Definition lost : string := "Lost connection to server during query".

(** One exchange with the server. *)
Definition transmit : Op unit :=
  c <- get_conn ;;
  match link c with
  | Healthy => ret tt
  | DropsAfter O => throw (SQLException lost)
  | DropsAfter (S n) => put_conn (with_link (DropsAfter n) c)
  end.

(** [conn_->isValid()]: a ping; it answers [false] where any other call
    would raise. *)
Definition isValid : Op bool :=
  c <- get_conn ;;
  match link c with
  | Healthy => ret true
  | DropsAfter O => ret false
  | DropsAfter (S n) => put_conn (with_link (DropsAfter n) c) ;; ret true
  end.

(** [conn_->prepareStatement(sql)].  The statements of DB.cpp are fixed
    texts over an existing table, so preparing one fails only with the
    link. *)
Definition prepareStatement (sql : string) : Op unit := transmit.

(** [conn_->setAutoCommit(b)].  Switching auto-commit on commits what is
    pending. *)
Definition setAutoCommit (b : bool) : Op unit :=
  transmit ;;
  c <- get_conn ;;
  if b then put_conn (with_txn None c)
  else
    match txn c with
    | None => put_conn (with_txn (Some (rows c)) c)
    | Some _ => ret tt
    end.

(** [conn_->commit()] *)
Definition commit : Op unit :=
  transmit ;;
  c <- get_conn ;;
  match txn c with
  | None => ret tt
  | Some _ => put_conn (with_txn (Some (rows c)) c)
  end.

(** [conn_->rollback()] *)
Definition rollback : Op unit :=
  transmit ;;
  c <- get_conn ;;
  match txn c with
  | None => ret tt
  | Some snap => put_conn (with_rows snap c)
  end.

(** [executeQuery] of [SELECT 1]. *)
Definition query_select_1 : Op unit := transmit.

(** [executeUpdate] of
    [INSERT INTO contacts (first_name,last_name,email,mobile) VALUES (?,?,?,?)]:
    the update count.  The new row takes the next [AUTO_INCREMENT] value;
    none is left once the counter has passed [INT_MAX]. *)
Definition update_insert (f l e m : string) : Op Z :=
  transmit ;;
  c <- get_conn ;;
  match store_row (strict_mode c) (next_id c) f l e m with
  | None => throw (SQLException "Data too long for column")
  | Some row =>
      if (INT_MAX <? next_id c)%Z
      then throw (SQLException "Out of range value for column 'id'")
      else
        put_conn (with_next_id (next_id c + 1) (with_rows (rows c ++ [row]) c)) ;;
        ret 1%Z
  end.

(** [executeUpdate] of
    [UPDATE contacts SET first_name=?, last_name=?, email=?, mobile=? WHERE id=?].
    Values are checked against the columns when a row is written, so
    nothing is refused when no row matches. *)
Definition update_update (f l e m : string) (i : Z) : Op Z :=
  transmit ;;
  c <- get_conn ;;
  match filter (has_id i) (rows c) with
  | [] => ret 0%Z
  | hits =>
      match store_row (strict_mode c) i f l e m with
      | None => throw (SQLException "Data too long for column")
      | Some row =>
          let changed :=
            filter (fun r => negb (String.eqb (first_name r) (first_name row)
                                   && String.eqb (last_name r) (last_name row)
                                   && String.eqb (email r) (email row)
                                   && String.eqb (mobile r) (mobile row)))
                   hits in
          put_conn (with_rows
                      (map (fun r => if has_id i r then row else r) (rows c))
                      c) ;;
          ret (Z.of_nat (length (if found_rows c then hits else changed)))
      end
  end.

(** [executeUpdate] of [DELETE FROM contacts WHERE id=?]. *)
Definition update_delete (i : Z) : Op Z :=
  transmit ;;
  c <- get_conn ;;
  put_conn (with_rows (filter (other_id i) (rows c)) c) ;;
  ret (Z.of_nat (length (filter (has_id i) (rows c)))).

(** [executeQuery] of
    [SELECT id, first_name, last_name, email, mobile FROM contacts WHERE id=?]. *)
Definition query_by_id (i : Z) : Op (list Contact) :=
  transmit ;;
  c <- get_conn ;;
  ret (filter (has_id i) (rows c)).

(** [executeQuery] of [SELECT ... FROM contacts ORDER BY last_name, first_name]. *)
Definition query_all : Op (list Contact) :=
  transmit ;;
  c <- get_conn ;;
  ret (order_by (ascending (compare_names (weight c))) (rows c)).

(** [executeQuery] of
    [SELECT ... WHERE first_name LIKE ? OR last_name LIKE ? OR email LIKE ?
     OR mobile LIKE ? ORDER BY last_name, first_name]. *)
Definition query_like (p1 p2 p3 p4 : string) : Op (list Contact) :=
  transmit ;;
  c <- get_conn ;;
  ret (order_by (ascending (compare_names (weight c)))
         (filter (fun r => like c p1 (first_name r) || like c p2 (last_name r)
                           || like c p3 (email r) || like c p4 (mobile r))
                 (rows c))).

(** [executeQuery] of [SELECT ... FROM contacts ORDER BY <column> <order>],
    for the column and direction found in the statement text. *)
Definition query_order_by (column order : string) : Op (list Contact) :=
  transmit ;;
  c <- get_conn ;;
  match compare_column (weight c) column with
  | None => throw (SQLException ("Unknown column '" ++ column ++ "' in 'order clause'"))
  | Some cmp =>
      if String.eqb order "ASC" then ret (order_by (ascending cmp) (rows c))
      else if String.eqb order "DESC" then ret (order_by (descending cmp) (rows c))
      else throw (SQLException "You have an error in your SQL syntax")
  end.

(** [executeQuery] of [SELECT COUNT( * ) as count FROM contacts]. *)
Definition query_count : Op Z :=
  transmit ;;
  c <- get_conn ;;
  ret (Z.of_nat (length (rows c))).

(** One row of a result set as DB.cpp builds a [Contact] from it:
    [res->getInt("id")] and [res->getString(col).c_str()] four times. *)
Definition fetch (r : Contact) : Contact :=
  mkContact (id r) (c_str (first_name r)) (c_str (last_name r))
            (c_str (email r)) (c_str (mobile r)).

End Driver.

(** ** [class DB] (DB.cpp) *)

Module DB.
Import Text Validation Store Effects Driver.
Local Open Scope op_scope.

Definition newline : string := String "010" "".

(** [DB::ensure_connection] (DB.cpp:415-420).  [conn_] is set by the
    constructor, which raises when it is null, and nothing resets it. *)
Definition ensure_connection : Op unit :=
  valid <- isValid ;;
  if negb valid then throw (DBException "Database connection lost")
  else ret tt.

(** [DB::test_connection] (DB.cpp:41-54). *)
Definition test_connection : Op bool :=
  try_catch_sql
    (ensure_connection ;;
     prepareStatement "SELECT 1" ;;
     query_select_1 ;;
     ret true)
    (fun _ => ret false).

Definition insert_sql : string :=
  "INSERT INTO contacts (first_name,last_name,email,mobile) VALUES (?,?,?,?)".

(** [DB::insert_contact] (DB.cpp:88-120); it returns nothing. *)
Definition insert_contact (first last email mobile : string) : Op unit :=
  if empty first && empty last
  then throw (DBException "At least first name or last name must be provided")
  else if negb (empty email) && negb (is_valid_email email)
  then throw (DBException "Invalid email format")
  else
    try_catch_sql
      (ensure_connection ;;
       prepareStatement insert_sql ;;
       update_insert first last email mobile ;;
       print_cout ("Inserted contact: " ++ first ++ " " ++ last ++ newline))
      (fun what => throw (DBException ("Insert error: " ++ what))).

(** [DB::update_contact] (DB.cpp:125-162). *)
Definition update_contact (id : Z) (first last email mobile : string)
  : Op unit :=
  if empty first && empty last
  then throw (DBException "At least first name or last name must be provided")
  else if negb (empty email) && negb (is_valid_email email)
  then throw (DBException "Invalid email format")
  else
    try_catch_sql
      (ensure_connection ;;
       prepareStatement
         "UPDATE contacts SET first_name=?, last_name=?, email=?, mobile=? WHERE id=?" ;;
       rows <- update_update first last email mobile id ;;
       if (rows =? 0)%Z
       then throw (DBException ("Contact not found with ID: " ++ to_string id))
       else print_cout ("Updated contact ID: " ++ to_string id ++ newline))
      (fun what => throw (DBException ("Update error: " ++ what))).

(** [DB::delete_contact] (DB.cpp:167-185). *)
Definition delete_contact (id : Z) : Op unit :=
  try_catch_sql
    (ensure_connection ;;
     prepareStatement "DELETE FROM contacts WHERE id=?" ;;
     rows <- update_delete id ;;
     if (rows =? 0)%Z
     then throw (DBException ("Contact not found with ID: " ++ to_string id))
     else print_cout ("Deleted contact ID: " ++ to_string id ++ newline))
    (fun what => throw (DBException ("Delete error: " ++ what))).

(** [DB::get_contact_by_id] (DB.cpp:190-217).  Both the path on which
    [res->next()] is false and the handler fall through to
    [return std::nullopt]. *)
Definition get_contact_by_id (id : Z) : Op (option Contact) :=
  try_catch_sql
    (ensure_connection ;;
     prepareStatement
       "SELECT id, first_name, last_name, email, mobile FROM contacts WHERE id=?" ;;
     res <- query_by_id id ;;
     match res with
     | row :: _ => ret (Some (fetch row))
     | [] => ret None
     end)
    (fun what =>
       print_cerr ("Query error: " ++ what ++ newline) ;;
       ret None).

(** [DB::get_all_contacts] (DB.cpp:222-248).  Nothing raises once the
    result set is there, so the handler finds [contacts] still empty. *)
Definition get_all_contacts : Op (list Contact) :=
  try_catch_sql
    (ensure_connection ;;
     prepareStatement
       "SELECT id, first_name, last_name, email, mobile FROM contacts ORDER BY last_name, first_name" ;;
     res <- query_all ;;
     ret (map fetch res))
    (fun what =>
       print_cerr ("Query error: " ++ what ++ newline) ;;
       ret []).

(** [DB::search_contacts] (DB.cpp:253-291). *)
Definition search_contacts (query : string) : Op (list Contact) :=
  if empty query then get_all_contacts
  else
    try_catch_sql
      (ensure_connection ;;
       prepareStatement
         ("SELECT id, first_name, last_name, email, mobile FROM contacts "
          ++ "WHERE first_name LIKE ? OR last_name LIKE ? OR email LIKE ? OR mobile LIKE ? "
          ++ "ORDER BY last_name, first_name") ;;
       let search_pattern := "%" ++ query ++ "%" in
       res <- query_like search_pattern search_pattern search_pattern search_pattern ;;
       ret (map fetch res))
      (fun what =>
         print_cerr ("Search error: " ++ what ++ newline) ;;
         ret []).

Definition valid_columns : list string :=
  ["id"; "first_name"; "last_name"; "email"; "mobile"].

(** [std::find(first, last, value) != last] on a vector of strings. *)
Fixpoint find_string (value : string) (l : list string) : bool :=
  match l with
  | [] => false
  | x :: l' => if String.eqb x value then true else find_string value l'
  end.

(** [DB::sanitize_column_name] (DB.cpp:422-432). *)
Definition sanitize_column_name (column : string) : string :=
  if find_string column valid_columns then column
  else "last_name".

(** The statement text [DB::get_contacts_sorted] builds (DB.cpp:301-305). *)
Definition sorted_query (column : string) (ascending : bool) : string :=
  let safe_column := sanitize_column_name column in
  let order := if ascending then "ASC" else "DESC" in
  "SELECT id, first_name, last_name, email, mobile FROM contacts "
  ++ "ORDER BY " ++ safe_column ++ " " ++ order.

(** [DB::get_contacts_sorted] (DB.cpp:296-326). *)
Definition get_contacts_sorted (column : string) (ascending : bool)
  : Op (list Contact) :=
  try_catch_sql
    (ensure_connection ;;
     let safe_column := sanitize_column_name column in
     let order := if ascending then "ASC" else "DESC" in
     prepareStatement (sorted_query column ascending) ;;
     res <- query_order_by safe_column order ;;
     ret (map fetch res))
    (fun what =>
       print_cerr ("Sort error: " ++ what ++ newline) ;;
       ret []).

(** [DB::get_contact_count] (DB.cpp:331-347). *)
Definition get_contact_count : Op Z :=
  try_catch_sql
    (ensure_connection ;;
     prepareStatement "SELECT COUNT(*) as count FROM contacts" ;;
     n <- query_count ;;
     ret n)
    (fun what =>
       print_cerr ("Count error: " ++ what ++ newline) ;;
       ret 0%Z).

(** The [for] loop of [DB::import_contacts] (DB.cpp:382-388): one
    [executeUpdate] per contact, in order, stopping at the first that
    raises.  The [id] of an imported contact is not sent. *)
Fixpoint import_loop (contacts : list Contact) : Op unit :=
  match contacts with
  | [] => ret tt
  | c :: rest =>
      update_insert (first_name c) (last_name c) (email c) (mobile c) ;;
      import_loop rest
  end.

(** The rows the loop adds to the table, or [None] when one of its
    statements is refused: a value the columns do not take, or no
    [AUTO_INCREMENT] value left. *)
Fixpoint staged (strict : bool) (next : Z) (contacts : list Contact)
  : option (list Contact) :=
  match contacts with
  | [] => Some []
  | c :: rest =>
      match store_row strict next (first_name c) (last_name c) (email c) (mobile c) with
      | None => None
      | Some row =>
          if (INT_MAX <? next)%Z then None
          else
            match staged strict (next + 1) rest with
            | None => None
            | Some more => Some (row :: more)
            end
      end
  end.

(** [DB::import_contacts] (DB.cpp:370-401). *)
Definition import_contacts (contacts : list Contact) : Op bool :=
  try_catch_sql
    (ensure_connection ;;
     setAutoCommit false ;;
     prepareStatement insert_sql ;;
     import_loop contacts ;;
     commit ;;
     setAutoCommit true ;;
     print_cout ("Imported " ++ size_to_string (length contacts) ++ " contacts" ++ newline) ;;
     ret true)
    (fun what =>
       rollback ;;
       setAutoCommit true ;;
       print_cerr ("Import error: " ++ what ++ newline) ;;
       ret false).

(** The [executeUpdate] calls the loop of [import_contacts] makes: one
    per contact, up to and including the first that the store refuses. *)
Fixpoint attempts (strict : bool) (next : Z) (contacts : list Contact) : nat :=
  match contacts with
  | [] => 0
  | c :: rest =>
      match store_row strict next (first_name c) (last_name c) (email c) (mobile c) with
      | None => 1
      | Some _ =>
          if (INT_MAX <? next)%Z then 1
          else S (attempts strict (next + 1) rest)
      end
  end.

(** The exchanges with the server that one call of [import_contacts]
    makes when the link carries them all: the liveness check,
    [setAutoCommit(false)] and [prepareStatement], the [executeUpdate]
    calls of the loop, and then [commit] and [setAutoCommit(true)] or, in
    the handler, [rollback] and [setAutoCommit(true)]. *)
Definition exchanges (strict : bool) (next : Z) (contacts : list Contact)
  : nat :=
  3 + attempts strict next contacts + 2.

(** *** Outcomes and states used in the statements below *)

(** The link carries the next [k] exchanges. *)
Definition carries (l : link_state) (k : nat) : bool :=
  match l with
  | Healthy => true
  | DropsAfter n => (k <=? n)%nat
  end.

(** What [update_contact] and [delete_contact] raise when the statement
    changed no row (DB.cpp:155, DB.cpp:178). *)
Definition not_found (i : Z) : exception :=
  DBException ("Contact not found with ID: " ++ to_string i).

(** What [insert_contact] and [update_contact] raise when both names are
    empty (DB.cpp:94, DB.cpp:132). *)
Definition names_missing : exception :=
  DBException "At least first name or last name must be provided".

(** What [ensure_connection] raises (DB.cpp:418). *)
Definition connection_lost : exception :=
  DBException "Database connection lost".

(** A connection on link [l] to a table holding [rs], with auto-commit on. *)
Definition connection (l : link_state) (strict : bool) (rs : list Contact)
  (next : Z) : Connection :=
  mkConnection l strict true binary_weight like_binary rs None next.

Definition world (c : Connection) : World := mkWorld c [] [].

(** No field of the row holds a NUL byte. *)
Definition nul_free_row (r : Contact) : bool :=
  nul_free (first_name r) && nul_free (last_name r) &&
  nul_free (email r) && nul_free (mobile r).

(** Every stored id is below the [AUTO_INCREMENT] counter. *)
Definition ids_below_counter (c : Connection) : Prop :=
  Forall (fun r => (id r < next_id c)%Z) (rows c).

(** [i] is the id of no row. *)
Definition absent (i : Z) (c : Connection) : Prop :=
  forall r, In r (rows c) -> id r <> i.

(** Neither name of the row holds a NUL byte. *)
Definition nul_free_names (r : Contact) : bool :=
  nul_free (first_name r) && nul_free (last_name r).

(** *** The order of the listing, in the words of the specification

    Stated apart from the comparisons [Store] sorts with.  Two texts
    compare as their sort keys under the collation do, in the
    lexicographic order of strings. *)

Definition text_lt (w : string -> string) (s t : string) : Prop :=
  OrderedTypeEx.String_as_OT.lt (w s) (w t).

Definition text_le (w : string -> string) (s t : string) : Prop :=
  text_lt w s t \/ w s = w t.

(** [(last_name, first_name)] ascending: [a] may stand before [b] when
    its last name is the smaller one, or when the two last names are the
    same to the collation and its first name is not the greater one. *)
Definition names_le (w : string -> string) (a b : Contact) : Prop :=
  text_lt w (last_name a) (last_name b) \/
  (w (last_name a) = w (last_name b) /\
   text_le w (first_name a) (first_name b)).

End DB.

(** ** A session: the calls a client makes on one [DB] object *)

Module Session.
Import Store Effects DB.

Inductive call : Type :=
| TestConnection
| Insert (first last email mobile : string)
| Update (id : Z) (first last email mobile : string)
| Delete (id : Z)
| GetById (id : Z)
| GetAll
| Search (query : string)
| GetSorted (column : string) (ascending : bool)
| Count
| Import (contacts : list Contact).

(** The state a call leaves, whether it returns or raises. *)
Definition perform (c : call) (w : World) : World :=
  match c with
  | TestConnection => snd (test_connection w)
  | Insert f l e m => snd (insert_contact f l e m w)
  | Update i f l e m => snd (update_contact i f l e m w)
  | Delete i => snd (delete_contact i w)
  | GetById i => snd (get_contact_by_id i w)
  | GetAll => snd (get_all_contacts w)
  | Search q => snd (search_contacts q w)
  | GetSorted col asc => snd (get_contacts_sorted col asc w)
  | Count => snd (get_contact_count w)
  | Import cs => snd (import_contacts cs w)
  end.

(** The [AUTO_INCREMENT] counter is above every id of the table, and of
    the table a rollback would restore. *)
Definition counter_above (c : Connection) : Prop :=
  Forall (fun r => (id r < next_id c)%Z) (rows c) /\
  match txn c with
  | Some snap => Forall (fun r => (id r < next_id c)%Z) snap
  | None => True
  end.

Definition counted (w : World) : Prop := counter_above (conn_ w).

(** No transaction is left open on a link that still works. *)
Definition settled (c : Connection) : Prop :=
  txn c = None \/ link c = DropsAfter 0.

Definition idle (w : World) : Prop := settled (conn_ w).

(** What an exception tells about the link: the [DBException] of the
    liveness check comes from a dead link. *)
Definition lost_if_db (e : exception) (w : World) : Prop :=
  match e with
  | SQLException _ => True
  | DBException _ => link (conn_ w) = DropsAfter 0
  end.

Definition link_dead (e : exception) (w : World) : Prop :=
  link (conn_ w) = DropsAfter 0.

Definition anywhere (w : World) : Prop := True.

Definition committed {A : Type} (a : A) (w : World) : Prop :=
  txn (conn_ w) = None.

Definition whatever {A : Type} (a : A) (w : World) : Prop := True.

(** The states of a [DB] object: the constructor connects to a table whose
    counter is above its ids, with auto-commit on, and every call leads
    from one state to the next. *)
Inductive reachable : World -> Prop :=
| connected (w : World) :
    counter_above (conn_ w) -> txn (conn_ w) = None -> reachable w
| performed (w : World) (c : call) :
    reachable w -> reachable (perform c w).

(** [m] keeps [I], however it ends. *)
Definition preserves {A : Type} (I : World -> Prop) (m : Op A) : Prop :=
  forall w : World, I w -> I (snd (m w)).

(** [m] started in [P] ends in [Q] when it returns and in [E e] when it
    raises [e]. *)
Definition triple {A : Type} (P : World -> Prop) (m : Op A)
  (Q : A -> World -> Prop) (E : exception -> World -> Prop) : Prop :=
  forall w : World,
    P w ->
    match m w with
    | (Returned a, w') => Q a w'
    | (Thrown e, w') => E e w'
    end.

End Session.

(** ** The rest of [class DB] *)

Module DBRest.
Import Text Store Effects Driver DB.
Local Open Scope op_scope.

(** [execute] of the [CREATE TABLE IF NOT EXISTS contacts (...)] statement
    of DB.cpp:64-74, on a store that has the table: nothing is created.
    Like every data definition statement it first commits what is
    pending. *)
Definition execute_create_table : Op unit := commit.

(** [executeUpdate] of [DELETE FROM contacts]: every row goes, the
    [AUTO_INCREMENT] counter stays. *)
Definition update_delete_all : Op Z :=
  transmit ;;
  c <- get_conn ;;
  put_conn (with_rows [] c) ;;
  ret (Z.of_nat (length (rows c))).

Definition create_table_sql : string :=
  "CREATE TABLE IF NOT EXISTS contacts ("
  ++ "id INT AUTO_INCREMENT PRIMARY KEY, "
  ++ "first_name VARCHAR(100), "
  ++ "last_name VARCHAR(100), "
  ++ "email VARCHAR(255), "
  ++ "mobile VARCHAR(50), "
  ++ "created_at TIMESTAMP DEFAULT CURRENT_TIMESTAMP, "
  ++ "updated_at TIMESTAMP DEFAULT CURRENT_TIMESTAMP ON UPDATE CURRENT_TIMESTAMP, "
  ++ "INDEX idx_name (first_name, last_name), "
  ++ "INDEX idx_email (email)"
  ++ ")".

(** [DB::initialize_schema] (DB.cpp:59-83).  It does not call
    [ensure_connection]. *)
Definition initialize_schema : Op unit :=
  try_catch_sql
    (prepareStatement create_table_sql ;;
     execute_create_table ;;
     print_cout ("Database schema initialized" ++ newline))
    (fun what => throw (DBException ("Schema initialization error: " ++ what))).

(** [DB::delete_all_contacts] (DB.cpp:352-365). *)
Definition delete_all_contacts : Op unit :=
  try_catch_sql
    (ensure_connection ;;
     prepareStatement "DELETE FROM contacts" ;;
     update_delete_all ;;
     print_cout ("All contacts deleted" ++ newline))
    (fun what => throw (DBException ("Delete all error: " ++ what))).

(** What [insert_contact] and [update_contact] raise for a malformed
    email (DB.cpp:98, DB.cpp:136). *)
Definition invalid_email : exception := DBException "Invalid email format".

(** A [DBException] that wraps what the connector said, behind [prefix]. *)
Definition wrapped (prefix : string) (e : exception) : Prop :=
  exists what : string, e = DBException (prefix ++ what).

(** The exception comes from the connector. *)
Definition from_connector (e : exception) (w : World) : Prop :=
  exists what : string, e = SQLException what.

(** The exception is the one of the liveness check. *)
Definition is_connection_lost (e : exception) (w : World) : Prop :=
  e = connection_lost.

(** Table, open transaction and counter of [w'] are those of [w]. *)
Definition same_store (w w' : World) : Prop :=
  rows (conn_ w') = rows (conn_ w) /\
  txn (conn_ w') = txn (conn_ w) /\
  next_id (conn_ w') = next_id (conn_ w).

(** [m] started in [w] only reads: when it returns, the store is what it
    was; when it raises, it is with the exception of the liveness check, on
    a link that was dead, and nothing at all has changed. *)
Definition read_only {A : Type} (m : Op A) (w : World) : Prop :=
  match m w with
  | (Returned _, w') => same_store w w'
  | (Thrown e, w') =>
      e = connection_lost /\ link (conn_ w) = DropsAfter 0 /\ w' = w
  end.

(** [i] is the id of some row. *)
Definition present (i : Z) (c : Connection) : Prop :=
  exists r, In r (rows c) /\ id r = i.

(** The contacts of an import as the store numbers them from [next]. *)
Fixpoint numbered (next : Z) (contacts : list Contact) : list Contact :=
  match contacts with
  | [] => []
  | c :: rest =>
      mkContact next (first_name c) (last_name c) (email c) (mobile c)
      :: numbered (next + 1) rest
  end.

(** Every contact fits the columns. *)
Definition all_fit (contacts : list Contact) : bool :=
  forallb (fun c => fits (first_name c) (last_name c) (email c) (mobile c))
          contacts.

(** Every contact passes the two rules of [insert_contact]. *)
Definition all_valid (contacts : list Contact) : bool :=
  forallb (fun c => Validation.names_present (first_name c) (last_name c)
                    && Validation.validateEmail (email c))
          contacts.

(** One [insert_contact] per contact, in order, as a client without
    [import_contacts] would write them. *)
Fixpoint insert_each (contacts : list Contact) : Op unit :=
  match contacts with
  | [] => ret tt
  | c :: rest =>
      insert_contact (first_name c) (last_name c) (email c) (mobile c) ;;
      insert_each rest
  end.


(** A comparison that orders: swapping the arguments swaps the answer,
    equal-ranked rows rank alike against every row, and "before" is
    transitive. *)
Definition ordering (cmp : Contact -> Contact -> comparison) : Prop :=
  (forall a b, cmp a b = CompOpp (cmp b a)) /\
  (forall a b c, cmp a b = Eq -> cmp b c = cmp a c) /\
  (forall a b c, cmp a b = Lt -> cmp b c = Lt -> cmp a c = Lt).

(** The WHERE clause of [search_contacts] for the pattern [p]. *)
Definition matches (c : Connection) (p : string) (r : Contact) : bool :=
  like c p (first_name r) || like c p (last_name r)
  || like c p (email r) || like c p (mobile r).

(** *** The order of a sorted listing, in the words of the specification *)

(** Ascending in the column called [column]: ids as numbers, texts as
    the collation has them. *)
Definition column_le (w : string -> string) (column : string)
  (a b : Contact) : Prop :=
  (column = "id" /\ (id a <= id b)%Z) \/
  (column = "first_name" /\ text_le w (first_name a) (first_name b)) \/
  (column = "last_name" /\ text_le w (last_name a) (last_name b)) \/
  (column = "email" /\ text_le w (email a) (email b)) \/
  (column = "mobile" /\ text_le w (mobile a) (mobile b)).

(** An order read upwards, or downwards. *)
Definition directed (asc : bool) (le : Contact -> Contact -> Prop)
  (a b : Contact) : Prop :=
  if asc then le a b else le b a.

(** Every contact of [l] stands before or with every later one, in
    the column and the direction named. *)
Definition sorted_on (w : string -> string) (column : string) (asc : bool)
  (l : list Contact) : Prop :=
  StronglySorted (directed asc (column_le w column)) l.

(** [l] is what a sorted listing of [table] is specified to be: every
    row once, in the order of [column] when it is one of the five names
    and in the order of [last_name] otherwise. *)
Definition listed_on (w : string -> string) (column : string) (asc : bool)
  (table l : list Contact) : Prop :=
  Permutation l table /\
  (In column ["id"; "first_name"; "last_name"; "email"; "mobile"] ->
   sorted_on w column asc l) /\
  (~ In column ["id"; "first_name"; "last_name"; "email"; "mobile"] ->
   sorted_on w "last_name" asc l).

End DBRest.

(** ** A session over every public member function *)

Module SessionMore.
Import Store Effects DB Session DBRest.

(** A call of [Session.call], or one of the two members of [DBRest]. *)
Inductive request : Type :=
| Call (c : call)
| DeleteAll
| InitializeSchema.

(** The state a request leaves, whether it returns or raises. *)
Definition serve (r : request) (w : World) : World :=
  match r with
  | Call c => perform c w
  | DeleteAll => snd (delete_all_contacts w)
  | InitializeSchema => snd (initialize_schema w)
  end.

(** [PRIMARY KEY]: no two rows share an id, in the table and in the table
    a rollback would restore. *)
Definition keyed (c : Connection) : Prop :=
  NoDup (map id (rows c)) /\
  match txn c with
  | Some snap => NoDup (map id snap)
  | None => True
  end.

(** What holds of a [DB] object between two calls. *)
Definition sound (w : World) : Prop :=
  counter_above (conn_ w) /\ keyed (conn_ w) /\ settled (conn_ w).

(** [w'] is [w] after some requests. *)
Inductive leads_to (w : World) : World -> Prop :=
| stay : leads_to w w
| and_then (w' : World) (r : request) :
    leads_to w w' -> leads_to w (serve r w').

(** Counter above the ids, and ids distinct. *)
Definition numbered_rows (w : World) : Prop :=
  counter_above (conn_ w) /\ keyed (conn_ w).

End SessionMore.

(** ** Streams, files and conversions of the standard library, as the
    windows use them *)

Module Streams.
Import Text.

Definition LF : ascii := "010"%char.

Definition comma : ascii := ","%char.

(** An input stream ([std::ifstream], [std::stringstream]): the bytes not
    yet read and the two state bits the code tests. *)
Record istream : Type := mkStream {
  buffer : string;
  eofbit : bool;
  failbit : bool
}.

(** [is.good()] *)
Definition good (ins : istream) : bool := negb (eofbit ins) && negb (failbit ins).

(** [if (is)], [while (is)]: [!is.fail()]. *)
Definition ok (ins : istream) : bool := negb (failbit ins).

(** A stream just opened on [text]. *)
Definition opened (text : string) : istream := mkStream text false false.

(** The bytes before the first [delim] and, when there is one, the bytes
    after it. *)
Fixpoint extract (delim : ascii) (s : string) : string * option string :=
  match s with
  | EmptyString => (EmptyString, None)
  | String c s' =>
      if Ascii.eqb c delim then (EmptyString, Some s')
      else let (field, rest) := extract delim s' in (String c field, rest)
  end.

(** Bytes other than [d]. *)
Definition unlike (d : ascii) (c : ascii) : bool := negb (Ascii.eqb c d).

(** Rounds of [getline] a stream has left: none once a bit is set. *)
Definition rounds (ins : istream) : nat :=
  if good ins then S (String.length (buffer ins)) else 0.

(** [std::getline(is, str, delim)]: the stream and [str] afterwards.  On
    a stream that is not good nothing is read, [str] keeps its value and
    [failbit] is set.  Otherwise [str] is erased and takes the bytes up
    to [delim], which is read and dropped; reaching the end instead sets
    [eofbit], and [failbit] too when no byte was taken. *)
Definition getline (ins : istream) (str : string) (delim : ascii)
  : istream * string :=
  if good ins then
    match extract delim (buffer ins) with
    | (field, Some rest) => (mkStream rest false false, field)
    | (field, None) => (mkStream EmptyString true (empty field), field)
    end
  else (mkStream (buffer ins) (eofbit ins) true, str).

(** The files the program reaches.  [content] holds the bytes of each
    file that exists; [readable] and [writable] say whether a path can be
    opened by [std::ifstream] and by [std::ofstream];
    [directories_error] and [permissions_error] give what
    [std::filesystem::create_directories] and
    [std::filesystem::permissions] raise for a path, when they do. *)
Record Disk : Type := mkDisk {
  content : string -> option string;
  readable : string -> bool;
  writable : string -> bool;
  directories_error : string -> option string;
  permissions_error : string -> option string
}.

(** [std::ifstream infile(path)]: the bytes, or [None] when
    [infile.is_open()] is false. *)
Definition ifstream (d : Disk) (path : string) : option string :=
  if readable d path then content d path else None.

(** What an [std::ofstream] opened on [path] leaves there once [text] has
    been written to it and it is closed. *)
Definition written (path text : string) (d : Disk) : Disk :=
  mkDisk (fun p => if String.eqb p path then Some text else content d p)
         (readable d) (writable d) (directories_error d) (permissions_error d).

(** [permissions(path, owner_read | owner_write, replace)] once it has
    succeeded: the owner, who alone may change them, reads and writes. *)
Definition owner_only (path : string) (d : Disk) : Disk :=
  mkDisk (content d)
         (fun p => if String.eqb p path then true else readable d p)
         (fun p => if String.eqb p path then true else writable d p)
         (directories_error d) (permissions_error d).

(** *** [std::stoi] *)

(** [isspace] in the "C" locale. *)
Definition isspace (c : ascii) : bool :=
  mem c (String " " (String "009" (String "010" (String "011"
           (String "012" (String "013" EmptyString)))))).

Definition digit (c : ascii) : option Z :=
  let n := nat_of_ascii c in
  if (48 <=? n)%nat && (n <=? 57)%nat then Some (Z.of_nat (n - 48)) else None.

Fixpoint skip_space (s : string) : string :=
  match s with
  | EmptyString => EmptyString
  | String c s' => if isspace c then skip_space s' else s
  end.

(** The value of the leading run of decimal digits of [s], after [acc]. *)
Fixpoint number (acc : Z) (s : string) : Z :=
  match s with
  | EmptyString => acc
  | String c s' =>
      match digit c with
      | Some d => number (10 * acc + d) s'
      | None => acc
      end
  end.

Inductive conversion : Type :=
| Converted (n : Z)
| invalid_argument
| out_of_range.

Definition INT_MIN : Z := (-2147483648)%Z.

(** [std::stoi(str)], base 10: leading white space is skipped, one sign
    is taken, then the longest run of digits; what follows is ignored.
    No digit raises [std::invalid_argument]; a value that is not an [int]
    raises [std::out_of_range]. *)
Definition stoi (str : string) : conversion :=
  let s := skip_space str in
  let '(negative, s) :=
    match s with
    | String "-" t => (true, t)
    | String "+" t => (false, t)
    | _ => (false, s)
    end in
  match s with
  | EmptyString => invalid_argument
  | String c _ =>
      match digit c with
      | None => invalid_argument
      | Some _ =>
          let n := if negative then (- number 0 s)%Z else number 0 s in
          if (INT_MIN <=? n)%Z && (n <=? Store.INT_MAX)%Z then Converted n
          else out_of_range
      end
  end.

(** The conversion of an [int] to [unsigned int]. *)
Definition to_unsigned (n : Z) : Z := (n mod 2 ^ 32)%Z.

End Streams.

(** ** Handlers of the windows *)

Module Gui.
Import Effects.

(** A member function of a window over the state [S] it reaches: like
    [Op], it returns or raises, and what it did before raising stays
    done. *)
Definition Prog (S A : Type) : Type := S -> outcome A * S.

Definition finish {S A : Type} (a : A) : Prog S A := fun s => (Returned a, s).

Definition raise {S A : Type} (e : exception) : Prog S A :=
  fun s => (Thrown e, s).

Definition chain {S A B : Type} (m : Prog S A) (k : A -> Prog S B) : Prog S B :=
  fun s =>
    match m s with
    | (Returned a, s') => k a s'
    | (Thrown e, s') => (Thrown e, s')
    end.

(** [try { body } catch (const DBException& e) { handler(e.what()) }] *)
Definition try_catch_db {S A : Type} (body : Prog S A)
  (handler : string -> Prog S A) : Prog S A :=
  fun s =>
    match body s with
    | (Thrown (DBException what), s') => handler what s'
    | r => r
    end.

Definition get {S : Type} : Prog S S := fun s => (Returned s, s).

Definition modify {S : Type} (f : S -> S) : Prog S unit :=
  fun s => (Returned tt, f s).

(** A program of a part of the state, run in place. *)
Definition within {S T A : Type} (part : S -> T) (update : T -> S -> S)
  (m : Prog T A) : Prog S A :=
  fun s => let (o, t) := m (part s) in (o, update t s).

(** A [Gtk::MessageDialog] as [show_info] and [show_error] present it. *)
Inductive message : Type :=
| Info (text : string)
| Error (text : string).

(** [Gtk::ResponseType], as far as the handlers tell them apart. *)
Inductive response : Type :=
| OK
| ACCEPT
| CANCEL.

End Gui.

Declare Scope prog_scope.
Delimit Scope prog_scope with prog.
Notation "x <- m ;; k" := (Gui.chain m (fun x => k))
  (at level 61, m at next level, right associativity) : prog_scope.
Notation "m ;; k" := (Gui.chain m (fun _ => k))
  (at level 61, right associativity) : prog_scope.

(** ** [class MainWindow] (MainWindow.cpp) and [class ContactDialog]
    (ContactDialogs.cpp) *)

Module Windows.
Import Text Validation Store Effects Driver DB DBRest Streams Gui.
Local Open Scope prog_scope.

(** The members of a [MainWindow] that its handlers read or write, with
    what they reach outside it: the message dialogs presented so far and
    the file system.  [m_db] is the [DB] object behind the shared
    pointer, with the process streams.  [m_ref_list_store] holds the rows
    appended since the store was last cleared, in the order of the
    appends; [m_search_entry] and [m_status_label] hold the text of the
    widget. *)
Record MainWindow : Type := mkMainWindow {
  m_db : World;
  m_ref_list_store : list Contact;
  m_status_label : string;
  m_search_entry : string;
  m_current_search : string;
  dialogs : list message;
  files : Disk
}.

Definition with_db (d : World) (w : MainWindow) : MainWindow :=
  mkMainWindow d (m_ref_list_store w) (m_status_label w) (m_search_entry w)
               (m_current_search w) (dialogs w) (files w).

Definition with_list_store (l : list Contact) (w : MainWindow) : MainWindow :=
  mkMainWindow (m_db w) l (m_status_label w) (m_search_entry w)
               (m_current_search w) (dialogs w) (files w).

Definition with_status_label (s : string) (w : MainWindow) : MainWindow :=
  mkMainWindow (m_db w) (m_ref_list_store w) s (m_search_entry w)
               (m_current_search w) (dialogs w) (files w).

Definition with_search_entry (s : string) (w : MainWindow) : MainWindow :=
  mkMainWindow (m_db w) (m_ref_list_store w) (m_status_label w) s
               (m_current_search w) (dialogs w) (files w).

Definition with_current_search (s : string) (w : MainWindow) : MainWindow :=
  mkMainWindow (m_db w) (m_ref_list_store w) (m_status_label w)
               (m_search_entry w) s (dialogs w) (files w).

Definition with_dialogs (l : list message) (w : MainWindow) : MainWindow :=
  mkMainWindow (m_db w) (m_ref_list_store w) (m_status_label w)
               (m_search_entry w) (m_current_search w) l (files w).

Definition with_files (d : Disk) (w : MainWindow) : MainWindow :=
  mkMainWindow (m_db w) (m_ref_list_store w) (m_status_label w)
               (m_search_entry w) (m_current_search w) (dialogs w) d.

(** A call [m_db->f(...)]. *)
Definition db {A : Type} (m : Op A) : Prog MainWindow A :=
  within m_db with_db m.

(** [MainWindow::show_error] (MainWindow.cpp:370-383) *)
Definition show_error (message : string) : Prog MainWindow unit :=
  modify (fun w => with_dialogs (dialogs w ++ [Error message]) w).

(** [MainWindow::show_info] (MainWindow.cpp:385-398) *)
Definition show_info (message : string) : Prog MainWindow unit :=
  modify (fun w => with_dialogs (dialogs w ++ [Info message]) w).

(** The loop of [refresh_list] (MainWindow.cpp:349-356): one row
    appended per contact. *)
Fixpoint append_rows (contacts : list Contact) : Prog MainWindow unit :=
  match contacts with
  | [] => finish tt
  | c :: rest =>
      modify (fun w =>
                with_list_store
                  (m_ref_list_store w
                   ++ [mkContact (id c) (first_name c) (last_name c)
                                 (email c) (mobile c)]) w) ;;
      append_rows rest
  end.

(** [MainWindow::refresh_list] (MainWindow.cpp:338-360) *)
Definition refresh_list : Prog MainWindow unit :=
  modify (with_list_store []) ;;
  try_catch_db
    (w <- get ;;
     contacts <- (if negb (empty (m_current_search w))
                  then db (search_contacts (m_current_search w))
                  else db get_all_contacts) ;;
     append_rows contacts)
    (fun what => show_error ("Failed to load contacts: " ++ what)).

(** [MainWindow::update_status] (MainWindow.cpp:362-366) *)
Definition update_status : Prog MainWindow unit :=
  count <- db get_contact_count ;;
  modify (with_status_label ("Total contacts: " ++ to_string count)).

(** [MainWindow::on_search_changed] (MainWindow.cpp:209-213) *)
Definition on_search_changed : Prog MainWindow unit :=
  modify (fun w => with_current_search (m_search_entry w) w) ;;
  refresh_list.

(** [MainWindow::on_clear_search] (MainWindow.cpp:215-220) *)
Definition on_clear_search : Prog MainWindow unit :=
  modify (with_search_entry "") ;;
  modify (with_current_search "") ;;
  refresh_list.

(** [MainWindow::on_delete_contact] (MainWindow.cpp:176-205) up to
    [confirm->present()], for [selected] the answer of
    [get_selected_id()]: the id the confirmation is asked for, if one is
    asked. *)
Definition on_delete_contact (selected : option Z)
  : Prog MainWindow (option Z) :=
  match selected with
  | None => show_info "Please select a contact to delete" ;; finish None
  | Some id => finish (Some id)
  end.

(** The response handler of that confirmation (MainWindow.cpp:189-202),
    for the id it captured. *)
Definition on_delete_response (id : Z) (response_id : response)
  : Prog MainWindow unit :=
  match response_id with
  | OK =>
      try_catch_db
        (db (delete_contact id) ;;
         refresh_list ;;
         update_status ;;
         show_info "Contact deleted successfully")
        (fun what => show_error what)
  | _ => finish tt
  end.

(** *** Import and export *)

(** The four [std::getline(ss, field, ',')] on one line
    (MainWindow.cpp:263-269).  Each field starts out empty and keeps
    that value when its [getline] reads nothing. *)
Definition split_line (line : string)
  : string * string * string * string :=
  let ss := opened line in
  let '(ss, first) := getline ss "" comma in
  let '(ss, last) := getline ss "" comma in
  let '(ss, email) := getline ss "" comma in
  let '(_, mobile) := getline ss "" comma in
  (first, last, email, mobile).

(** The [while (std::getline(infile, line))] loop of the import handler
    (MainWindow.cpp:261-273), at most [fuel] rounds of it; [None] when
    they do not reach the end of the loop. *)
Fixpoint read_loop (fuel : nat) (infile : istream) (line : string)
  (first_line : bool) (contacts : list Contact) : option (list Contact) :=
  match fuel with
  | O => None
  | S fuel' =>
      let (infile, line) := getline infile line LF in
      if ok infile then
        if first_line then read_loop fuel' infile line false contacts
        else
          let '(first, last, email, mobile) := split_line line in
          if negb (empty first) || negb (empty last)
          then read_loop fuel' infile line false
                 (contacts ++ [mkContact 0 first last email mobile])
          else read_loop fuel' infile line false contacts
      else Some contacts
  end.

(** The contacts the handler reads from a file holding [text].  Every
    round but the last takes at least one byte, so the rounds allowed
    here reach the end of the loop ([read_loop_ends] below). *)
Definition read_contacts (text : string) : list Contact :=
  match read_loop (String.length text + 2) (opened text) "" true [] with
  | Some contacts => contacts
  | None => []
  end.

(** The response handler of the file chooser of
    [MainWindow::on_import_csv] (MainWindow.cpp:245-288), for [file] the
    path of [dialog->get_file()], if any. *)
Definition on_import_response (response_id : response) (file : option string)
  : Prog MainWindow unit :=
  match response_id, file with
  | ACCEPT, Some path =>
      w <- get ;;
      match ifstream (files w) path with
      | None => show_error "Failed to open file"
      | Some text =>
          let contacts := read_contacts text in
          match contacts with
          | [] => show_info "No valid contacts found in CSV"
          | _ :: _ =>
              imported <- db (import_contacts contacts) ;;
              if imported : bool then
                refresh_list ;;
                update_status ;;
                show_info ("Successfully imported "
                           ++ size_to_string (length contacts) ++ " contacts")
              else show_error "Failed to import contacts"
          end
      end
  | _, _ => finish tt
  end.

Definition csv_header : string :=
  "First Name,Last Name,Email,Mobile" ++ String LF "".

(** One line of the export (MainWindow.cpp:323). *)
Definition csv_line (c : Contact) : string :=
  first_name c ++ "," ++ last_name c ++ "," ++ email c ++ "," ++ mobile c
  ++ String LF "".

(** What the export writes for [contacts] (MainWindow.cpp:320-324). *)
Definition csv_text (contacts : list Contact) : string :=
  csv_header ++ String.concat "" (map csv_line contacts).

(** The response handler of the file chooser of
    [MainWindow::on_export_csv] (MainWindow.cpp:308-331).  The header is
    in the stream before [get_all_contacts] is called, and it is what
    the file holds when that call raises. *)
Definition on_export_response (response_id : response) (file : option string)
  : Prog MainWindow unit :=
  match response_id, file with
  | ACCEPT, Some path =>
      w <- get ;;
      if writable (files w) path then
        modify (fun w => with_files (written path csv_header (files w)) w) ;;
        contacts <- db get_all_contacts ;;
        modify (fun w => with_files (written path (csv_text contacts) (files w)) w) ;;
        show_info ("Successfully exported "
                   ++ size_to_string (length contacts) ++ " contacts")
      else show_error "Failed to create file"
  | _, _ => finish tt
  end.

(** [MainWindow::MainWindow] (MainWindow.cpp:7-109): the calls on the
    [DB] object and what they leave in the widgets, from the state of
    the members as they are constructed. *)
Definition MainWindow_new (database : World) (disk : Disk)
  : outcome unit * MainWindow :=
  (try_catch_db (db initialize_schema)
     (fun what => show_error ("Failed to initialize database: " ++ what)) ;;
   refresh_list ;;
   update_status)
    (mkMainWindow database [] "" "" "" [] disk).

(** *** [class ContactDialog] *)

(** The members of a [ContactDialog] that its handlers read or write.
    [m_on_saved] is the callback it was given, when it is not null; the
    entries and the label hold the text of the widget;
    [validation_visible] is the visibility of [m_validation_label] and
    [visible] that of the dialog, which [hide()] ends. *)
Record ContactDialog : Type := mkContactDialog {
  m_on_saved : option (Prog MainWindow unit);
  m_editing : bool;
  m_contact_id : Z;
  entry_first : string;
  entry_last : string;
  entry_email : string;
  entry_mobile : string;
  m_validation_label : string;
  validation_visible : bool;
  visible : bool
}.

(** A dialog with the window that opened it, whose [DB] object the
    member [m_db] of the dialog refers to. *)
Record Desk : Type := mkDesk {
  parent : MainWindow;
  self : ContactDialog
}.

Definition with_parent (w : MainWindow) (d : Desk) : Desk := mkDesk w (self d).

Definition with_self (c : ContactDialog) (d : Desk) : Desk :=
  mkDesk (parent d) c.

Definition with_entries (first last email mobile : string) (c : ContactDialog)
  : ContactDialog :=
  mkContactDialog (m_on_saved c) (m_editing c) (m_contact_id c)
                  first last email mobile
                  (m_validation_label c) (validation_visible c) (visible c).

Definition with_validation (text : string) (shown : bool) (c : ContactDialog)
  : ContactDialog :=
  mkContactDialog (m_on_saved c) (m_editing c) (m_contact_id c)
                  (entry_first c) (entry_last c) (entry_email c)
                  (entry_mobile c) text shown (visible c).

Definition with_visible (b : bool) (c : ContactDialog) : ContactDialog :=
  mkContactDialog (m_on_saved c) (m_editing c) (m_contact_id c)
                  (entry_first c) (entry_last c) (entry_email c)
                  (entry_mobile c) (m_validation_label c)
                  (validation_visible c) b.

(** A call [m_db.f(...)]. *)
Definition in_db {A : Type} (m : Op A) : Prog Desk A :=
  within parent with_parent (db m).

(** The bytes before the message in [show_validation_error]
    (ContactDialogs.cpp:184), as the source file holds them. *)
Definition warning_sign : string :=
  String "195" (String "162" (String "197" (String "161"
    (String "194" (String "160" " "))))).

(** [ContactDialog::show_validation_error] (ContactDialogs.cpp:182-186) *)
Definition show_validation_error (message : string) : Prog Desk unit :=
  modify (fun d => with_self (with_validation (warning_sign ++ message) true
                                              (self d)) d).

(** [ContactDialog::clear_validation_error] (ContactDialogs.cpp:188-191) *)
Definition clear_validation_error : Prog Desk unit :=
  modify (fun d => with_self (with_validation (m_validation_label (self d))
                                              false (self d)) d).

(** [hide()] *)
Definition hide : Prog Desk unit :=
  modify (fun d => with_self (with_visible false (self d)) d).

(** [ContactDialog::validate_input] (ContactDialogs.cpp:160-180) *)
Definition ContactDialog_validate_input : Prog Desk bool :=
  d <- get ;;
  let first := trim (entry_first (self d)) in
  let last := trim (entry_last (self d)) in
  let email := trim (entry_email (self d)) in
  if empty first && empty last then
    show_validation_error "Please enter at least a first name or last name" ;;
    finish false
  else if negb (empty email) && negb (is_valid_email email) then
    show_validation_error "Please enter a valid email address" ;;
    finish false
  else
    clear_validation_error ;;
    finish true.

(** [ContactDialog::on_ok_clicked] (ContactDialogs.cpp:101-128) *)
Definition on_ok_clicked : Prog Desk unit :=
  valid <- ContactDialog_validate_input ;;
  if negb valid then finish tt
  else
    d <- get ;;
    let first := trim (entry_first (self d)) in
    let last := trim (entry_last (self d)) in
    let email := trim (entry_email (self d)) in
    let mobile := trim (entry_mobile (self d)) in
    try_catch_db
      ((if m_editing (self d)
        then in_db (update_contact (m_contact_id (self d)) first last email mobile)
        else in_db (insert_contact first last email mobile)) ;;
       match m_on_saved (self d) with
       | Some on_saved => within parent with_parent on_saved
       | None => finish tt
       end ;;
       hide)
      (fun what => show_validation_error what).

(** [ContactDialog::on_cancel_clicked] (ContactDialogs.cpp:130-133) *)
Definition on_cancel_clicked : Prog Desk unit := hide.

(** [ContactDialog::load_contact_data] (ContactDialogs.cpp:135-145).  It
    runs in the constructor, where the label is hidden, so that the
    [clear_validation_error] each change of an entry triggers
    (ContactDialogs.cpp:92-95) changes nothing. *)
Definition load_contact_data : Prog Desk unit :=
  d <- get ;;
  contact <- in_db (get_contact_by_id (m_contact_id (self d))) ;;
  match contact with
  | None => finish tt
  | Some c =>
      modify (fun d => with_self (with_entries (first_name c) (last_name c)
                                               (email c) (mobile c) (self d)) d)
  end.

(** [ContactDialog::ContactDialog] (ContactDialogs.cpp:4-99), opened
    from a window: the dialog it builds. *)
Definition ContactDialog_new (on_saved : option (Prog MainWindow unit))
  (editing : bool) (contact_id : Z) : Prog MainWindow ContactDialog :=
  fun w =>
    let fresh := mkContactDialog on_saved editing contact_id "" "" "" ""
                                 "" false true in
    if editing then
      match load_contact_data (mkDesk w fresh) with
      | (Returned _, d) => (Returned (self d), parent d)
      | (Thrown e, d) => (Thrown e, parent d)
      end
    else (Returned fresh, w).

(** The callback [MainWindow] gives the dialogs it opens
    (MainWindow.cpp:143, MainWindow.cpp:164). *)
Definition saved : Prog MainWindow unit := refresh_list ;; update_status.

(** [MainWindow::on_add_contact] (MainWindow.cpp:140-153): the dialog
    presented. *)
Definition on_add_contact : Prog MainWindow ContactDialog :=
  ContactDialog_new (Some saved) false 0.

(** [MainWindow::on_edit_contact] (MainWindow.cpp:155-174), for
    [selected] the answer of [get_selected_id()]: the dialog presented,
    if one is. *)
Definition on_edit_contact (selected : option Z)
  : Prog MainWindow (option ContactDialog) :=
  match selected with
  | None => show_info "Please select a contact to edit" ;; finish None
  | Some id =>
      dialog <- ContactDialog_new (Some saved) true id ;;
      finish (Some dialog)
  end.

(** *** Words for the statements below *)

(** The contacts the list shows for a table: those of the full listing,
    or of the search for the current text when there is one. *)
Definition listing (c : Connection) (search : string) : list Contact :=
  map fetch
      (order_by (ascending (compare_names (weight c)))
                (if empty search then rows c
                 else filter (matches c ("%" ++ search ++ "%")) (rows c))).

(** The list and the status line show the table. *)
Definition in_step (w : MainWindow) : Prop :=
  m_ref_list_store w = listing (conn_ (m_db w)) (m_current_search w) /\
  m_status_label w
  = "Total contacts: " ++ to_string (Z.of_nat (length (rows (conn_ (m_db w))))).

(** The connection of the window works and has no transaction open. *)
Definition at_rest (w : MainWindow) : Prop :=
  link (conn_ (m_db w)) = Healthy /\ txn (conn_ (m_db w)) = None.

(** What the user does to a window, as far as its handlers see it: the
    text typed in the search entry and in the entries of a contact
    dialog, the answers given to the confirmation and to the file
    choosers. *)
Inductive event : Type :=
| Typed (text : string)
| SearchChanged
| ClearSearch
| Added (first last email mobile : string)
| Edited (selected : option Z) (first last email mobile : string)
| Deleted (selected : option Z) (response_id : response)
| Imported (response_id : response) (file : option string)
| Exported (response_id : response) (file : option string).

(** Pressing Save in [dialog] after the entries have been given these
    texts. *)
Definition save_in (dialog : ContactDialog) (first last email mobile : string)
  : Prog MainWindow unit :=
  fun w =>
    let (o, d) :=
      on_ok_clicked (mkDesk w (with_entries first last email mobile dialog)) in
    (o, parent d).

(** The handlers an event runs. *)
Definition handle (e : event) : Prog MainWindow unit :=
  match e with
  | Typed text => modify (with_search_entry text)
  | SearchChanged => on_search_changed
  | ClearSearch => on_clear_search
  | Added first last email mobile =>
      dialog <- on_add_contact ;;
      save_in dialog first last email mobile
  | Edited selected first last email mobile =>
      opened_dialog <- on_edit_contact selected ;;
      match opened_dialog with
      | Some dialog => save_in dialog first last email mobile
      | None => finish tt
      end
  | Deleted selected response_id =>
      asked <- on_delete_contact selected ;;
      match asked with
      | Some id => on_delete_response id response_id
      | None => finish tt
      end
  | Imported response_id file => on_import_response response_id file
  | Exported response_id file => on_export_response response_id file
  end.

(** A contact the export writes on one line that the import reads back:
    a first or last name, and no comma or line feed in any field. *)
Definition plain (s : string) : bool :=
  all (fun c => negb (Ascii.eqb c comma) && negb (Ascii.eqb c LF)) s.

Definition portable (c : Contact) : bool :=
  (negb (empty (first_name c)) || negb (empty (last_name c)))
  && plain (first_name c) && plain (last_name c)
  && plain (email c) && plain (mobile c).

(** The contact as the import builds it: [Contact{0, ...}]. *)
Definition unnumbered (c : Contact) : Contact :=
  mkContact 0 (first_name c) (last_name c) (email c) (mobile c).

(** What the loop of the import adds: id 0, a first or a last name, and
    no comma or line feed in a field. *)
Definition as_read (c : Contact) : Prop := id c = 0%Z /\ portable c = true.

(** The states of a window opened on [database]: the one its
    constructor leaves, and the one each event leaves. *)
Inductive shown (database : World) (disk : Disk) : MainWindow -> Prop :=
| shown_new : shown database disk (snd (MainWindow_new database disk))
| shown_after (w : MainWindow) (e : event) :
    shown database disk w -> shown database disk (snd (handle e w)).

(** [m] started in [w] leaves a working link with no transaction open
    and the same collation; when it raises, it is a [DBException] and
    the table is what it was. *)
Definition settles {A : Type} (m : Op A) (w : World) : Prop :=
  link (conn_ (snd (m w))) = Healthy /\ txn (conn_ (snd (m w))) = None /\
  weight (conn_ (snd (m w))) = weight (conn_ w) /\
  like (conn_ (snd (m w))) = like (conn_ w) /\
  match fst (m w) with
  | Returned _ => True
  | Thrown e =>
      (exists what, e = DBException what) /\
      rows (conn_ (snd (m w))) = rows (conn_ w)
  end.

(** What the label of a contact dialog says after a save that did not
    go through: one of the two messages of the dialog, or what the [DB]
    object raised, which is not one of its own two validation
    messages. *)
Definition refusal (d : ContactDialog) (what : string) : Prop :=
  what = "Please enter at least a first name or last name" \/
  what = "Please enter a valid email address" \/
  what = "Database connection lost" \/
  (m_editing d = true /\
   (what = "Contact not found with ID: " ++ to_string (m_contact_id d) \/
    exists x, what = "Update error: " ++ x)) \/
  (m_editing d = false /\ exists x, what = "Insert error: " ++ x).

(** The exception is the one of the liveness check, or comes from the
    connector. *)
Definition escapes (x : exception) (w : World) : Prop :=
  x = connection_lost \/ exists what, x = SQLException what.

(** The exceptions a handler lets out of the window. *)
Definition lets_out (e : event) (x : exception) : Prop :=
  match e with
  | Edited (Some _) _ _ _ _ => x = connection_lost
  | Exported ACCEPT (Some _) => x = connection_lost
  | Imported ACCEPT (Some _) =>
      x = connection_lost \/ exists what, x = SQLException what
  | _ => False
  end.

End Windows.

(** ** [class DBConnectionDialog] (DBConnectionDialog.cpp) *)

Module Connect.
Import Text Effects Streams Gui.
Local Open Scope prog_scope.

(** The members of the dialog that its handlers read or write: the text
    of the entries and of the status label, the state of the check box,
    whether the label is visible and carries the css class "error", and
    whether the dialog itself is visible. *)
Record DBConnectionDialog : Type := mkDBConnectionDialog {
  entry_host : string;
  entry_port : string;
  entry_user : string;
  entry_password : string;
  entry_database : string;
  check_remember : bool;
  m_status_label : string;
  status_visible : bool;
  status_error : bool;
  on_screen : bool
}.

Definition with_status (text : string) (is_error : bool)
  (d : DBConnectionDialog) : DBConnectionDialog :=
  mkDBConnectionDialog (entry_host d) (entry_port d) (entry_user d)
                       (entry_password d) (entry_database d)
                       (check_remember d) text true is_error (on_screen d).

Definition with_host (s : string) (d : DBConnectionDialog) : DBConnectionDialog :=
  mkDBConnectionDialog s (entry_port d) (entry_user d)
                       (entry_password d) (entry_database d)
                       (check_remember d) (m_status_label d)
                       (status_visible d) (status_error d) (on_screen d).

Definition with_port (s : string) (d : DBConnectionDialog) : DBConnectionDialog :=
  mkDBConnectionDialog (entry_host d) s (entry_user d)
                       (entry_password d) (entry_database d)
                       (check_remember d) (m_status_label d)
                       (status_visible d) (status_error d) (on_screen d).

Definition with_user (s : string) (d : DBConnectionDialog) : DBConnectionDialog :=
  mkDBConnectionDialog (entry_host d) (entry_port d) s
                       (entry_password d) (entry_database d)
                       (check_remember d) (m_status_label d)
                       (status_visible d) (status_error d) (on_screen d).

Definition with_database (s : string) (d : DBConnectionDialog)
  : DBConnectionDialog :=
  mkDBConnectionDialog (entry_host d) (entry_port d) (entry_user d)
                       (entry_password d) s
                       (check_remember d) (m_status_label d)
                       (status_visible d) (status_error d) (on_screen d).

Definition with_remember (b : bool) (d : DBConnectionDialog)
  : DBConnectionDialog :=
  mkDBConnectionDialog (entry_host d) (entry_port d) (entry_user d)
                       (entry_password d) (entry_database d)
                       b (m_status_label d)
                       (status_visible d) (status_error d) (on_screen d).

Definition with_on_screen (b : bool) (d : DBConnectionDialog)
  : DBConnectionDialog :=
  mkDBConnectionDialog (entry_host d) (entry_port d) (entry_user d)
                       (entry_password d) (entry_database d)
                       (check_remember d) (m_status_label d)
                       (status_visible d) (status_error d) b.

(** The dialog as the constructor leaves it before it loads what was
    saved (DBConnectionDialog.cpp:60-77). *)
Definition defaults : DBConnectionDialog :=
  mkDBConnectionDialog "127.0.0.1" "3306" "root" "" "Contacts"
                       false "" false false true.

(** [config_dir] and [config_file] of [save_credentials] and
    [load_saved_credentials], for the value of [getenv("HOME")]. *)
Definition config_dir (home : string) : string :=
  home ++ "/.config/contacts-app".

Definition config_file (home : string) : string :=
  config_dir home ++ "/db_config.txt".

(** [Glib::locale_from_utf8]: the bytes of a UTF-8 text in the charset
    of the locale, or what the [Glib::ConvertError] says that it raises
    for a text without such bytes. *)
Inductive localized : Type :=
| Localized (bytes : string)
| ConvertError (what : string).

(** [file << text << "\n"] for each of [texts] in turn
    (DBConnectionDialog.cpp:192-195): what reaches the file and, when one
    of the texts has no conversion, what the exception says.  The texts are
    [Glib::ustring]s: [operator<<] converts each one to the charset of the
    locale and streams the result as a C string, up to its first NUL; it
    raises before anything of that text is written, and the lines written
    before stay in the file. *)
Fixpoint stream_lines (locale : string -> localized) (texts : list string)
  : string * option string :=
  match texts with
  | [] => ("", None)
  | text :: rest =>
      match locale text with
      | ConvertError what => ("", Some what)
      | Localized bytes =>
          let (more, failure) := stream_lines locale rest in
          (c_str bytes ++ String LF more, failure)
      end
  end.

(** The locale has the bytes of [text] for [text], none of them NUL:
    so it is for every text in a UTF-8 locale, and for ASCII text in the
    usual ones. *)
Definition kept_by (locale : string -> localized) (text : string) : bool :=
  match locale text with
  | Localized bytes => String.eqb (c_str bytes) text
  | ConvertError _ => false
  end.

Section Callback.

(** What the callback of the dialog reaches. *)
Variable App : Type.

(** A dialog with what its handlers reach outside it: the state of the
    callback, the file system, the value of [HOME], which is taken to be
    set, the conversion to the charset of the locale, and [std::cerr]. *)
Record Desktop : Type := mkDesktop {
  app : App;
  disk : Disk;
  HOME : string;
  locale_from_utf8 : string -> localized;
  stderr : list string;
  dialog : DBConnectionDialog
}.

Definition with_app (a : App) (d : Desktop) : Desktop :=
  mkDesktop a (disk d) (HOME d) (locale_from_utf8 d) (stderr d) (dialog d).

Definition with_disk (f : Disk) (d : Desktop) : Desktop :=
  mkDesktop (app d) f (HOME d) (locale_from_utf8 d) (stderr d) (dialog d).

Definition with_stderr (l : list string) (d : Desktop) : Desktop :=
  mkDesktop (app d) (disk d) (HOME d) (locale_from_utf8 d) l (dialog d).

Definition with_dialog (s : DBConnectionDialog) (d : Desktop) : Desktop :=
  mkDesktop (app d) (disk d) (HOME d) (locale_from_utf8 d) (stderr d) s.

(** [m_on_connect], when it is not null. *)
Variable m_on_connect : option (string -> Z -> string -> string -> Prog App unit).

(** [DBConnectionDialog::show_status] (DBConnectionDialog.cpp:207-217) *)
Definition show_status (message : string) (is_error : bool) : Prog Desktop unit :=
  modify (fun d => with_dialog (with_status message is_error (dialog d)) d).

(** [hide()] *)
Definition hide_dialog : Prog Desktop unit :=
  modify (fun d => with_dialog (with_on_screen false (dialog d)) d).

(** The handler of [save_credentials] (DBConnectionDialog.cpp:202-204). *)
Definition save_failed (what : string) : Prog Desktop unit :=
  modify (fun d => with_stderr (stderr d ++ ["Failed to save credentials: "
                                         ++ what ++ String LF ""]) d).

(** [DBConnectionDialog::save_credentials]
    (DBConnectionDialog.cpp:182-205).  Opening the file empties it.
    Whatever raises inside the [try] derives from [std::exception] and
    ends in the handler: [create_directories], the conversion of a text
    by [operator<<], [permissions].  The file is closed, with what was
    written to it, when the exception leaves the block; [permissions] is
    not reached when a text has no conversion. *)
Definition save_credentials : Prog Desktop unit :=
  d <- get ;;
  match directories_error (disk d) (config_dir (HOME d)) with
  | Some what => save_failed what
  | None =>
      if writable (disk d) (config_file (HOME d)) then
        let (text, failure) :=
          stream_lines (locale_from_utf8 d)
                       [entry_host (dialog d); entry_port (dialog d);
                        entry_user (dialog d); entry_database (dialog d)] in
        modify (with_disk (written (config_file (HOME d)) text (disk d))) ;;
        match failure with
        | Some what => save_failed what
        | None =>
            match permissions_error (disk d) (config_file (HOME d)) with
            | Some what => save_failed what
            | None =>
                modify (fun d => with_disk (owner_only (config_file (HOME d))
                                                        (disk d)) d)
            end
        end
      else finish tt
  end.

(** One [if (std::getline(file, line)) entry.set_text(line);] of
    [load_saved_credentials]: the stream and [line] afterwards. *)
Definition load_line (set_text : string -> DBConnectionDialog -> DBConnectionDialog)
  (file : istream) (line : string) : Prog Desktop (istream * string) :=
  let (file, line) := getline file line LF in
  (if ok file
   then modify (fun d => with_dialog (set_text line (dialog d)) d)
   else finish tt) ;;
  finish (file, line).

(** [DBConnectionDialog::load_saved_credentials]
    (DBConnectionDialog.cpp:162-180) *)
Definition load_saved_credentials : Prog Desktop unit :=
  d <- get ;;
  match ifstream (disk d) (config_file (HOME d)) with
  | None => finish tt
  | Some text =>
      r <- load_line with_host (opened text) "" ;;
      r <- load_line with_port (fst r) (snd r) ;;
      r <- load_line with_user (fst r) (snd r) ;;
      r <- load_line with_database (fst r) (snd r) ;;
      modify (fun d => with_dialog (with_remember true (dialog d)) d)
  end.

(** [DBConnectionDialog::DBConnectionDialog]
    (DBConnectionDialog.cpp:7-98): the dialog it builds. *)
Definition DBConnectionDialog_new : Prog Desktop unit :=
  modify (with_dialog defaults) ;;
  load_saved_credentials.

(** [DBConnectionDialog::on_ok] (DBConnectionDialog.cpp:100-130).
    Whatever [std::stoi] or the range test raises ends in the same
    [catch (...)]. *)
Definition on_ok : Prog Desktop unit :=
  d <- get ;;
  let host := entry_host (dialog d) in
  let port_str := entry_port (dialog d) in
  let user := entry_user (dialog d) in
  let password := entry_password (dialog d) in
  if empty host || empty port_str || empty user then
    show_status "Please fill in all required fields" true
  else
    match stoi port_str with
    | Converted n =>
        let port := to_unsigned n in
        if (port =? 0)%Z || (65535 <? port)%Z then
          show_status "Invalid port number" true
        else
          (if check_remember (dialog d) then save_credentials else finish tt) ;;
          match m_on_connect with
          | Some on_connect =>
              within app with_app (on_connect host port user password)
          | None => finish tt
          end ;;
          hide_dialog
    | invalid_argument | out_of_range =>
        show_status "Invalid port number" true
    end.

End Callback.

Arguments mkDesktop {App} _ _ _ _ _ _.
Arguments app {App} _.
Arguments disk {App} _.
Arguments HOME {App} _.
Arguments locale_from_utf8 {App} _.
Arguments stderr {App} _.
Arguments dialog {App} _.
Arguments with_app {App} _ _.
Arguments with_disk {App} _ _.
Arguments with_stderr {App} _ _.
Arguments with_dialog {App} _ _.
Arguments show_status {App} _ _.
Arguments hide_dialog {App}.
Arguments save_failed {App} _.
Arguments save_credentials {App}.
Arguments load_line {App} _ _ _.
Arguments load_saved_credentials {App}.
Arguments DBConnectionDialog_new {App}.
Arguments on_ok {App} _.

(** A text that fits on one line of the file. *)
Definition one_line (s : string) : bool :=
  all (fun c => negb (Ascii.eqb c LF)) s.

(** A locale whose charset is ASCII, such as the "C" locale: a text
    converts when every byte of it is below 128. *)
Definition c_locale (text : string) : localized :=
  if all (fun c => (nat_of_ascii c <? 128)%nat) text then Localized text
  else ConvertError "Invalid byte sequence in conversion input".

End Connect.

(* ===================================================================== *)
(** * Part II. Properties                                                 *)
(* ===================================================================== *)

(** ** Strings *)

Module TextFacts.
Import Text.

Lemma append_nil_r (s : string) : s ++ "" = s.
Proof. induction s as [|c s IH]; simpl; [reflexivity | now rewrite IH]. Qed.

Lemma append_assoc (s1 s2 s3 : string) : (s1 ++ s2) ++ s3 = s1 ++ (s2 ++ s3).
Proof. induction s1 as [|c s1 IH]; simpl; [reflexivity | now rewrite IH]. Qed.

Lemma append_eq_nil (s1 s2 : string) : s1 ++ s2 = "" -> s1 = "" /\ s2 = "".
Proof. destruct s1; simpl; intro H; [auto | discriminate]. Qed.

Lemma length_append (s1 s2 : string) :
  String.length (s1 ++ s2) = String.length s1 + String.length s2.
Proof. induction s1 as [|c s1 IH]; simpl; [reflexivity | now rewrite IH]. Qed.

Lemma empty_true (s : string) : empty s = true <-> s = "".
Proof. destruct s; simpl; split; intro H; congruence. Qed.

Lemma empty_false (s : string) : empty s = false <-> s <> "".
Proof. destruct s; simpl; split; intro H; congruence. Qed.

Lemma all_ext (p q : ascii -> bool) (s : string) :
  (forall c, p c = q c) -> all p s = all q s.
Proof.
  intro E. induction s as [|c s IH]; simpl; [reflexivity | now rewrite E, IH].
Qed.

Lemma all_append (p : ascii -> bool) (s1 s2 : string) :
  all p (s1 ++ s2) = all p s1 && all p s2.
Proof.
  induction s1 as [|c s1 IH]; simpl; [reflexivity |].
  now rewrite IH, andb_assoc.
Qed.

Lemma c_str_nul_free (s : string) : nul_free s = true -> c_str s = s.
Proof.
  unfold nul_free. induction s as [|c s IH]; simpl; [reflexivity |].
  intro H. apply andb_true_iff in H. destruct H as [Hc Hs].
  destruct (Ascii.eqb c NUL); [discriminate | now rewrite IH].
Qed.

End TextFacts.

(** ** The matcher computes the language of the pattern *)

Module RegexFacts.
Import Text Regex TextFacts.

Lemma Lang_cat (r1 r2 : regex) (s : string) :
  Lang (Cat r1 r2) s <-> exists s1 s2, s = s1 ++ s2 /\ Lang r1 s1 /\ Lang r2 s2.
Proof.
  split.
  - intro H. inversion H; subst. now exists s1, s2.
  - intros (s1 & s2 & -> & H1 & H2). now constructor.
Qed.

Lemma Lang_class (p : ascii -> bool) (s : string) :
  Lang (Class p) s <-> exists c, s = String c "" /\ p c = true.
Proof.
  split.
  - intro H. inversion H; subst. now exists c.
  - intros (c & -> & H). now constructor.
Qed.

Lemma nullable_Lang (r : regex) : nullable r = true <-> Lang r "".
Proof.
  induction r as [| |p|r1 IH1 r2 IH2|r1 IH1 r2 IH2|r IH]; simpl.
  - split; intro H; [discriminate | inversion H].
  - split; intro H; [constructor | reflexivity].
  - split; intro H; [discriminate | inversion H].
  - rewrite andb_true_iff, IH1, IH2. split.
    + intros [H1 H2]. change "" with ("" ++ ""). now constructor.
    + intro H. apply Lang_cat in H. destruct H as (s1 & s2 & E & L1 & L2).
      symmetry in E. apply append_eq_nil in E. destruct E; subst. now split.
  - rewrite orb_true_iff, IH1, IH2. split.
    + intros [H|H]; [now apply LAltL | now apply LAltR].
    + intro H. inversion H; subst; [now left | now right].
  - split; intro H; [constructor | reflexivity].
Qed.

(** A non-empty word of [r*] starts with a non-empty word of [r]. *)
Lemma Lang_star_cons (r : regex) (c : ascii) (s : string) :
  Lang (Star r) (String c s) ->
  exists s1 s2, s = s1 ++ s2 /\ Lang r (String c s1) /\ Lang (Star r) s2.
Proof.
  intro H.
  remember (Star r) as r' eqn:Er. remember (String c s) as t eqn:Et.
  revert c s Et.
  induction H as [| | | | | |r0 s1 s2 H1 _ H2 IH2]; intros c0 s0 Et;
    try discriminate.
  inversion Er; subst r0.
  destruct s1 as [|d s1'].
  - simpl in Et. now apply IH2.
  - simpl in Et. inversion Et; subst. now exists s1', s2.
Qed.

Lemma deriv_Lang (c : ascii) (r : regex) (s : string) :
  Lang (deriv c r) s <-> Lang r (String c s).
Proof.
  revert s.
  induction r as [| |p|r1 IH1 r2 IH2|r1 IH1 r2 IH2|r IH]; intro s; simpl.
  - split; intro H; inversion H.
  - split; intro H; inversion H.
  - split; intro H.
    + destruct (p c) eqn:E; inversion H; subst. now constructor.
    + inversion H; subst. rewrite H2. constructor.
  - split; intro H.
    + assert (Hcat : forall t, Lang (Cat (deriv c r1) r2) t ->
                               Lang (Cat r1 r2) (String c t)).
      { intros t Ht. inversion Ht; subst.
        change (String c (s1 ++ s2)) with (String c s1 ++ s2).
        constructor; [now apply IH1 | assumption]. }
      destruct (nullable r1) eqn:N.
      * inversion H; subst; [now apply Hcat |].
        change (String c s) with ("" ++ String c s).
        constructor; [now apply nullable_Lang | now apply IH2].
      * now apply Hcat.
    + apply Lang_cat in H. destruct H as (s1 & s2 & E & L1 & L2).
      destruct s1 as [|d s1'].
      * simpl in E. subst s2.
        apply nullable_Lang in L1. rewrite L1.
        apply LAltR. now apply IH2.
      * simpl in E. injection E as Ec Es. subst d s.
        assert (Hc : Lang (Cat (deriv c r1) r2) (s1' ++ s2))
          by (constructor; [now apply IH1 | assumption]).
        destruct (nullable r1); [now apply LAltL | assumption].
  - split; intro H; inversion H; subst;
      solve [apply LAltL; now apply IH1 | apply LAltR; now apply IH2].
  - split; intro H.
    + inversion H; subst.
      change (String c (s1 ++ s2)) with (String c s1 ++ s2).
      constructor; [now apply IH | assumption].
    + apply Lang_star_cons in H. destruct H as (s1 & s2 & E & L1 & L2). subst.
      constructor; [now apply IH | assumption].
Qed.

(** [regex_match s r] holds exactly when the whole of [s] is a word of [r]. *)
Lemma regex_match_Lang (s : string) (r : regex) :
  regex_match s r = true <-> Lang r s.
Proof.
  revert r. induction s as [|c s IH]; intro r; simpl.
  - apply nullable_Lang.
  - rewrite IH. apply deriv_Lang.
Qed.

Lemma Lang_class_star (p : ascii -> bool) (s : string) :
  Lang (Star (Class p)) s <-> all p s = true.
Proof.
  induction s as [|c s IH]; simpl.
  - split; intro; [reflexivity | constructor].
  - split; intro H.
    + apply Lang_star_cons in H. destruct H as (s1 & s2 & E & L1 & L2).
      apply Lang_class in L1. destruct L1 as (d & Ed & Hd).
      injection Ed as Ec Es. subst d s1. simpl in E. subst s2.
      rewrite Hd. simpl. now apply IH.
    + apply andb_true_iff in H. destruct H as [Hc Hs].
      change (String c s) with (String c "" ++ s).
      constructor; [now constructor | now apply IH].
Qed.

Lemma Lang_class_plus (p : ascii -> bool) (s : string) :
  Lang (Plus (Class p)) s <-> s <> "" /\ all p s = true.
Proof.
  unfold Plus. split.
  - intro H. apply Lang_cat in H. destruct H as (s1 & s2 & E & L1 & L2).
    apply Lang_class in L1. destruct L1 as (c & -> & Hc). subst s. simpl.
    split; [discriminate |].
    rewrite Hc. simpl. now apply Lang_class_star.
  - intros [Hne Hall]. destruct s as [|c s]; [congruence |].
    simpl in Hall. apply andb_true_iff in Hall. destruct Hall as [Hc Hs].
    change (String c s) with (String c "" ++ s).
    constructor; [now constructor | now apply Lang_class_star].
Qed.

Lemma Lang_class_at_least (n : nat) (p : ascii -> bool) (s : string) :
  Lang (AtLeast n (Class p)) s <-> n <= String.length s /\ all p s = true.
Proof.
  revert s. induction n as [|n IH]; intro s; simpl.
  - rewrite Lang_class_star. split; [intro; split; [lia | assumption] | tauto].
  - split.
    + intro H. apply Lang_cat in H. destruct H as (s1 & s2 & E & L1 & L2).
      apply Lang_class in L1. destruct L1 as (c & -> & Hc). subst s.
      apply IH in L2. destruct L2 as [Hl Ha].
      simpl. rewrite Hc. simpl. split; [lia | assumption].
    + intros [Hl Ha]. destruct s as [|c s]; simpl in *; [lia |].
      apply andb_true_iff in Ha. destruct Ha as [Hc Hs].
      change (String c s) with (String c "" ++ s).
      constructor; [now constructor | apply IH; split; [lia | assumption]].
Qed.

Lemma Lang_chr (c : ascii) (s : string) :
  Lang (Chr c) s <-> s = String c "".
Proof.
  unfold Chr. rewrite Lang_class. split.
  - intros (d & -> & H). apply Ascii.eqb_eq in H. now subst.
  - intros ->. exists c. split; [reflexivity | apply Ascii.eqb_refl].
Qed.

End RegexFacts.

(** ** Validation rules *)

Module ValidationFacts.
Import Text Regex Validation TextFacts RegexFacts.

Lemma local_class_chars (c : ascii) :
  existsb (in_item c) local_class = local_char c.
Proof. destruct c as [[] [] [] [] [] [] [] []]; reflexivity. Qed.

Lemma domain_class_chars (c : ascii) :
  existsb (in_item c) domain_class = domain_char c.
Proof. destruct c as [[] [] [] [] [] [] [] []]; reflexivity. Qed.

Lemma alpha_class_chars (c : ascii) :
  existsb (in_item c) alpha_class = letter c.
Proof. destruct c as [[] [] [] [] [] [] [] []]; reflexivity. Qed.

(** The words of the pattern are the strings of the email shape. *)
Lemma pattern_shape (s : string) : Lang pattern s <-> email_shape s.
Proof.
  unfold pattern, email_shape, Bracket. split.
  - intro H.
    apply Lang_cat in H. destruct H as (loc & t1 & E1 & Hloc & H).
    apply Lang_cat in H. destruct H as (at_ & t2 & E2 & Hat & H).
    apply Lang_cat in H. destruct H as (dom & t3 & E3 & Hdom & H).
    apply Lang_cat in H. destruct H as (dot & tld & E4 & Hdot & Htld).
    apply Lang_chr in Hat. apply Lang_chr in Hdot.
    apply Lang_class_plus in Hloc. apply Lang_class_plus in Hdom.
    apply Lang_class_at_least in Htld.
    destruct Hloc as [Nloc Aloc]. destruct Hdom as [Ndom Adom].
    destruct Htld as [Ltld Atld].
    rewrite (all_ext _ _ loc local_class_chars) in Aloc.
    rewrite (all_ext _ _ dom domain_class_chars) in Adom.
    rewrite (all_ext _ _ tld alpha_class_chars) in Atld.
    exists loc, dom, tld. subst. repeat split; assumption.
  - intros (loc & dom & tld & E & Nloc & Aloc & Ndom & Adom & Ltld & Atld).
    subst s.
    rewrite <- (all_ext _ _ loc local_class_chars) in Aloc.
    rewrite <- (all_ext _ _ dom domain_class_chars) in Adom.
    rewrite <- (all_ext _ _ tld alpha_class_chars) in Atld.
    apply LCat; [now apply Lang_class_plus |].
    apply LCat; [now apply Lang_chr |].
    apply LCat; [now apply Lang_class_plus |].
    apply LCat; [now apply Lang_chr |].
    now apply Lang_class_at_least.
Qed.

Lemma is_valid_email_shape (s : string) :
  is_valid_email s = true <-> email_shape s.
Proof.
  unfold is_valid_email. rewrite regex_match_Lang. apply pattern_shape.
Qed.

(** The pattern alone refuses the empty string; it is the guard around it
    that lets an empty email through. *)
Lemma is_valid_email_empty : is_valid_email "" = false.
Proof. reflexivity. Qed.

Lemma validateEmail_unfold (s : string) :
  validateEmail s = empty s || regex_match s pattern.
Proof.
  unfold validateEmail, is_valid_email.
  destruct (empty s), (regex_match s pattern); reflexivity.
Qed.

(** C3. For every string [s], the email rule of the write path accepts
    [s] if and only if [s] is empty or has the email shape (letters, digits
    and [._%+-] before the [@], a domain of letters, digits, dots and
    hyphens, a dot and a TLD of at least two letters).  A non-empty [s] is
    decided by one anchored match of the whole string, so an address
    embedded in other text is refused.  ["a@b.co"] and [""] are accepted,
    ["not-an-email"] is refused. *)
Theorem validateEmail_iff_empty_or_shape :
  (forall s : string, validateEmail s = true <-> s = "" \/ email_shape s) /\
  (forall s : string, validateEmail s = empty s || regex_match s pattern) /\
  validateEmail "a@b.co" = true /\
  validateEmail "not-an-email" = false /\
  validateEmail "" = true /\
  validateEmail "see a@b.co now" = false.
Proof.
  split; [| split; [exact validateEmail_unfold | repeat split; reflexivity]].
  intro s. rewrite validateEmail_unfold, orb_true_iff, empty_true.
  fold (is_valid_email s). now rewrite is_valid_email_shape.
Qed.

(** *** Trimming *)

Lemma whitespace_is_space (c : ascii) : mem c whitespace = is_space c.
Proof.
  unfold whitespace, is_space. simpl.
  destruct (Ascii.eqb c " "), (Ascii.eqb c "009"), (Ascii.eqb c "010"),
    (Ascii.eqb c "013"); reflexivity.
Qed.

Lemma find_last_not_of_bound (set s : string) (j : nat) :
  find_last_not_of set s = Some j -> j < String.length s.
Proof.
  revert j. induction s as [|c s IH]; simpl; intros j H; [discriminate |].
  destruct (find_last_not_of set s) as [i|].
  - injection H as <-. specialize (IH i eq_refl). lia.
  - destruct (mem c set); [discriminate | injection H as <-; lia].
Qed.

Lemma substring_prefix_nonempty (n : nat) (s : string) :
  n < String.length s -> substring 0 (S n) s <> "".
Proof. destruct s; simpl; [lia | discriminate]. Qed.

Lemma strip_trailing_prefix (s : string) :
  strip_trailing s = substring 0 (kept whitespace s) s.
Proof.
  unfold kept. induction s as [|c s IH]; [reflexivity |].
  cbn [strip_trailing find_last_not_of]. rewrite whitespace_is_space, IH.
  destruct (find_last_not_of whitespace s) as [j|] eqn:E.
  - pose proof (substring_prefix_nonempty j s (find_last_not_of_bound _ _ _ E)) as N.
    cbn [substring]. destruct (substring 0 (S j) s); [congruence | reflexivity].
  - destruct s; destruct (is_space c); reflexivity.
Qed.

Lemma find_first_some_last_some (s : string) (i : nat) :
  find_first_not_of whitespace s = Some i ->
  exists j, find_last_not_of whitespace s = Some j /\ i <= j.
Proof.
  revert i. induction s as [|c s IH]; intros i H; [discriminate |].
  cbn [find_first_not_of find_last_not_of] in *.
  destruct (mem c whitespace) eqn:M.
  - destruct (find_first_not_of whitespace s) as [k|]; [| discriminate].
    injection H as <-. destruct (IH k eq_refl) as (j & -> & Hj).
    exists (S j). split; [reflexivity | lia].
  - injection H as <-. destruct (find_last_not_of whitespace s) as [j|].
    + exists (S j). split; [reflexivity | lia].
    + exists 0. split; [reflexivity | lia].
Qed.

Lemma find_first_none_strip (s : string) :
  find_first_not_of whitespace s = None -> strip_leading s = "".
Proof.
  induction s as [|c s IH]; [reflexivity |].
  cbn [find_first_not_of strip_leading].
  rewrite whitespace_is_space. destruct (is_space c); [| discriminate].
  destruct (find_first_not_of whitespace s); [discriminate | auto].
Qed.

(** [ContactDialog::trim] strips leading and trailing whitespace. *)
Lemma trim_strip (s : string) : trim s = strip s.
Proof.
  unfold strip. induction s as [|c s IH]; [reflexivity |].
  unfold trim. cbn [empty].
  cbn [find_first_not_of find_last_not_of strip_leading].
  rewrite whitespace_is_space.
  destruct (is_space c) eqn:Sp.
  - destruct (find_first_not_of whitespace s) as [i|] eqn:F; cbn [option_map].
    + destruct (find_first_some_last_some _ _ F) as (j & L & Hij). rewrite L.
      rewrite <- IH. unfold trim. rewrite F, L.
      destruct s; [discriminate |]. cbn [empty]. reflexivity.
    + now rewrite find_first_none_strip.
  - rewrite strip_trailing_prefix. unfold kept. cbn [find_last_not_of].
    rewrite whitespace_is_space, Sp.
    destruct (find_last_not_of whitespace s) as [j|];
      rewrite Nat.sub_0_r, Nat.add_1_r; reflexivity.
Qed.

(** The dialog's name test, in the words of the specification. *)
Lemma validateNames_strip (first last : string) :
  validateNames first last = true <-> strip first <> "" \/ strip last <> "".
Proof.
  unfold validateNames. rewrite !trim_strip.
  destruct (strip first), (strip last); simpl; split; intro H;
    try reflexivity; try discriminate;
    try (left; discriminate); try (right; discriminate).
  destruct H; congruence.
Qed.

End ValidationFacts.

(** ** ORDER BY returns the rows, in order *)

Module OrderFacts.
Import Store.

Section Placing.

Variable leb : Contact -> Contact -> bool.

(** Of two rows, one comes before the other. *)
Hypothesis leb_total : forall a b, leb a b = false -> leb b a = true.

Lemma place_perm (x : Contact) (l : list Contact) :
  Permutation (place leb x l) (x :: l).
Proof.
  induction l as [|y l IH]; simpl; [reflexivity |].
  destruct (leb x y); [reflexivity |].
  rewrite IH. apply perm_swap.
Qed.

Lemma order_by_perm (l : list Contact) : Permutation (order_by leb l) l.
Proof.
  unfold order_by. induction l as [|x l IH]; simpl; [reflexivity |].
  rewrite place_perm. now constructor.
Qed.

Lemma place_hd (x a : Contact) (l : list Contact) :
  in_order leb a x -> HdRel (in_order leb) a l ->
  HdRel (in_order leb) a (place leb x l).
Proof.
  intros Hax H. destruct l as [|y l]; simpl; [now constructor |].
  destruct (leb x y); constructor; [assumption | now inversion H].
Qed.

Lemma place_sorted (x : Contact) (l : list Contact) :
  Sorted (in_order leb) l -> Sorted (in_order leb) (place leb x l).
Proof.
  induction l as [|y l IH]; simpl; intro H.
  - repeat constructor.
  - destruct (leb x y) eqn:E.
    + constructor; [assumption | now constructor].
    + inversion H as [|? ? Hs Hh]; subst.
      constructor; [now apply IH |].
      apply place_hd; [now apply leb_total | assumption].
Qed.

Lemma order_by_sorted (l : list Contact) : Sorted (in_order leb) (order_by leb l).
Proof.
  unfold order_by. induction l as [|x l IH]; simpl; [constructor |].
  now apply place_sorted.
Qed.

End Placing.

Lemma compare_names_antisym (w : string -> string) (a b : Contact) :
  compare_names w a b = CompOpp (compare_names w b a).
Proof.
  unfold compare_names, compare_text.
  rewrite (String.compare_antisym (w (last_name a)) (w (last_name b))).
  rewrite (String.compare_antisym (w (first_name a)) (w (first_name b))).
  destruct (String.compare (w (last_name b)) (w (last_name a))); reflexivity.
Qed.

Lemma ascending_total (cmp : Contact -> Contact -> comparison) :
  (forall a b, cmp a b = CompOpp (cmp b a)) ->
  forall a b, ascending cmp a b = false -> ascending cmp b a = true.
Proof.
  intros A a b. unfold ascending. rewrite (A a b).
  destruct (cmp b a); simpl; congruence.
Qed.

End OrderFacts.

(** ** The repository *)

Module DBFacts.
Import Text Validation Store Effects Driver DB TextFacts ValidationFacts.
Local Open Scope op_scope.

(** Runs the monadic plumbing and the connector calls as far as the state
    at hand decides them. *)
Ltac run_ops :=
  cbv beta iota zeta delta
    [try_catch_sql bind ret throw get_conn put_conn print_cout print_cerr
     ensure_connection prepareStatement transmit isValid setAutoCommit commit
     rollback query_select_1 update_insert update_update update_delete
     query_by_id query_all query_like query_order_by query_count
     conn_ cout cerr link strict_mode found_rows weight like rows txn next_id
     getAutoCommit with_link with_rows with_txn with_next_id negb fst snd].

(** Opens a world into its fields and settles the state of its link. *)
Ltac open_world w :=
  destruct w as [[? ? ? ? ? ? ? ?] ? ?];
  cbn [conn_ cout cerr link strict_mode found_rows weight like rows txn next_id] in *;
  subst.

Lemma names_present_guard (first last : string) :
  names_present first last = true -> empty first && empty last = false.
Proof. unfold names_present. intro H. now apply negb_true_iff in H. Qed.

Lemma validateEmail_guard (email : string) :
  validateEmail email = true ->
  negb (empty email) && negb (is_valid_email email) = false.
Proof. unfold validateEmail. intro H. now apply negb_true_iff in H. Qed.

Lemma filter_absent (i : Z) (c : Connection) :
  absent i c -> filter (has_id i) (rows c) = [].
Proof.
  unfold absent. induction (rows c) as [|r rs IH]; intro H; simpl; [reflexivity |].
  unfold has_id at 1. destruct (Z.eqb_spec (id r) i) as [E|E].
  - exfalso. apply (H r); [now left | exact E].
  - apply IH. intros r' Hr'. apply H. now right.
Qed.

Lemma filter_none_absent (i : Z) (rs : list Contact) :
  filter (has_id i) rs = [] -> filter (other_id i) rs = rs.
Proof.
  unfold other_id. induction rs as [|r rs IH]; simpl; [reflexivity |].
  destruct (has_id i r); simpl; [discriminate | intro H; now rewrite IH].
Qed.

(** *** The allowlist of sort columns *)

Lemma find_string_In (v : string) (l : list string) :
  find_string v l = true <-> In v l.
Proof.
  induction l as [|x l IH]; simpl.
  - split; [discriminate | tauto].
  - destruct (String.eqb_spec x v) as [E|E].
    + split; [now left | reflexivity].
    + rewrite IH. split; [now right | intros [H|H]; [contradiction | exact H]].
Qed.

Lemma sanitize_column_name_member (s : string) :
  In (sanitize_column_name s) valid_columns.
Proof.
  unfold sanitize_column_name.
  destruct (find_string s valid_columns) eqn:F.
  - now apply find_string_In.
  - unfold valid_columns. simpl. tauto.
Qed.

(** C2. [sanitize_column_name] maps every string into the allowlist
    [id, first_name, last_name, email, mobile]: a member is returned as it
    is, anything else, an injection payload included, becomes
    ["last_name"]. *)
Theorem sanitize_column_name_allowlist :
  forall s : string,
    In (sanitize_column_name s)
       ["id"; "first_name"; "last_name"; "email"; "mobile"] /\
    (In s ["id"; "first_name"; "last_name"; "email"; "mobile"] ->
     sanitize_column_name s = s) /\
    (~ In s ["id"; "first_name"; "last_name"; "email"; "mobile"] ->
     sanitize_column_name s = "last_name") /\
    sanitize_column_name "email; DROP TABLE x" = "last_name".
Proof.
  intro s.
  change ["id"; "first_name"; "last_name"; "email"; "mobile"] with valid_columns.
  split; [apply sanitize_column_name_member |].
  unfold sanitize_column_name.
  destruct (find_string s valid_columns) eqn:F.
  - apply find_string_In in F. repeat split; auto. intro N. contradiction.
  - repeat split; auto.
    intro I. apply find_string_In in I. congruence.
Qed.

(** Whatever is asked for, the ORDER BY column of the statement the
    repository prepares is one the store knows. *)
Lemma sorted_column_known (w : string -> string) (s : string) :
  compare_column w (sanitize_column_name s) <> None.
Proof.
  pose proof (sanitize_column_name_member s) as H.
  unfold valid_columns in H. simpl in H.
  destruct H as [<-|[<-|[<-|[<-|[<-|[]]]]]]; discriminate.
Qed.

(** *** The connectivity probe *)

(** C6, as the code has it. [test_connection] returns [true] when the
    liveness check and the [SELECT 1] exchange succeed, and [false] when the
    connector raises after the liveness check has passed.  When the
    liveness check itself finds the connection lost, [ensure_connection]
    raises [DBException], which the handler for [sql::SQLException] does not
    catch: the probe raises instead of answering [false].  The table is
    the same afterwards in every case. *)
Theorem test_connection_outcomes :
  forall w : World,
    (link (conn_ w) = Healthy -> test_connection w = (Returned true, w)) /\
    (link (conn_ w) = DropsAfter 0 ->
     test_connection w = (Thrown (DBException "Database connection lost"), w)) /\
    (forall n : nat,
       link (conn_ w) = DropsAfter (S n) ->
       fst (test_connection w) = Returned (2 <=? n)%nat /\
       rows (conn_ (snd (test_connection w))) = rows (conn_ w)).
Proof.
  intro w. unfold test_connection. repeat split.
  - intro H. open_world w. reflexivity.
  - intro H. open_world w. reflexivity.
  - open_world w. destruct n as [|[|[|n]]]; reflexivity.
  - open_world w. destruct n as [|[|[|n]]]; reflexivity.
Qed.

(** C6 as stated fails: on a connection that is already lost the probe
    raises [DBException] instead of returning [false]. *)
Lemma test_connection_raises_when_lost :
  test_connection (world (connection (DropsAfter 0) true [] 1))
  = (Thrown (DBException "Database connection lost"),
     world (connection (DropsAfter 0) true [] 1)).
Proof. reflexivity. Qed.

(** *** Reading one contact *)

(** C7, as the code has it. On a healthy connection a lookup of an id
    that no row has returns [nullopt], and a lookup of a stored id returns
    the row.  A connection found lost by the liveness check raises
    [DBException].  A fault of the connector during the query (here: the link
    dropping after the liveness check) is caught, written to [cerr], and
    returned as the same [nullopt] as a negative lookup. *)
Theorem get_contact_by_id_outcomes :
  forall (w : World) (i : Z),
    (link (conn_ w) = Healthy -> absent i (conn_ w) ->
     get_contact_by_id i w = (Returned None, w)) /\
    (link (conn_ w) = Healthy ->
     forall r rest, filter (has_id i) (rows (conn_ w)) = r :: rest ->
     get_contact_by_id i w = (Returned (Some (fetch r)), w)) /\
    (link (conn_ w) = DropsAfter 0 ->
     get_contact_by_id i w
     = (Thrown (DBException "Database connection lost"), w)) /\
    (forall n : nat,
       link (conn_ w) = DropsAfter (S n) -> (n < 2)%nat ->
       fst (get_contact_by_id i w) = Returned None /\
       cerr (snd (get_contact_by_id i w))
       = List.app (cerr w) ["Query error: " ++ lost ++ newline] /\
       rows (conn_ (snd (get_contact_by_id i w))) = rows (conn_ w)).
Proof.
  intros w i. unfold get_contact_by_id. repeat split.
  - intros H A. apply filter_absent in A. open_world w. run_ops.
    now rewrite A.
  - intros H r rest E. open_world w. run_ops. now rewrite E.
  - intro H. open_world w. reflexivity.
  - open_world w. destruct n as [|[|n]]; [reflexivity | reflexivity | lia].
  - open_world w. destruct n as [|[|n]]; [reflexivity | reflexivity | lia].
  - open_world w. destruct n as [|[|n]]; [reflexivity | reflexivity | lia].
Qed.

(** C7 as stated fails: with contact 1 stored, a link that drops right
    after the liveness check makes the lookup of id 1 return [nullopt], which
    is also what the lookup of the missing id 2 returns on a healthy link. *)
Lemma get_contact_by_id_fault_is_absent :
  let ada := mkContact 1 "Ada" "Lovelace" "ada@example.com" "+44123" in
  fst (get_contact_by_id 1 (world (connection (DropsAfter 1) true [ada] 2)))
  = Returned None /\
  fst (get_contact_by_id 2 (world (connection Healthy true [ada] 2)))
  = Returned None /\
  fst (get_contact_by_id 1 (world (connection Healthy true [ada] 2)))
  = Returned (Some ada).
Proof. repeat split; reflexivity. Qed.

(** *** Writes that match no row *)

(** C5. For an id that no row has, [update_contact] with valid fields
    and [delete_contact] both raise the "Contact not found" [DBException] on
    a healthy connection, and leave the store exactly as it was; whatever
    the state of the link, the table is the same after the call. *)
Theorem update_delete_absent_id :
  forall (w : World) (i : Z) (first last email mobile : string),
    absent i (conn_ w) ->
    names_present first last = true ->
    validateEmail email = true ->
    (link (conn_ w) = Healthy ->
     update_contact i first last email mobile w = (Thrown (not_found i), w) /\
     delete_contact i w = (Thrown (not_found i), w)) /\
    rows (conn_ (snd (update_contact i first last email mobile w)))
    = rows (conn_ w) /\
    rows (conn_ (snd (delete_contact i w))) = rows (conn_ w).
Proof.
  intros w i first last email mobile A N E.
  apply filter_absent in A.
  pose proof (filter_none_absent _ _ A) as A'.
  unfold update_contact, delete_contact, not_found.
  rewrite (names_present_guard _ _ N), (validateEmail_guard _ E).
  destruct w as [[l st fr wt lk rs tx nx] o e].
  cbn [conn_ rows link] in *.
  split; [intro H; subst l; split | split].
  - run_ops. now rewrite A.
  - run_ops. rewrite A, A'. reflexivity.
  - destruct l as [|[|[|[|n]]]]; run_ops; try reflexivity; now rewrite A.
  - destruct l as [|[|[|[|n]]]]; run_ops; try reflexivity; now rewrite A, A'.
Qed.

Lemma update_delete_absent_id_witness :
  let w := world (connection Healthy true
                    [mkContact 1 "Ada" "Lovelace" "ada@example.com" "+44123"] 2) in
  (update_contact 7 "Grace" "Hopper" "" "" w = (Thrown (not_found 7), w) /\
   delete_contact 7 w = (Thrown (not_found 7), w)) /\
  rows (conn_ (snd (update_contact 7 "Grace" "Hopper" "" "" w))) = rows (conn_ w) /\
  rows (conn_ (snd (delete_contact 7 w))) = rows (conn_ w).
Proof.
  intro w.
  assert (A : absent 7 (conn_ w)).
  { intros r [<-|[]]. simpl. lia. }
  destruct (update_delete_absent_id w 7 "Grace" "Hopper" "" "" A eq_refl eq_refl)
    as [H1 H2].
  split; [apply H1; reflexivity | exact H2].
Defined.

(** *** Bulk import *)

Lemma store_row_accepts (strict : bool) (i : Z) (f l e m : string) :
  store_row strict i f l e m = None <-> accepts strict f l e m = false.
Proof.
  unfold accepts, store_row.
  destruct (store_varchar strict 100 f), (store_varchar strict 100 l),
    (store_varchar strict 255 e), (store_varchar strict 50 m);
    split; intro H; congruence.
Qed.

Lemma staged_refused (strict : bool) (cs : list Contact) :
  forall next : Z,
    (exists c, In c cs /\
               accepts strict (first_name c) (last_name c) (email c) (mobile c)
               = false) ->
    staged strict next cs = None.
Proof.
  induction cs as [|c cs IH]; intros next (x & I & R); [destruct I |].
  cbn [staged].
  destruct (store_row strict next (first_name c) (last_name c) (email c) (mobile c))
    as [row|] eqn:S; [| reflexivity].
  destruct I as [<-|I].
  - apply (store_row_accepts strict next) in R. congruence.
  - destruct (INT_MAX <? next)%Z; [reflexivity |].
    rewrite (IH (next + 1)%Z); [reflexivity | now exists x].
Qed.

Lemma staged_length (strict : bool) (cs : list Contact) :
  forall (next : Z) (added : list Contact),
    staged strict next cs = Some added -> length added = length cs.
Proof.
  induction cs as [|c cs IH]; intros next added H; cbn [staged] in H.
  - now injection H as <-.
  - destruct (store_row strict next _ _ _ _); [| discriminate].
    destruct (INT_MAX <? next)%Z; [discriminate |].
    destruct (staged strict (next + 1) cs) as [more|] eqn:S; [| discriminate].
    injection H as <-. simpl. now rewrite (IH _ _ S).
Qed.

(** The loop on a healthy link: it adds the staged rows, or stops at the
    first refused statement with the transaction still open. *)
Lemma import_loop_run (cs : list Contact) :
  forall st fr wt lk rs tx nx o e,
    match staged st nx cs with
    | Some added =>
        import_loop cs (mkWorld (mkConnection Healthy st fr wt lk rs tx nx) o e)
        = (Returned tt,
           mkWorld (mkConnection Healthy st fr wt lk (rs ++ added)%list tx
                                 (nx + Z.of_nat (length cs))) o e)
    | None =>
        exists what rs' nx',
          import_loop cs (mkWorld (mkConnection Healthy st fr wt lk rs tx nx) o e)
          = (Thrown (SQLException what),
             mkWorld (mkConnection Healthy st fr wt lk rs' tx nx') o e)
    end.
Proof.
  induction cs as [|c cs IH]; intros st fr wt lk rs tx nx o e.
  - cbn [staged import_loop length Z.of_nat]. unfold ret.
    now rewrite app_nil_r, Z.add_0_r.
  - cbn [staged import_loop]. run_ops.
    destruct (store_row st nx (first_name c) (last_name c) (email c) (mobile c))
      as [row|].
    + destruct (INT_MAX <? nx)%Z.
      * now exists "Out of range value for column 'id'", rs, nx.
      * specialize (IH st fr wt lk (rs ++ [row])%list tx (nx + 1)%Z o e).
        destruct (staged st (nx + 1) cs) as [more|].
        -- rewrite IH. rewrite <- app_assoc. cbn [length].
           rewrite Nat2Z.inj_succ.
           replace (nx + 1 + Z.of_nat (length cs))%Z
             with (nx + Z.succ (Z.of_nat (length cs)))%Z by lia.
           reflexivity.
        -- destruct IH as (what & rs' & nx' & ->). now exists what, rs', nx'.
    + now exists "Data too long for column", rs, nx.
Qed.

Lemma attempts_staged (strict : bool) (cs : list Contact) :
  forall (next : Z) (added : list Contact),
    staged strict next cs = Some added -> attempts strict next cs = length cs.
Proof.
  induction cs as [|c cs IH]; intros next added H; [reflexivity |].
  cbn [staged attempts length] in *.
  destruct (store_row strict next _ _ _ _); [| discriminate].
  destruct (INT_MAX <? next)%Z; [discriminate |].
  destruct (staged strict (next + 1) cs) as [more|] eqn:S; [| discriminate].
  now rewrite (IH _ _ S).
Qed.

(** The loop on a link that carries [m] more exchanges.  When that is
    enough for its statements it ends as on a healthy link, with the link
    that much nearer to its end; otherwise the statement that finds the
    link dead raises what the connector says of a lost connection. *)
Lemma import_loop_drops (cs : list Contact) :
  forall m st fr wt lk rs tx nx o e,
    (attempts st nx cs <= m ->
     match staged st nx cs with
     | Some added =>
         import_loop cs (mkWorld (mkConnection (DropsAfter m) st fr wt lk rs tx nx) o e)
         = (Returned tt,
            mkWorld (mkConnection (DropsAfter (m - attempts st nx cs)) st fr wt lk
                                  (rs ++ added)%list tx
                                  (nx + Z.of_nat (length cs))) o e)
     | None =>
         exists what rs' nx',
           import_loop cs (mkWorld (mkConnection (DropsAfter m) st fr wt lk rs tx nx) o e)
           = (Thrown (SQLException what),
              mkWorld (mkConnection (DropsAfter (m - attempts st nx cs)) st fr wt lk
                                    rs' tx nx') o e)
     end) /\
    (m < attempts st nx cs ->
     exists rs' nx',
       import_loop cs (mkWorld (mkConnection (DropsAfter m) st fr wt lk rs tx nx) o e)
       = (Thrown (SQLException lost),
          mkWorld (mkConnection (DropsAfter 0) st fr wt lk rs' tx nx') o e)).
Proof.
  induction cs as [|c cs IH]; intros m st fr wt lk rs tx nx o e.
  - cbn [staged import_loop attempts length Z.of_nat]. unfold ret.
    rewrite app_nil_r, Z.add_0_r, Nat.sub_0_r. split; [reflexivity | lia].
  - cbn [staged import_loop attempts]. destruct m as [|m].
    + run_ops. split; [| now exists rs, nx].
      destruct (store_row st nx _ _ _ _); [| lia].
      destruct (INT_MAX <? nx)%Z; lia.
    + run_ops.
      destruct (store_row st nx (first_name c) (last_name c) (email c) (mobile c))
        as [row|].
      * destruct (INT_MAX <? nx)%Z.
        -- cbn [Nat.sub]. rewrite Nat.sub_0_r.
           split; [| lia]. intros _.
           now exists "Out of range value for column 'id'", rs, nx.
        -- destruct (IH m st fr wt lk (rs ++ [row])%list tx (nx + 1)%Z o e)
             as [Enough Short].
           cbn [Nat.sub]. split.
           ++ intro B. assert (B' : attempts st (nx + 1) cs <= m) by lia.
              specialize (Enough B').
              destruct (staged st (nx + 1) cs) as [more|].
              ** rewrite Enough. rewrite <- app_assoc. cbn [length].
                 rewrite Nat2Z.inj_succ.
                 replace (nx + 1 + Z.of_nat (length cs))%Z
                   with (nx + Z.succ (Z.of_nat (length cs)))%Z by lia.
                 reflexivity.
              ** destruct Enough as (what & rs' & nx' & ->).
                 now exists what, rs', nx'.
           ++ intro B. assert (B' : m < attempts st (nx + 1) cs) by lia.
              destruct (Short B') as (rs' & nx' & ->). now exists rs', nx'.
      * cbn [Nat.sub]. rewrite Nat.sub_0_r. split; [| lia]. intros _.
        now exists "Data too long for column", rs, nx.
Qed.

(** C1, as the code has it, in every state of the link.  Auto-commit
    is taken to be on when the call is made on a link that is not dead, as
    it is in every state of a [DB] object ([reachable_working] below).

    On a link that carries every exchange of the call, a healthy one in
    particular, [import_contacts] returns a boolean for every sequence of
    records and does not raise.  It returns [false] exactly when one of its
    inserts is refused, in particular whenever some record violates a column
    constraint, and the table is then what it was before the call; it
    returns [true] otherwise, with every record added.  Auto-commit is on
    again in both cases.

    On a connection that the liveness check finds lost, it raises
    [DBException] and touches nothing.

    On a link that passes the liveness check and drops before the last
    exchange of the call, the statement that finds the link dead raises
    [sql::SQLException], and so does the [rollback] of the handler that
    catches it, or its [setAutoCommit(true)]: that exception leaves
    [import_contacts], nothing is written to [cout] or [cerr], and
    auto-commit is left off unless the link dropped before it was switched
    off. *)
Theorem import_contacts_all_or_nothing :
  forall (w : World) (cs : list Contact),
    (getAutoCommit (conn_ w) = true ->
     carries (link (conn_ w))
             (exchanges (strict_mode (conn_ w)) (next_id (conn_ w)) cs) = true ->
     exists (b : bool) (w' : World),
       import_contacts cs w = (Returned b, w') /\
       getAutoCommit (conn_ w') = true /\
       (b = false <->
        staged (strict_mode (conn_ w)) (next_id (conn_ w)) cs = None) /\
       ((exists c, In c cs /\
                   accepts (strict_mode (conn_ w)) (first_name c) (last_name c)
                           (email c) (mobile c) = false) ->
        b = false) /\
       (b = false -> rows (conn_ w') = rows (conn_ w)) /\
       (b = true ->
        exists added,
          staged (strict_mode (conn_ w)) (next_id (conn_ w)) cs = Some added /\
          length added = length cs /\
          rows (conn_ w') = (rows (conn_ w) ++ added)%list)) /\
    (link (conn_ w) = DropsAfter 0 ->
     import_contacts cs w = (Thrown connection_lost, w)) /\
    (forall n : nat,
       getAutoCommit (conn_ w) = true ->
       link (conn_ w) = DropsAfter (S n) ->
       (S n < exchanges (strict_mode (conn_ w)) (next_id (conn_ w)) cs)%nat ->
       exists w' : World,
         import_contacts cs w = (Thrown (SQLException lost), w') /\
         link (conn_ w') = DropsAfter 0 /\
         cout w' = cout w /\ cerr w' = cerr w /\
         (n = 0%nat -> conn_ w' = with_link (DropsAfter 0) (conn_ w)) /\
         ((1 <= n)%nat -> getAutoCommit (conn_ w') = false)).
Proof.
  intros w cs.
  destruct w as [[l st fr wt lk rs tx nx] o e].
  cbn [conn_ link getAutoCommit txn strict_mode next_id rows cout cerr] in *.
  pose proof (staged_refused st cs nx) as R.
  split; [| split].
  - intros HA C. destruct tx; [discriminate |]. destruct l as [|k].
    + pose proof (import_loop_run cs st fr wt lk rs (Some rs) nx o e) as L.
      unfold import_contacts. run_ops.
      destruct (staged st nx cs) as [added|] eqn:S.
      * rewrite L. eexists true, _. split; [reflexivity |].
        cbn [conn_ txn rows]. repeat split; try discriminate.
        -- intro H. specialize (R H). discriminate.
        -- intros _. exists added. repeat split.
           now apply staged_length with (strict := st) (next := nx).
      * destruct L as (what & rs' & nx' & ->). eexists false, _.
        split; [reflexivity |].
        cbn [conn_ txn rows]. repeat split; try discriminate; reflexivity.
    + unfold carries, exchanges in C. apply Nat.leb_le in C.
      destruct k as [|[|[|m]]]; try lia.
      destruct (import_loop_drops cs m st fr wt lk rs (Some rs) nx o e)
        as [L _].
      assert (B : attempts st nx cs <= m) by lia. specialize (L B).
      unfold import_contacts. run_ops.
      destruct (staged st nx cs) as [added|] eqn:S.
      * rewrite L.
        destruct (m - attempts st nx cs) as [|[|r]] eqn:Left; try lia.
        eexists true, _. split; [reflexivity |].
        cbn [conn_ txn rows]. repeat split; try discriminate.
        -- intro H. specialize (R H). discriminate.
        -- intros _. exists added. repeat split.
           now apply staged_length with (strict := st) (next := nx).
      * destruct L as (what & rs' & nx' & ->).
        destruct (m - attempts st nx cs) as [|[|r]] eqn:Left; try lia.
        eexists false, _. split; [reflexivity |].
        cbn [conn_ txn rows]. repeat split; try discriminate; reflexivity.
  - intro HL. subst l. reflexivity.
  - intros n HA HL B. destruct tx; [discriminate |].
    subst l. unfold exchanges in B.
    unfold import_contacts.
    destruct n as [|[|m]].
    + run_ops. eexists. split; [reflexivity |].
      cbn [conn_ link cout cerr txn]. repeat split. lia.
    + run_ops. eexists. split; [reflexivity |].
      cbn [conn_ link cout cerr txn]. repeat split. lia.
    + destruct (import_loop_drops cs m st fr wt lk rs (Some rs) nx o e)
        as [Enough Short].
      run_ops.
      destruct (Nat.le_gt_cases (attempts st nx cs) m) as [Le|Gt].
      * specialize (Enough Le).
        destruct (staged st nx cs) as [added|].
        -- rewrite Enough.
           destruct (m - attempts st nx cs) as [|[|r]] eqn:Left; try lia;
             (eexists; split; [reflexivity |]);
             cbn [conn_ link cout cerr txn]; repeat split; lia.
        -- destruct Enough as (what & rs' & nx' & ->).
           destruct (m - attempts st nx cs) as [|[|r]] eqn:Left; try lia;
             (eexists; split; [reflexivity |]);
             cbn [conn_ link cout cerr txn]; repeat split; lia.
      * destruct (Short Gt) as (rs' & nx' & ->).
        eexists. split; [reflexivity |].
        cbn [conn_ link cout cerr txn]. repeat split. lia.
Qed.

Lemma import_contacts_all_or_nothing_witness :
  let w := world (connection (DropsAfter 7) true
                    [mkContact 1 "Ada" "Lovelace" "ada@example.com" "+44123"] 2) in
  let cs := [mkContact 0 "Grace" "Hopper" "" "";
             mkContact 0 (replicate 101 "x") "" "" ""] in
  getAutoCommit (conn_ w) = true /\
  carries (link (conn_ w))
          (exchanges (strict_mode (conn_ w)) (next_id (conn_ w)) cs) = true /\
  exists (b : bool) (w' : World),
    import_contacts cs w = (Returned b, w') /\
    getAutoCommit (conn_ w') = true /\
    (b = false <->
     staged (strict_mode (conn_ w)) (next_id (conn_ w)) cs = None) /\
    ((exists c, In c cs /\
                accepts (strict_mode (conn_ w)) (first_name c) (last_name c)
                        (email c) (mobile c) = false) ->
     b = false) /\
    (b = false -> rows (conn_ w') = rows (conn_ w)) /\
    (b = true ->
     exists added,
       staged (strict_mode (conn_ w)) (next_id (conn_ w)) cs = Some added /\
       length added = length cs /\
       rows (conn_ w') = (rows (conn_ w) ++ added)%list).
Proof.
  intros w cs. split; [reflexivity |]. split; [reflexivity |].
  destruct (import_contacts_all_or_nothing w cs) as [H _].
  apply H; reflexivity.
Defined.

(** The atomicity property of the specification, on its own example:
    valid records followed by one the store refuses. *)
Lemma import_contacts_rolls_back :
  let ada := mkContact 1 "Ada" "Lovelace" "ada@example.com" "+44123" in
  let w := world (connection Healthy true [ada] 2) in
  let cs := [mkContact 0 "Grace" "Hopper" "" "";
             mkContact 0 "Alan" "Turing" "" "";
             mkContact 0 (replicate 101 "x") "" "" ""] in
  fst (import_contacts cs w) = Returned false /\
  rows (conn_ (snd (import_contacts cs w))) = [ada] /\
  getAutoCommit (conn_ (snd (import_contacts cs w))) = true.
Proof. repeat split; reflexivity. Qed.

(** C1 as stated fails, in two ways.  When the connection is already
    lost the import does not report failure by returning [false]: the
    [DBException] of the liveness check goes past the handler.  When the
    link drops between two inserts, the [rollback] of the handler raises
    in its turn: [sql::SQLException] leaves [import_contacts], and
    auto-commit is not restored. *)
Lemma import_contacts_raises_when_lost :
  import_contacts [mkContact 0 "Grace" "Hopper" "" ""]
                  (world (connection (DropsAfter 0) true [] 1))
  = (Thrown connection_lost, world (connection (DropsAfter 0) true [] 1)) /\
  (let cs := [mkContact 0 "Grace" "Hopper" "" "";
              mkContact 0 "Alan" "Turing" "" ""] in
   let w := world (connection (DropsAfter 4) true [] 1) in
   getAutoCommit (conn_ w) = true /\
   fst (import_contacts cs w) = Thrown (SQLException lost) /\
   getAutoCommit (conn_ (snd (import_contacts cs w))) = false).
Proof. repeat split; reflexivity. Qed.

(** C10. On a live connection, importing the empty sequence returns
    [true]; no row is added or changed, the [AUTO_INCREMENT] counter stays
    where it was, and after a call made with auto-commit on the connection
    is in the state it was in. *)
Theorem import_contacts_empty :
  forall w : World,
    link (conn_ w) = Healthy ->
    fst (import_contacts [] w) = Returned true /\
    rows (conn_ (snd (import_contacts [] w))) = rows (conn_ w) /\
    next_id (conn_ (snd (import_contacts [] w))) = next_id (conn_ w) /\
    (getAutoCommit (conn_ w) = true ->
     conn_ (snd (import_contacts [] w)) = conn_ w).
Proof.
  intros w HL. destruct w as [[l st fr wt lk rs tx nx] o e].
  cbn [conn_ link] in HL. subst l.
  unfold import_contacts. cbn [import_loop].
  destruct tx as [snap|]; run_ops; repeat split; try reflexivity.
  cbn [getAutoCommit txn]. discriminate.
Qed.

Lemma import_contacts_empty_witness :
  let w := world (connection Healthy true
                    [mkContact 1 "Ada" "Lovelace" "ada@example.com" "+44123"] 2) in
  fst (import_contacts [] w) = Returned true /\
  rows (conn_ (snd (import_contacts [] w))) = rows (conn_ w) /\
  next_id (conn_ (snd (import_contacts [] w))) = next_id (conn_ w) /\
  (getAutoCommit (conn_ w) = true ->
   conn_ (snd (import_contacts [] w)) = conn_ w).
Proof.
  intro w. apply (import_contacts_empty w). reflexivity.
Defined.

(** *** Listing and searching *)

Lemma fetch_nul_free (r : Contact) : nul_free_row r = true -> fetch r = r.
Proof.
  destruct r as [i f l e m]. unfold nul_free_row, fetch. cbn [id first_name last_name email mobile].
  rewrite !andb_true_iff. intros [[[Hf Hl] He] Hm].
  now rewrite !c_str_nul_free.
Qed.

Lemma map_fetch_nul_free (l : list Contact) :
  forallb nul_free_row l = true -> map fetch l = l.
Proof.
  induction l as [|r l IH]; simpl; [reflexivity |].
  rewrite andb_true_iff. intros [Hr Hl]. now rewrite fetch_nul_free, IH.
Qed.

Lemma forallb_perm (p : Contact -> bool) (l l' : list Contact) :
  Permutation l l' -> forallb p l' = true -> forallb p l = true.
Proof.
  intros P H. rewrite forallb_forall in *. intros x I.
  apply H. now apply (Permutation_in x P).
Qed.

(** *** Insert, then read back *)

Lemma store_row_fits (strict : bool) (i : Z) (f l e m : string) :
  fits f l e m = true ->
  store_row strict i f l e m = Some (mkContact i f l e m).
Proof.
  unfold fits, store_row, store_varchar. rewrite !andb_true_iff.
  intros [[[Hf Hl] He] Hm]. now rewrite Hf, Hl, He, Hm.
Qed.

Lemma filter_fresh (rs : list Contact) (nx : Z) (f l e m : string) :
  Forall (fun r => (id r < nx)%Z) rs ->
  filter (has_id nx) (rs ++ [mkContact nx f l e m])%list = [mkContact nx f l e m].
Proof.
  intro B. rewrite filter_app.
  assert (E : filter (has_id nx) rs = []).
  { induction B as [|r rs Hr _ IH]; simpl; [reflexivity |].
    unfold has_id at 1. destruct (Z.eqb_spec (id r) nx); [lia | exact IH]. }
  rewrite E. simpl. unfold has_id. cbn [id]. now rewrite Z.eqb_refl.
Qed.

(** C8, as the code has it. [insert_contact] returns nothing; the id
    of the new row is the store's next [AUTO_INCREMENT] value.  On a healthy
    connection with such a value left, for every valid input whose fields
    fit the columns and hold no NUL byte, the insert succeeds, adds exactly
    that row, and [get_contact_by_id] on its id then returns the contact
    with that id and the four fields as they were passed. *)
Theorem insert_then_get_by_id :
  forall (w : World) (f l e m : string),
    link (conn_ w) = Healthy ->
    ids_below_counter (conn_ w) ->
    (next_id (conn_ w) <= INT_MAX)%Z ->
    names_present f l = true ->
    validateEmail e = true ->
    fits f l e m = true ->
    nul_free_row (mkContact 0 f l e m) = true ->
    exists w1 : World,
      insert_contact f l e m w = (Returned tt, w1) /\
      rows (conn_ w1)
      = (rows (conn_ w) ++ [mkContact (next_id (conn_ w)) f l e m])%list /\
      get_contact_by_id (next_id (conn_ w)) w1
      = (Returned (Some (mkContact (next_id (conn_ w)) f l e m)), w1).
Proof.
  intros w f l e m HL HB HI HN HE HF HZ.
  destruct w as [[lk st fr wt li rs tx nx] o er].
  unfold ids_below_counter in HB.
  cbn [conn_ link rows next_id] in *. subst lk.
  apply Z.ltb_ge in HI.
  unfold insert_contact.
  rewrite (names_present_guard _ _ HN), (validateEmail_guard _ HE).
  run_ops. rewrite (store_row_fits st nx _ _ _ _ HF), HI.
  eexists. split; [reflexivity |]. cbn [conn_ rows].
  split; [reflexivity |].
  unfold get_contact_by_id. run_ops. rewrite (filter_fresh _ _ _ _ _ _ HB).
  rewrite (fetch_nul_free (mkContact nx f l e m)); [reflexivity | exact HZ].
Qed.

Lemma insert_then_get_by_id_witness :
  let w := world (connection Healthy true [] 1) in
  exists w1 : World,
    insert_contact "Ada" "Lovelace" "ada@example.com" "+44123" w
    = (Returned tt, w1) /\
    rows (conn_ w1)
    = (rows (conn_ w)
       ++ [mkContact (next_id (conn_ w)) "Ada" "Lovelace" "ada@example.com" "+44123"])%list /\
    get_contact_by_id (next_id (conn_ w)) w1
    = (Returned (Some (mkContact (next_id (conn_ w)) "Ada" "Lovelace"
                                 "ada@example.com" "+44123")), w1).
Proof.
  intro w.
  apply (insert_then_get_by_id w "Ada" "Lovelace" "ada@example.com" "+44123");
    try reflexivity.
  - constructor.
  - unfold INT_MAX. simpl. lia.
Defined.

(** C8 as stated fails on valid input.  A first name of 101 characters
    next to an empty email passes validation; a strict store refuses the
    insert, and a store that is not strict keeps 100 characters, which is
    what the read returns.  A name with a NUL byte is stored whole and read
    back cut at the NUL. *)
Lemma insert_then_get_by_id_differs :
  let long := replicate 101 "x" in
  let with_nul := String "A" (String NUL "da") in
  names_present long "" = true /\ validateEmail "" = true /\
  fst (insert_contact long "" "" "" (world (connection Healthy true [] 1)))
  = Thrown (DBException "Insert error: Data too long for column") /\
  fst ((insert_contact long "" "" "" ;; get_contact_by_id 1)
         (world (connection Healthy false [] 1)))
  = Returned (Some (mkContact 1 (replicate 100 "x") "" "" "")) /\
  fst ((insert_contact with_nul "" "" "" ;; get_contact_by_id 1)
         (world (connection Healthy true [] 1)))
  = Returned (Some (mkContact 1 "A" "" "" "")).
Proof. repeat split; vm_compute; reflexivity. Qed.

(** *** The name rule *)

Ltac run_ops_in H :=
  cbv beta iota zeta delta
    [try_catch_sql bind ret throw get_conn put_conn print_cout print_cerr
     ensure_connection prepareStatement transmit isValid setAutoCommit commit
     rollback query_select_1 update_insert update_update update_delete
     query_by_id query_all query_like query_order_by query_count
     conn_ cout cerr link strict_mode found_rows weight like rows txn next_id
     getAutoCommit with_link with_rows with_txn with_next_id negb fst snd] in H.

(** Case analysis on whatever a stuck [match] of [H] inspects. *)
Ltac split_match_in H :=
  first
    [ match type of H with
      | context [match ?x with _ => _ end] =>
          lazymatch x with
          | context [match _ with _ => _ end] => fail
          | _ => destruct x
          end
      end
    | match type of H with
      | context [Z.eqb ?a ?b] => destruct (Z.eqb a b)
      end ];
  run_ops_in H.

(** Past the name guard, nothing raises the exception of the name guard. *)
Lemma insert_past_name_guard (c : ascii) (s last email mobile : string) (w : World) :
  fst (insert_contact (String c s) last email mobile w) <> Thrown names_missing /\
  fst (insert_contact last (String c s) email mobile w) <> Thrown names_missing.
Proof.
  unfold insert_contact, names_missing.
  replace (empty last && empty (String c s)) with false
    by (destruct last; reflexivity).
  cbn [empty andb].
  destruct (negb (empty email) && negb (is_valid_email email));
    [split; discriminate |].
  destruct w as [[l st fr wt lk rs tx nx] o e].
  split; intro H; destruct l as [|[|[|[|n]]]]; run_ops_in H;
    repeat split_match_in H; cbn [fst String.append] in H; discriminate.
Qed.

Lemma update_past_name_guard (i : Z) (c : ascii) (s last email mobile : string)
  (w : World) :
  fst (update_contact i (String c s) last email mobile w) <> Thrown names_missing /\
  fst (update_contact i last (String c s) email mobile w) <> Thrown names_missing.
Proof.
  unfold update_contact, names_missing.
  replace (empty last && empty (String c s)) with false
    by (destruct last; reflexivity).
  cbn [empty andb].
  destruct (negb (empty email) && negb (is_valid_email email));
    [split; discriminate |].
  destruct w as [[l st fr wt lk rs tx nx] o e].
  split; intro H; destruct l as [|[|[|[|n]]]]; run_ops_in H;
    repeat split_match_in H; cbn [fst String.append] in H; discriminate.
Qed.

(** C4, as the code has it. The repository does not trim: both
    [insert_contact] and [update_contact] raise the name error exactly when
    the two names are the empty string, whatever the email, the mobile and
    the state of the connection, and never raise it for any other
    combination, whitespace-only names included.  Trimming belongs to the
    dialog, which strips both texts before it tests them and before it calls
    the repository: its test is passed exactly when at least one name is
    non-empty once leading and trailing whitespace is stripped. *)
Theorem name_rule_without_trimming :
  forall first last : string,
    (validateNames first last = true <->
     strip first <> "" \/ strip last <> "") /\
    (forall (email mobile : string) (w : World),
       fst (insert_contact first last email mobile w) = Thrown names_missing
       <-> first = "" /\ last = "") /\
    (forall (i : Z) (email mobile : string) (w : World),
       fst (update_contact i first last email mobile w) = Thrown names_missing
       <-> first = "" /\ last = "").
Proof.
  intros first last. split; [apply validateNames_strip | split].
  - intros email mobile w. split.
    + intro H. destruct first as [|c s].
      * destruct last as [|c s]; [now split |].
        now destruct (insert_past_name_guard c s "" email mobile w) as [_ N].
      * now destruct (insert_past_name_guard c s last email mobile w) as [N _].
    + intros [-> ->]. reflexivity.
  - intros i email mobile w. split.
    + intro H. destruct first as [|c s].
      * destruct last as [|c s]; [now split |].
        now destruct (update_past_name_guard i c s "" email mobile w) as [_ N].
      * now destruct (update_past_name_guard i c s last email mobile w) as [N _].
    + intros [-> ->]. reflexivity.
Qed.

(** C4 as stated fails: names made of whitespace only are empty once
    stripped, and the dialog refuses them, yet [insert_contact] stores them
    and [update_contact] writes them. *)
Lemma whitespace_names_are_written :
  let tab := String "009" "" in
  let ada := mkContact 1 "Ada" "Lovelace" "ada@example.com" "+44123" in
  strip " " = "" /\ strip tab = "" /\ validateNames " " tab = false /\
  fst (insert_contact " " tab "" "" (world (connection Healthy true [] 1)))
  = Returned tt /\
  rows (conn_ (snd (insert_contact " " tab "" ""
                      (world (connection Healthy true [] 1)))))
  = [mkContact 1 " " tab "" ""] /\
  fst (update_contact 1 " " tab "" "" (world (connection Healthy true [ada] 2)))
  = Returned tt /\
  rows (conn_ (snd (update_contact 1 " " tab "" ""
                      (world (connection Healthy true [ada] 2)))))
  = [mkContact 1 " " tab "" ""].
Proof. repeat split; reflexivity. Qed.

(** *** Sorted listing *)

(** On a healthy connection [get_contacts_sorted] always gets an answer
    from the store: the table ordered by the sanitized column, in the
    direction asked for. *)
Lemma get_contacts_sorted_runs (w : World) (column : string) (asc : bool) :
  link (conn_ w) = Healthy ->
  exists cmp,
    compare_column (weight (conn_ w)) (sanitize_column_name column) = Some cmp /\
    get_contacts_sorted column asc w
    = (Returned (map fetch (order_by (if asc then ascending cmp
                                      else descending cmp)
                                     (rows (conn_ w)))), w).
Proof.
  intro HL. destruct w as [[l st fr wt lk rs tx nx] o e].
  cbn [conn_ link weight rows] in *. subst l.
  destruct (compare_column wt (sanitize_column_name column)) as [cmp|] eqn:C;
    [| now destruct (sorted_column_known wt column)].
  exists cmp. split; [reflexivity |].
  unfold get_contacts_sorted. run_ops. rewrite C.
  destruct asc; reflexivity.
Qed.

(** *** Counting *)

(** On a healthy connection [get_contact_count] is the number of rows of
    the table, so a table that a call left as it was has the row count it
    had. *)
Lemma get_contact_count_healthy (w : World) :
  link (conn_ w) = Healthy ->
  get_contact_count w = (Returned (Z.of_nat (length (rows (conn_ w)))), w).
Proof.
  intro HL. destruct w as [[l st fr wt lk rs tx nx] o e].
  cbn [conn_ link rows] in *. subst l. reflexivity.
Qed.

(** *** The scenario of the specification, and a fault in mid-import *)

(** Insert one contact, count, search, delete, count, delete again. *)
Example end_to_end :
  let ada := mkContact 1 "Ada" "Lovelace" "ada@example.com" "+44123" in
  fst ((insert_contact "Ada" "Lovelace" "ada@example.com" "+44123" ;;
        n1 <- get_contact_count ;;
        found <- search_contacts "Lovelace" ;;
        delete_contact 1 ;;
        n2 <- get_contact_count ;;
        ret (n1, found, n2))
         (world (connection Healthy true [] 1)))
  = Returned (1%Z, [ada], 0%Z) /\
  fst ((insert_contact "Ada" "Lovelace" "ada@example.com" "+44123" ;;
        delete_contact 1 ;;
        delete_contact 1)
         (world (connection Healthy true [] 1)))
  = Thrown (not_found 1).
Proof. split; reflexivity. Qed.

(** When the link drops between two inserts the statement raises, and so
    does the [rollback] of the handler: the exception of the connector
    leaves [import_contacts], and auto-commit stays off on the dead link. *)
Example import_contacts_link_drops :
  let cs := [mkContact 0 "Grace" "Hopper" "" ""; mkContact 0 "Alan" "Turing" "" ""] in
  let w := world (connection (DropsAfter 4) true [] 1) in
  fst (import_contacts cs w) = Thrown (SQLException lost) /\
  getAutoCommit (conn_ (snd (import_contacts cs w))) = false /\
  link (conn_ (snd (import_contacts cs w))) = DropsAfter 0.
Proof. repeat split; reflexivity. Qed.

(** When the link carries the [commit] and drops at the
    [setAutoCommit(true)] that follows it, the records are committed and
    the call still ends in the exception of the connector. *)
Example import_contacts_drops_after_commit :
  let cs := [mkContact 0 "Grace" "Hopper" "" ""; mkContact 0 "Alan" "Turing" "" ""] in
  let w := world (connection (DropsAfter 6) true [] 1) in
  exchanges true 1 cs = 7%nat /\
  fst (import_contacts cs w) = Thrown (SQLException lost) /\
  txn (conn_ (snd (import_contacts cs w)))
  = Some [mkContact 1 "Grace" "Hopper" "" ""; mkContact 2 "Alan" "Turing" "" ""] /\
  fst (import_contacts cs (world (connection (DropsAfter 7) true [] 1)))
  = Returned true.
Proof. repeat split; reflexivity. Qed.

End DBFacts.

(** ** Every state a session reaches *)

Module SessionFacts.
Import Text Validation Store Effects Driver DB Session DBFacts.
Local Open Scope op_scope.

Section Rules.

Context {A B : Type}.
Variable I : World -> Prop.

Lemma preserves_ret (a : A) : preserves I (ret a).
Proof. intros w H. exact H. Qed.

Lemma preserves_throw (e : exception) : preserves I (@throw A e).
Proof. intros w H. exact H. Qed.

Lemma preserves_bind (m : Op A) (k : A -> Op B) :
  preserves I m -> (forall a, preserves I (k a)) -> preserves I (bind m k).
Proof.
  intros Hm Hk w Hw. unfold bind. specialize (Hm w Hw).
  destruct (m w) as [[a|e] w']; cbn [snd] in *; [now apply Hk | exact Hm].
Qed.

Lemma preserves_try (body : Op A) (handler : string -> Op A) :
  preserves I body -> (forall what, preserves I (handler what)) ->
  preserves I (try_catch_sql body handler).
Proof.
  intros Hb Hh w Hw. unfold try_catch_sql. specialize (Hb w Hw).
  destruct (body w) as [[a|[what|what]] w']; cbn [snd] in *;
    [exact Hb | now apply Hh | exact Hb].
Qed.

Lemma triple_bind (P : World -> Prop) (Q : A -> World -> Prop)
  (R : B -> World -> Prop) (E : exception -> World -> Prop)
  (m : Op A) (k : A -> Op B) :
  triple P m Q E -> (forall a, triple (Q a) (k a) R E) ->
  triple P (bind m k) R E.
Proof.
  intros Hm Hk w Hw. unfold bind. specialize (Hm w Hw).
  destruct (m w) as [[a|e] w']; [now apply Hk | exact Hm].
Qed.

Lemma triple_try (P : World -> Prop) (Q : A -> World -> Prop)
  (E1 E2 : exception -> World -> Prop)
  (body : Op A) (handler : string -> Op A) :
  triple P body Q E1 ->
  (forall what, triple (E1 (SQLException what)) (handler what) Q E2) ->
  (forall what w, E1 (DBException what) w -> E2 (DBException what) w) ->
  triple P (try_catch_sql body handler) Q E2.
Proof.
  intros Hb Hh Hd w Hw. unfold try_catch_sql. specialize (Hb w Hw).
  destruct (body w) as [[a|[what|what]] w'];
    [exact Hb | now apply Hh | now apply Hd].
Qed.

End Rules.

(** Structural steps of a preservation proof. *)
Ltac keep_step :=
  match goal with
  | |- forall _, _ => intro
  | |- preserves _ (bind _ _) => apply preserves_bind
  | |- preserves _ (try_catch_sql _ _) => apply preserves_try
  | |- preserves _ (ret _) => apply preserves_ret
  | |- preserves _ (throw _) => apply preserves_throw
  | |- preserves _ (if ?b then _ else _) => destruct b
  | |- preserves _ (match ?x with _ => _ end) => destruct x
  end.

(** Case analysis on whatever a stuck [match] of the goal inspects. *)
Ltac split_match :=
  match goal with
  | |- context [match ?x with _ => _ end] =>
      lazymatch x with
      | context [match _ with _ => _ end] => fail
      | _ => destruct x eqn:?
      end
  end;
  run_ops.

(** A connector call on an opened world, link state by link state. *)
Ltac by_link w :=
  destruct w as [[lnk st fr wt lk rs tx nx] out err];
  destruct lnk as [|[|n]]; run_ops.

(** *** The counter stays above the ids *)

Lemma store_row_id (strict : bool) (i : Z) (f l e m : string) (row : Contact) :
  store_row strict i f l e m = Some row -> id row = i.
Proof.
  unfold store_row.
  destruct (store_varchar strict 100 f), (store_varchar strict 100 l),
    (store_varchar strict 255 e), (store_varchar strict 50 m);
    intro H; try discriminate.
  now injection H as <-.
Qed.

Lemma Forall_below_succ (rs : list Contact) (nx : Z) :
  Forall (fun r => (id r < nx)%Z) rs -> Forall (fun r => (id r < nx + 1)%Z) rs.
Proof. apply Forall_impl. intros r H. lia. Qed.

Lemma counted_transmit : preserves counted transmit.
Proof. intros w H. by_link w; exact H. Qed.

Lemma counted_isValid : preserves counted isValid.
Proof. intros w H. by_link w; exact H. Qed.

Lemma counted_print_cout (s : string) : preserves counted (print_cout s).
Proof. intros w H. exact H. Qed.

Lemma counted_print_cerr (s : string) : preserves counted (print_cerr s).
Proof. intros w H. exact H. Qed.

Lemma counted_setAutoCommit (b : bool) : preserves counted (setAutoCommit b).
Proof.
  intros w [H1 H2]. unfold counted, counter_above in *.
  by_link w; cbn [conn_ rows txn next_id] in *;
    destruct b; run_ops; try destruct tx; run_ops; auto.
Qed.

Lemma counted_commit : preserves counted commit.
Proof.
  intros w [H1 H2]. unfold counted, counter_above in *.
  by_link w; cbn [conn_ rows txn next_id] in *;
    try destruct tx; run_ops; auto.
Qed.

Lemma counted_rollback : preserves counted rollback.
Proof.
  intros w [H1 H2]. unfold counted, counter_above in *.
  by_link w; cbn [conn_ rows txn next_id] in *;
    try destruct tx; run_ops; auto.
Qed.

Lemma counted_update_insert (f l e m : string) :
  preserves counted (update_insert f l e m).
Proof.
  intros w [H1 H2]. unfold counted, counter_above in *.
  by_link w; cbn [conn_ rows txn next_id] in *; auto;
    (destruct (store_row st nx f l e m) as [row|] eqn:S; run_ops; auto;
     destruct (INT_MAX <? nx)%Z; run_ops; auto;
     apply store_row_id in S;
     split;
     [ apply Forall_app; split;
       [now apply Forall_below_succ | repeat constructor; lia]
     | destruct tx; [now apply Forall_below_succ | exact I] ]).
Qed.

Lemma counted_update_update (f l e m : string) (i : Z) :
  preserves counted (update_update f l e m i).
Proof.
  intros w [H1 H2]. unfold counted, counter_above in *.
  by_link w; cbn [conn_ rows txn next_id] in *; auto;
    (destruct (filter (has_id i) rs); run_ops; auto;
     destruct (store_row st i f l e m) as [row|] eqn:S; run_ops; auto;
     apply store_row_id in S;
     split; [| exact H2];
     apply Forall_forall; intros r Hr; apply in_map_iff in Hr;
     destruct Hr as (r0 & <- & Hr0);
     rewrite Forall_forall in H1; specialize (H1 r0 Hr0);
     unfold has_id; destruct (Z.eqb_spec (id r0) i); [lia | exact H1]).
Qed.

Lemma counted_update_delete (i : Z) : preserves counted (update_delete i).
Proof.
  intros w [H1 H2]. unfold counted, counter_above in *.
  by_link w; cbn [conn_ rows txn next_id] in *; auto;
    (split; [| exact H2];
     apply Forall_forall; intros r Hr; apply filter_In in Hr;
     rewrite Forall_forall in H1; now apply H1).
Qed.

Lemma counted_query_select_1 : preserves counted query_select_1.
Proof. exact counted_transmit. Qed.

Lemma counted_prepareStatement (sql : string) :
  preserves counted (prepareStatement sql).
Proof. exact counted_transmit. Qed.

Lemma counted_query_by_id (i : Z) : preserves counted (query_by_id i).
Proof. intros w H. by_link w; exact H. Qed.

Lemma counted_query_all : preserves counted query_all.
Proof. intros w H. by_link w; exact H. Qed.

Lemma counted_query_like (p1 p2 p3 p4 : string) :
  preserves counted (query_like p1 p2 p3 p4).
Proof. intros w H. by_link w; exact H. Qed.

Lemma counted_query_order_by (col order : string) :
  preserves counted (query_order_by col order).
Proof. intros w H. by_link w; try exact H; repeat split_match; exact H. Qed.

Lemma counted_query_count : preserves counted query_count.
Proof. intros w H. by_link w; exact H. Qed.

Lemma counted_ensure_connection : preserves counted ensure_connection.
Proof.
  unfold ensure_connection. apply preserves_bind; [exact counted_isValid |].
  intros []; [apply preserves_ret | apply preserves_throw].
Qed.

Create HintDb counted discriminated.

#[local] Hint Resolve counted_transmit counted_isValid counted_print_cout
  counted_print_cerr counted_setAutoCommit counted_commit counted_rollback
  counted_update_insert counted_update_update counted_update_delete
  counted_query_select_1 counted_prepareStatement counted_query_by_id
  counted_query_all counted_query_like counted_query_order_by
  counted_query_count counted_ensure_connection : counted.

Ltac keep_counted := repeat (first [keep_step | solve [auto with counted]]).

Lemma counted_import_loop (cs : list Contact) : preserves counted (import_loop cs).
Proof.
  induction cs as [|c cs IH]; cbn [import_loop]; keep_counted.
Qed.

#[local] Hint Resolve counted_import_loop : counted.

Lemma counted_perform (c : call) (w : World) :
  counted w -> counted (perform c w).
Proof.
  revert w.
  destruct c as [|f l e m|i f l e m|i|i| |q|col asc| |cs]; cbn [perform].
  - change (preserves counted test_connection).
    unfold test_connection. keep_counted.
  - change (preserves counted (insert_contact f l e m)).
    unfold insert_contact. keep_counted.
  - change (preserves counted (update_contact i f l e m)).
    unfold update_contact. keep_counted.
  - change (preserves counted (delete_contact i)).
    unfold delete_contact. keep_counted.
  - change (preserves counted (get_contact_by_id i)).
    unfold get_contact_by_id. keep_counted.
  - change (preserves counted get_all_contacts).
    unfold get_all_contacts. keep_counted.
  - change (preserves counted (search_contacts q)).
    unfold search_contacts, get_all_contacts. keep_counted.
  - change (preserves counted (get_contacts_sorted col asc)).
    unfold get_contacts_sorted. keep_counted.
  - change (preserves counted get_contact_count).
    unfold get_contact_count. keep_counted.
  - change (preserves counted (import_contacts cs)).
    unfold import_contacts. keep_counted.
Qed.

(** *** No transaction stays open on a working link *)

Ltac by_cases w :=
  intros w ?; by_link w; repeat split_match;
  unfold idle, settled, lost_if_db, link_dead, anywhere, committed, whatever in *;
  cbn [conn_ link txn] in *; intuition congruence.

Lemma idle_transmit : preserves idle transmit.
Proof. by_cases w. Qed.

Lemma idle_isValid : preserves idle isValid.
Proof. by_cases w. Qed.

Lemma idle_print_cout (s : string) : preserves idle (print_cout s).
Proof. intros w H. exact H. Qed.

Lemma idle_print_cerr (s : string) : preserves idle (print_cerr s).
Proof. intros w H. exact H. Qed.

Lemma idle_update_insert (f l e m : string) :
  preserves idle (update_insert f l e m).
Proof. by_cases w. Qed.

Lemma idle_update_update (f l e m : string) (i : Z) :
  preserves idle (update_update f l e m i).
Proof. by_cases w. Qed.

Lemma idle_update_delete (i : Z) : preserves idle (update_delete i).
Proof. by_cases w. Qed.

Lemma idle_query_by_id (i : Z) : preserves idle (query_by_id i).
Proof. by_cases w. Qed.

Lemma idle_query_all : preserves idle query_all.
Proof. by_cases w. Qed.

Lemma idle_query_like (p1 p2 p3 p4 : string) :
  preserves idle (query_like p1 p2 p3 p4).
Proof. by_cases w. Qed.

Lemma idle_query_order_by (col order : string) :
  preserves idle (query_order_by col order).
Proof. by_cases w. Qed.

Lemma idle_query_count : preserves idle query_count.
Proof. by_cases w. Qed.

Lemma idle_ensure_connection : preserves idle ensure_connection.
Proof.
  unfold ensure_connection. apply preserves_bind; [exact idle_isValid |].
  intros []; [apply preserves_ret | apply preserves_throw].
Qed.

Create HintDb idle discriminated.

#[local] Hint Resolve idle_transmit idle_isValid idle_print_cout
  idle_print_cerr idle_update_insert idle_update_update idle_update_delete
  idle_query_by_id idle_query_all idle_query_like idle_query_order_by
  idle_query_count idle_ensure_connection : idle.

#[local] Hint Unfold prepareStatement query_select_1 : idle.

Ltac keep_idle :=
  repeat (first [keep_step | solve [auto with idle] | exact idle_transmit]).

(** The import, step by step. *)

Lemma ensure_connection_triple :
  triple anywhere ensure_connection whatever lost_if_db.
Proof. by_cases w. Qed.

Lemma setAutoCommit_off_triple :
  triple (whatever tt) (setAutoCommit false) whatever lost_if_db.
Proof. by_cases w. Qed.

Lemma prepareStatement_triple (sql : string) :
  triple (whatever tt) (prepareStatement sql) whatever lost_if_db.
Proof. by_cases w. Qed.

Lemma update_insert_triple (f l e m : string) :
  triple (whatever tt) (update_insert f l e m) whatever lost_if_db.
Proof. by_cases w. Qed.

Lemma import_loop_triple (cs : list Contact) :
  triple (whatever tt) (import_loop cs) whatever lost_if_db.
Proof.
  induction cs as [|c cs IH]; cbn [import_loop].
  - intros w _. exact I.
  - apply triple_bind with (Q := whatever);
      [apply update_insert_triple | intros a; exact IH].
Qed.

Lemma commit_triple : triple (whatever tt) commit whatever lost_if_db.
Proof. by_cases w. Qed.

Lemma setAutoCommit_on_triple :
  triple (whatever tt) (setAutoCommit true) committed lost_if_db.
Proof. by_cases w. Qed.

Lemma print_cout_triple (s : string) :
  triple (committed tt) (print_cout s) committed lost_if_db.
Proof. intros w H. exact H. Qed.

Lemma rollback_triple : triple anywhere rollback whatever link_dead.
Proof. by_cases w. Qed.

Lemma setAutoCommit_on_lost_triple :
  triple (whatever tt) (setAutoCommit true) committed link_dead.
Proof. by_cases w. Qed.

Lemma print_cerr_triple (s : string) :
  triple (committed tt) (print_cerr s) committed link_dead.
Proof. intros w H. exact H. Qed.

(** Whatever the state it starts in and however it ends, an import leaves
    the connection with auto-commit on, or with a dead link. *)
Lemma import_contacts_triple (cs : list Contact) :
  triple anywhere (import_contacts cs) committed link_dead.
Proof.
  unfold import_contacts.
  apply triple_try with (E1 := lost_if_db).
  - apply triple_bind with (Q := whatever); [apply ensure_connection_triple |].
    intros a.
    apply triple_bind with (Q := whatever); [exact setAutoCommit_off_triple |].
    intros a0.
    apply triple_bind with (Q := whatever);
      [exact (prepareStatement_triple insert_sql) |].
    intros a1.
    apply triple_bind with (Q := whatever); [exact (import_loop_triple cs) |].
    intros a2.
    apply triple_bind with (Q := whatever); [exact commit_triple |].
    intros a3.
    apply triple_bind with (Q := committed); [exact setAutoCommit_on_triple |].
    intros a4.
    apply triple_bind with (Q := committed); [exact (print_cout_triple _) |].
    intros a5 w H. exact H.
  - intro what.
    apply triple_bind with (Q := whatever);
      [intros w _; now apply rollback_triple |].
    intros a.
    apply triple_bind with (Q := committed);
      [exact setAutoCommit_on_lost_triple |].
    intros a0.
    apply triple_bind with (Q := committed); [exact (print_cerr_triple _) |].
    intros a1 w H. exact H.
  - intros what w H. exact H.
Qed.

Lemma idle_import_contacts (cs : list Contact) (w : World) :
  idle (snd (import_contacts cs w)).
Proof.
  pose proof (import_contacts_triple cs w I) as H.
  destruct (import_contacts cs w) as [[b|e] w']; cbn [snd];
    [left; exact H | right; exact H].
Qed.

Lemma idle_perform (c : call) (w : World) : idle w -> idle (perform c w).
Proof.
  revert w.
  destruct c as [|f l e m|i f l e m|i|i| |q|col asc| |cs]; cbn [perform].
  - change (preserves idle test_connection).
    unfold test_connection. keep_idle.
  - change (preserves idle (insert_contact f l e m)).
    unfold insert_contact. keep_idle.
  - change (preserves idle (update_contact i f l e m)).
    unfold update_contact. keep_idle.
  - change (preserves idle (delete_contact i)).
    unfold delete_contact. keep_idle.
  - change (preserves idle (get_contact_by_id i)).
    unfold get_contact_by_id. keep_idle.
  - change (preserves idle get_all_contacts).
    unfold get_all_contacts. keep_idle.
  - change (preserves idle (search_contacts q)).
    unfold search_contacts, get_all_contacts. keep_idle.
  - change (preserves idle (get_contacts_sorted col asc)).
    unfold get_contacts_sorted. keep_idle.
  - change (preserves idle get_contact_count).
    unfold get_contact_count. keep_idle.
  - intros w _. apply idle_import_contacts.
Qed.

(** In every state a session reaches, the [AUTO_INCREMENT] counter is above
    every stored id and no transaction is open on a working link. *)
Theorem reachable_invariant (w : World) :
  reachable w -> counted w /\ idle w.
Proof.
  induction 1 as [w C T|w c R [IHc IHi]].
  - split; [exact C | now left].
  - split; [now apply counted_perform | now apply idle_perform].
Qed.

(** What the statements on bulk import and on the round trip assume of the
    state holds in every reachable state whose link works. *)
Corollary reachable_healthy (w : World) :
  reachable w -> link (conn_ w) = Healthy ->
  getAutoCommit (conn_ w) = true /\ ids_below_counter (conn_ w).
Proof.
  intros R L. destruct (reachable_invariant w R) as [[C _] [T|D]].
  - unfold getAutoCommit. rewrite T. now split.
  - congruence.
Qed.

(** On a link that is not dead, healthy or not, a [DB] object has
    auto-commit on. *)
Corollary reachable_working (w : World) :
  reachable w -> link (conn_ w) <> DropsAfter 0 ->
  getAutoCommit (conn_ w) = true.
Proof.
  intros R L. destruct (reachable_invariant w R) as [_ [T|D]].
  - unfold getAutoCommit. now rewrite T.
  - contradiction.
Qed.

End SessionFacts.

(** ** The rest of the repository *)

Module DBRestFacts.
Import Text Validation Store Effects Driver DB Session DBRest.
Import TextFacts ValidationFacts DBFacts SessionFacts.
Local Open Scope op_scope.

(** [run_ops], with the connector calls of [DBRest]. *)
Ltac run_all :=
  cbv beta iota zeta delta
    [try_catch_sql bind ret throw get_conn put_conn print_cout print_cerr
     ensure_connection prepareStatement transmit isValid setAutoCommit commit
     rollback query_select_1 update_insert update_update update_delete
     query_by_id query_all query_like query_order_by query_count
     execute_create_table update_delete_all
     conn_ cout cerr link strict_mode found_rows weight like rows txn next_id
     getAutoCommit with_link with_rows with_txn with_next_id negb fst snd].

(** Case analysis on the innermost stuck [match] of the goal. *)
Ltac split_goal :=
  first
    [ match goal with
      | |- context [match ?x with _ => _ end] =>
          lazymatch x with
          | context [match _ with _ => _ end] => fail
          | _ => destruct x eqn:?
          end
      end
    | match goal with
      | |- context [Z.eqb ?a ?b] => destruct (Z.eqb a b) eqn:?
      end ];
  run_all.

(** A call of at most three exchanges, link state by link state. *)
Ltac by_exchanges w :=
  destruct w as [[lnk st fr wt lk rs tx nx] out err];
  destruct lnk as [|[|[|[|n]]]]; run_all; repeat split_goal.

(** *** What the writes raise *)

(** For each write of the repository, every way it can end: it returns, or
    it raises a [DBException] that is the validation error, the "connection
    lost" of the liveness check, the "not found" of a statement that changed
    no row, or the connector's message behind the prefix of the operation.
    No [sql::SQLException] leaves a write.  [initialize_schema], which skips
    the liveness check, only ever raises its wrapped error. *)
Theorem write_errors :
  forall (w : World) (i : Z) (f l e m : string),
    match fst (insert_contact f l e m w) with
    | Returned _ => True
    | Thrown err =>
        err = names_missing \/ err = invalid_email \/ err = connection_lost
        \/ wrapped "Insert error: " err
    end /\
    match fst (update_contact i f l e m w) with
    | Returned _ => True
    | Thrown err =>
        err = names_missing \/ err = invalid_email \/ err = connection_lost
        \/ err = not_found i \/ wrapped "Update error: " err
    end /\
    match fst (delete_contact i w) with
    | Returned _ => True
    | Thrown err =>
        err = connection_lost \/ err = not_found i
        \/ wrapped "Delete error: " err
    end /\
    match fst (delete_all_contacts w) with
    | Returned _ => True
    | Thrown err => err = connection_lost \/ wrapped "Delete all error: " err
    end /\
    match fst (initialize_schema w) with
    | Returned _ => True
    | Thrown err => wrapped "Schema initialization error: " err
    end.
Proof.
  intros w i f l e m.
  unfold insert_contact, update_contact, delete_contact, delete_all_contacts,
    initialize_schema, wrapped.
  repeat split.
  - destruct (empty f && empty l); [now left |].
    destruct (negb (empty e) && negb (is_valid_email e)); [now right; left |].
    by_exchanges w; eauto 6.
  - destruct (empty f && empty l); [now left |].
    destruct (negb (empty e) && negb (is_valid_email e)); [now right; left |].
    by_exchanges w; eauto 7.
  - by_exchanges w; eauto 6.
  - by_exchanges w; eauto 6.
  - by_exchanges w; eauto 6.
Qed.

(** *** What the reads leave alone *)

(** The connectivity probe and the five reads never change the table, the
    open transaction or the [AUTO_INCREMENT] counter.  The one exception
    they raise is the [DBException] of the liveness check, and they raise it
    only on a link that is already dead, before any exchange. *)
Theorem reads_are_read_only :
  forall (w : World) (i : Z) (query column : string) (ascending : bool),
    read_only test_connection w /\
    read_only (get_contact_by_id i) w /\
    read_only get_all_contacts w /\
    read_only (search_contacts query) w /\
    read_only (get_contacts_sorted column ascending) w /\
    read_only get_contact_count w.
Proof.
  intros w i query column ascending.
  unfold read_only, same_store, test_connection, get_contact_by_id,
    search_contacts, get_all_contacts, get_contacts_sorted, get_contact_count.
  repeat split; try destruct (empty query); by_exchanges w; auto.
Qed.

(** *** The email rule, end to end *)

Lemma guards (f l e : string) :
  (names_present f l = true <-> empty f && empty l = false) /\
  (validateEmail e = false <->
   negb (empty e) && negb (is_valid_email e) = true).
Proof.
  unfold names_present, validateEmail.
  destruct (empty f && empty l), (negb (empty e) && negb (is_valid_email e));
    cbn; intuition congruence.
Qed.

(** [insert_contact] and [update_contact] raise "Invalid email format"
    exactly when the names pass and the email is neither empty nor
    well-shaped; the check comes before any exchange with the store, which
    is left untouched, link included. *)
Theorem email_rule_before_store :
  forall (w : World) (i : Z) (f l e m : string),
    (names_present f l = true /\ validateEmail e = false ->
     insert_contact f l e m w = (Thrown invalid_email, w) /\
     update_contact i f l e m w = (Thrown invalid_email, w)) /\
    (fst (insert_contact f l e m w) = Thrown invalid_email ->
     names_present f l = true /\ validateEmail e = false) /\
    (fst (update_contact i f l e m w) = Thrown invalid_email ->
     names_present f l = true /\ validateEmail e = false).
Proof.
  intros w i f l e m.
  destruct (guards f l e) as [N E]. rewrite N, E.
  unfold insert_contact, update_contact, invalid_email.
  destruct (empty f && empty l);
    [repeat split; cbn [fst]; intros; try discriminate;
     match goal with H : _ /\ _ |- _ => destruct H; discriminate end |].
  destruct (negb (empty e) && negb (is_valid_email e));
    [repeat split; cbn [fst]; intros; try discriminate;
     match goal with H : _ /\ _ |- _ => destruct H; discriminate end |].
  split; [intros [_ H]; discriminate |].
  split; by_exchanges w; intro H; cbn [String.append] in H; discriminate.
Qed.

(** *** Deleting *)

Lemma filter_present (i : Z) (rs : list Contact) :
  (exists r, In r rs /\ id r = i) ->
  (Z.of_nat (length (filter (has_id i) rs)) =? 0)%Z = false.
Proof.
  intros (r & I & E).
  assert (F : In r (filter (has_id i) rs)).
  { apply filter_In. split; [exact I |]. unfold has_id. now apply Z.eqb_eq. }
  destruct (filter (has_id i) rs); [destruct F |].
  cbn [length]. apply Z.eqb_neq. lia.
Qed.

Lemma filter_other_absent (i : Z) (rs : list Contact) :
  filter (has_id i) (filter (other_id i) rs) = [].
Proof.
  induction rs as [|r rs IH]; [reflexivity |].
  cbn [filter]. unfold other_id at 1. destruct (has_id i r) eqn:H; cbn [negb].
  - exact IH.
  - cbn [filter]. now rewrite H.
Qed.

Lemma filter_other_shorter (i : Z) (rs : list Contact) :
  (exists r, In r rs /\ id r = i) ->
  (length (filter (other_id i) rs) < length rs)%nat.
Proof.
  intros (r & I & E). induction rs as [|x rs IH]; [destruct I |].
  cbn [filter]. unfold other_id at 1. unfold has_id at 1.
  pose proof (filter_length_le (other_id i) rs) as L.
  destruct I as [->|I].
  - rewrite E, Z.eqb_refl. cbn [negb length]. lia.
  - specialize (IH I). destruct (id x =? i)%Z; cbn [negb length]; lia.
Qed.

(** On a healthy connection, deleting an id that is stored returns, takes
    every row of that id and no other out of the table, so that the table is
    shorter and the id is gone; deleting the same id again raises "Contact
    not found". *)
Theorem delete_contact_then_again :
  forall (w : World) (i : Z),
    link (conn_ w) = Healthy ->
    present i (conn_ w) ->
    exists w' : World,
      delete_contact i w = (Returned tt, w') /\
      rows (conn_ w') = filter (other_id i) (rows (conn_ w)) /\
      (length (rows (conn_ w')) < length (rows (conn_ w)))%nat /\
      absent i (conn_ w') /\
      delete_contact i w' = (Thrown (not_found i), w').
Proof.
  intros w i HL HP. unfold present, absent in *.
  destruct w as [[lnk st fr wt lk rs tx nx] out err].
  cbn [conn_ link rows] in *. subst lnk.
  pose proof (filter_present i rs HP) as C.
  unfold delete_contact, not_found. run_all. rewrite C.
  eexists. split; [reflexivity |]. cbn [conn_ rows].
  split; [reflexivity |].
  split; [now apply filter_other_shorter |].
  split.
  - intros r I. apply filter_In in I. destruct I as [_ O].
    unfold other_id, has_id in O. apply negb_true_iff, Z.eqb_neq in O. exact O.
  - run_all. rewrite filter_other_absent. cbn [length Z.of_nat Z.eqb].
    rewrite (filter_none_absent i _ (filter_other_absent i rs)). reflexivity.
Qed.

Lemma delete_contact_then_again_witness :
  let ada := mkContact 1 "Ada" "Lovelace" "ada@example.com" "+44123" in
  let grace := mkContact 2 "Grace" "Hopper" "" "" in
  let w := world (connection Healthy true [ada; grace] 3) in
  exists w' : World,
    delete_contact 1 w = (Returned tt, w') /\
    rows (conn_ w') = filter (other_id 1) (rows (conn_ w)) /\
    (length (rows (conn_ w')) < length (rows (conn_ w)))%nat /\
    absent 1 (conn_ w') /\
    delete_contact 1 w' = (Thrown (not_found 1), w').
Proof.
  intros ada grace w.
  apply (delete_contact_then_again w 1); [reflexivity |].
  exists ada. split; [now left | reflexivity].
Defined.

(** *** Updating *)

Lemma filter_replaced (i : Z) (row : Contact) (rs : list Contact) :
  id row = i ->
  (exists r, In r rs /\ id r = i) ->
  exists rest,
    filter (has_id i) (map (fun r => if has_id i r then row else r) rs)
    = row :: rest.
Proof.
  intros Hrow (r & I & E).
  induction rs as [|x rs IH]; [destruct I |].
  cbn [map filter]. destruct (has_id i x) eqn:Hx.
  - unfold has_id at 1. rewrite Hrow, Z.eqb_refl. eauto.
  - rewrite Hx. destruct I as [->|I]; [| now apply IH].
    unfold has_id in Hx. rewrite E, Z.eqb_refl in Hx. discriminate.
Qed.

Lemma filter_hits (i : Z) (rs : list Contact) :
  (exists r, In r rs /\ id r = i) ->
  exists hit hits, filter (has_id i) rs = hit :: hits.
Proof.
  intros (r & I & E).
  assert (F : In r (filter (has_id i) rs)).
  { apply filter_In. split; [exact I |]. unfold has_id. now apply Z.eqb_eq. }
  destruct (filter (has_id i) rs) as [|hit hits]; [destruct F | eauto].
Qed.

(** On a healthy connection whose update count is the number of rows
    matched, updating a stored id with valid fields that fit the columns
    returns; every row of that id now holds the new fields, every other row
    is as it was, the table has as many rows as before, and
    [get_contact_by_id] on the id returns the new fields, each cut at its
    first NUL byte if it has one. *)
Theorem update_contact_then_get :
  forall (w : World) (i : Z) (f l e m : string),
    link (conn_ w) = Healthy ->
    found_rows (conn_ w) = true ->
    present i (conn_ w) ->
    names_present f l = true ->
    validateEmail e = true ->
    fits f l e m = true ->
    exists w' : World,
      update_contact i f l e m w = (Returned tt, w') /\
      rows (conn_ w')
      = map (fun r => if has_id i r then mkContact i f l e m else r)
            (rows (conn_ w)) /\
      length (rows (conn_ w')) = length (rows (conn_ w)) /\
      get_contact_by_id i w'
      = (Returned (Some (fetch (mkContact i f l e m))), w').
Proof.
  intros w i f l e m HL HF HP HN HE HFit. unfold present in HP.
  destruct w as [[lnk st fr wt lk rs tx nx] out err].
  cbn [conn_ link rows found_rows] in *. subst lnk fr.
  destruct (filter_hits i rs HP) as (hit & hits & Hh).
  destruct (filter_replaced i (mkContact i f l e m) rs eq_refl HP) as (rest & Hr).
  unfold update_contact.
  rewrite (names_present_guard _ _ HN), (validateEmail_guard _ HE).
  run_all. rewrite Hh, (store_row_fits st i f l e m HFit). run_all.
  cbn [length]. rewrite Nat2Z.inj_succ.
  destruct (Z.eqb_spec (Z.succ (Z.of_nat (length hits))) 0) as [Z0|_]; [lia |].
  eexists. split; [reflexivity |]. cbn [conn_ rows].
  split; [reflexivity |].
  split; [apply length_map |].
  unfold get_contact_by_id. run_all. rewrite Hr. reflexivity.
Qed.

Lemma update_contact_then_get_witness :
  let ada := mkContact 1 "Ada" "Lovelace" "ada@example.com" "+44123" in
  let w := world (connection Healthy true [ada] 2) in
  exists w' : World,
    update_contact 1 "Ada" "King" "" "+44123" w = (Returned tt, w') /\
    rows (conn_ w')
    = map (fun r => if has_id 1 r then mkContact 1 "Ada" "King" "" "+44123" else r)
          (rows (conn_ w)) /\
    length (rows (conn_ w')) = length (rows (conn_ w)) /\
    get_contact_by_id 1 w'
    = (Returned (Some (fetch (mkContact 1 "Ada" "King" "" "+44123"))), w').
Proof.
  intros ada w.
  apply (update_contact_then_get w 1 "Ada" "King" "" "+44123");
    try reflexivity.
  exists ada. split; [now left | reflexivity].
Defined.

(** *** Deleting everything *)

(** On a healthy connection [delete_all_contacts] returns and leaves an
    empty table: listing returns no contact, the count is 0, and no id is
    found any more.  The [AUTO_INCREMENT] counter is not reset, so ids of
    deleted contacts are not given out again. *)
Theorem delete_all_contacts_empties :
  forall w : World,
    link (conn_ w) = Healthy ->
    exists w' : World,
      delete_all_contacts w = (Returned tt, w') /\
      rows (conn_ w') = [] /\
      next_id (conn_ w') = next_id (conn_ w) /\
      get_all_contacts w' = (Returned [], w') /\
      get_contact_count w' = (Returned 0%Z, w') /\
      (forall i : Z, get_contact_by_id i w' = (Returned None, w')).
Proof.
  intros w HL.
  destruct w as [[lnk st fr wt lk rs tx nx] out err].
  cbn [conn_ link] in HL. subst lnk.
  unfold delete_all_contacts. run_all.
  eexists. split; [reflexivity |]. cbn [conn_ rows next_id].
  repeat split.
Qed.

Lemma delete_all_contacts_empties_witness :
  let w := world (connection Healthy true
                    [mkContact 1 "Ada" "Lovelace" "ada@example.com" "+44123";
                     mkContact 2 "Grace" "Hopper" "" ""] 3) in
  exists w' : World,
    delete_all_contacts w = (Returned tt, w') /\
    rows (conn_ w') = [] /\
    next_id (conn_ w') = next_id (conn_ w) /\
    get_all_contacts w' = (Returned [], w') /\
    get_contact_count w' = (Returned 0%Z, w') /\
    (forall i : Z, get_contact_by_id i w' = (Returned None, w')).
Proof.
  intro w. apply (delete_all_contacts_empties w). reflexivity.
Defined.

(** *** Counting *)

(** On a healthy connection the count is the number of contacts that
    [get_all_contacts] returns. *)
Theorem count_is_length_of_listing :
  forall w : World,
    link (conn_ w) = Healthy ->
    exists contacts : list Contact,
      get_all_contacts w = (Returned contacts, w) /\
      get_contact_count w = (Returned (Z.of_nat (length contacts)), w).
Proof.
  intros w HL.
  destruct w as [[lnk st fr wt lk rs tx nx] out err].
  cbn [conn_ link] in HL. subst lnk.
  unfold get_all_contacts, get_contact_count. run_all.
  eexists. split; [reflexivity |].
  rewrite length_map.
  now rewrite (Permutation_length
                 (OrderFacts.order_by_perm (ascending (compare_names wt)) rs)).
Qed.

Lemma count_is_length_of_listing_witness :
  let w := world (connection Healthy true
                    [mkContact 1 "Ada" "Lovelace" "ada@example.com" "+44123";
                     mkContact 2 "Grace" "Hopper" "" ""] 3) in
  exists contacts : list Contact,
    get_all_contacts w = (Returned contacts, w) /\
    get_contact_count w = (Returned (Z.of_nat (length contacts)), w).
Proof.
  intro w. apply (count_is_length_of_listing w). reflexivity.
Defined.

(** When the link drops after the liveness check has passed, the fault of
    the connector is caught: [get_contact_count] writes it to [cerr] and
    returns 0, the count of an empty table, whatever the table holds; the
    listings return no contact in the same way. *)
Theorem faults_read_as_empty :
  forall (w : World) (n : nat) (query column : string) (ascending : bool),
    link (conn_ w) = DropsAfter (S n) ->
    (n < 2)%nat ->
    (fst (get_contact_count w) = Returned 0%Z /\
     cerr (snd (get_contact_count w))
     = List.app (cerr w) ["Count error: " ++ lost ++ newline]) /\
    (fst (get_all_contacts w) = Returned [] /\
     cerr (snd (get_all_contacts w))
     = List.app (cerr w) ["Query error: " ++ lost ++ newline]) /\
    (query <> "" ->
     fst (search_contacts query w) = Returned [] /\
     cerr (snd (search_contacts query w))
     = List.app (cerr w) ["Search error: " ++ lost ++ newline]) /\
    (fst (get_contacts_sorted column ascending w) = Returned [] /\
     cerr (snd (get_contacts_sorted column ascending w))
     = List.app (cerr w) ["Sort error: " ++ lost ++ newline]).
Proof.
  intros w n query column ascending HL Hn.
  destruct w as [[lnk st fr wt lk rs tx nx] out err].
  cbn [conn_ link cerr] in *. subst lnk.
  unfold get_contact_count, get_all_contacts, search_contacts,
    get_contacts_sorted.
  destruct n as [|[|n]]; [| | lia];
    (split; [split; reflexivity |];
     split; [split; reflexivity |];
     split; [| split; reflexivity];
     intro Q; destruct query; [congruence | split; reflexivity]).
Qed.

Lemma faults_read_as_empty_witness :
  let w := world (connection (DropsAfter 1) true
                    [mkContact 1 "Ada" "Lovelace" "ada@example.com" "+44123"] 2) in
  (fst (get_contact_count w) = Returned 0%Z /\
   cerr (snd (get_contact_count w))
   = List.app (cerr w) ["Count error: " ++ lost ++ newline]) /\
  (fst (get_all_contacts w) = Returned [] /\
   cerr (snd (get_all_contacts w))
   = List.app (cerr w) ["Query error: " ++ lost ++ newline]) /\
  ("Ada" <> "" ->
   fst (search_contacts "Ada" w) = Returned [] /\
   cerr (snd (search_contacts "Ada" w))
   = List.app (cerr w) ["Search error: " ++ lost ++ newline]) /\
  (fst (get_contacts_sorted "email" true w) = Returned [] /\
   cerr (snd (get_contacts_sorted "email" true w))
   = List.app (cerr w) ["Sort error: " ++ lost ++ newline]).
Proof.
  intro w. apply (faults_read_as_empty w 0 "Ada" "email" true); [reflexivity | lia].
Defined.

(** *** Sorted listing *)

(** Whatever text is passed as the column, the statement that
    [get_contacts_sorted] builds by concatenation is one of ten fixed
    texts: no byte of the caller's text reaches the store unless it is one
    of the five column names. *)
Theorem sorted_query_is_fixed :
  forall (column : string) (ascending : bool),
    In (sorted_query column ascending)
       (flat_map
          (fun c =>
             ["SELECT id, first_name, last_name, email, mobile FROM contacts ORDER BY "
              ++ c ++ " ASC";
              "SELECT id, first_name, last_name, email, mobile FROM contacts ORDER BY "
              ++ c ++ " DESC"])
          ["id"; "first_name"; "last_name"; "email"; "mobile"]).
Proof.
  intros column ascending. unfold sorted_query.
  pose proof (sanitize_column_name_member column) as M.
  unfold valid_columns in M. cbn [In] in M.
  destruct M as [<-|[<-|[<-|[<-|[<-|[]]]]]]; destruct ascending;
    vm_compute; tauto.
Qed.

(** *** Bulk import without validation *)

Lemma staged_numbered (strict : bool) (cs : list Contact) :
  forall next : Z,
    all_fit cs = true ->
    (next + Z.of_nat (length cs) <= INT_MAX + 1)%Z ->
    staged strict next cs = Some (numbered next cs).
Proof.
  induction cs as [|c cs IH]; intros next F B; [reflexivity |].
  unfold all_fit in F. cbn [forallb] in F. apply andb_true_iff in F.
  destruct F as [Fc F]. cbn [length] in B. rewrite Nat2Z.inj_succ in B.
  cbn [staged numbered]. rewrite (store_row_fits strict next _ _ _ _ Fc).
  destruct (Z.ltb_spec INT_MAX next) as [L|_]; [lia |].
  rewrite (IH (next + 1)%Z F); [reflexivity | lia].
Qed.

(** On a healthy connection, with auto-commit on, an import of contacts
    that fit the columns, with enough ids left, returns [true] and appends
    the contacts as they are, numbered from the counter, whatever their
    names and emails: [import_contacts] applies neither the name rule nor
    the email rule, and ignores the ids it is given. *)
Theorem import_contacts_stores_as_given :
  forall (w : World) (cs : list Contact),
    link (conn_ w) = Healthy ->
    getAutoCommit (conn_ w) = true ->
    all_fit cs = true ->
    (next_id (conn_ w) + Z.of_nat (length cs) <= INT_MAX + 1)%Z ->
    exists w' : World,
      import_contacts cs w = (Returned true, w') /\
      rows (conn_ w')
      = List.app (rows (conn_ w)) (numbered (next_id (conn_ w)) cs) /\
      next_id (conn_ w') = (next_id (conn_ w) + Z.of_nat (length cs))%Z /\
      getAutoCommit (conn_ w') = true.
Proof.
  intros w cs HL HA HF HB.
  destruct w as [[lnk st fr wt lk rs tx nx] out err].
  cbn [conn_ link getAutoCommit txn next_id rows] in *.
  subst lnk. destruct tx; [discriminate |].
  pose proof (import_loop_run cs st fr wt lk rs (Some rs) nx out err) as L.
  rewrite (staged_numbered st cs nx HF HB) in L.
  unfold import_contacts. run_all. rewrite L.
  eexists. split; [reflexivity |]. cbn [conn_ rows next_id txn].
  repeat split.
Qed.

Lemma import_contacts_stores_as_given_witness :
  let w := world (connection Healthy true
                    [mkContact 1 "Ada" "Lovelace" "ada@example.com" "+44123"] 2) in
  let cs := [mkContact 7 "" "" "not-an-email" ""; mkContact 7 " " "" "" "1"] in
  exists w' : World,
    import_contacts cs w = (Returned true, w') /\
    rows (conn_ w')
    = List.app (rows (conn_ w)) (numbered (next_id (conn_ w)) cs) /\
    next_id (conn_ w') = (next_id (conn_ w) + Z.of_nat (length cs))%Z /\
    getAutoCommit (conn_ w') = true.
Proof.
  intros w cs.
  apply (import_contacts_stores_as_given w cs); try reflexivity.
  unfold INT_MAX. simpl. lia.
Defined.

(** The inserts of [insert_each] on a healthy connection. *)
Lemma insert_each_run (cs : list Contact) :
  forall st fr wt lk rs tx nx out err,
    all_valid cs = true ->
    all_fit cs = true ->
    (nx + Z.of_nat (length cs) <= INT_MAX + 1)%Z ->
    exists out',
      insert_each cs (mkWorld (mkConnection Healthy st fr wt lk rs tx nx) out err)
      = (Returned tt,
         mkWorld (mkConnection Healthy st fr wt lk
                               (List.app rs (numbered nx cs)) tx
                               (nx + Z.of_nat (length cs))) out' err).
Proof.
  induction cs as [|c cs IH]; intros st fr wt lk rs tx nx out err V F B.
  - exists out. cbn [insert_each numbered length Z.of_nat]. unfold ret.
    now rewrite app_nil_r, Z.add_0_r.
  - unfold all_valid in V. unfold all_fit in F. cbn [forallb] in V, F.
    apply andb_true_iff in V. destruct V as [Vc V].
    apply andb_true_iff in Vc. destruct Vc as [Vn Ve].
    apply andb_true_iff in F. destruct F as [Fc F].
    cbn [length] in B. rewrite Nat2Z.inj_succ in B.
    cbn [insert_each numbered]. unfold insert_contact.
    rewrite (names_present_guard _ _ Vn), (validateEmail_guard _ Ve).
    run_all. rewrite (store_row_fits st nx _ _ _ _ Fc).
    destruct (Z.ltb_spec INT_MAX nx) as [L|_]; [lia |]. run_all.
    match goal with
    | |- context [insert_each cs ?w] =>
        match w with
        | mkWorld (mkConnection _ _ _ _ _ ?rs' _ ?nx') ?out' _ =>
            destruct (IH st fr wt lk rs' tx nx' out' err V F) as (out2 & ->);
              [lia |]
        end
    end.
    exists out2. rewrite <- app_assoc. cbn [List.app length].
    rewrite Nat2Z.inj_succ.
    replace (nx + 1 + Z.of_nat (length cs))%Z
      with (nx + Z.succ (Z.of_nat (length cs)))%Z by lia.
    reflexivity.
Qed.

(** For contacts that pass the two rules of [insert_contact] and fit the
    columns, on a healthy connection with auto-commit on and enough ids
    left, one [import_contacts] leaves the connection, table and counter
    included, exactly as one [insert_contact] per contact does. *)
Theorem import_contacts_as_inserts :
  forall (w : World) (cs : list Contact),
    link (conn_ w) = Healthy ->
    getAutoCommit (conn_ w) = true ->
    all_valid cs = true ->
    all_fit cs = true ->
    (next_id (conn_ w) + Z.of_nat (length cs) <= INT_MAX + 1)%Z ->
    fst (import_contacts cs w) = Returned true /\
    fst (insert_each cs w) = Returned tt /\
    conn_ (snd (import_contacts cs w)) = conn_ (snd (insert_each cs w)).
Proof.
  intros w cs HL HA HV HF HB.
  destruct w as [[lnk st fr wt lk rs tx nx] out err].
  cbn [conn_ link getAutoCommit txn next_id rows] in *.
  subst lnk. destruct tx; [discriminate |].
  pose proof (import_loop_run cs st fr wt lk rs (Some rs) nx out err) as L.
  rewrite (staged_numbered st cs nx HF HB) in L.
  destruct (insert_each_run cs st fr wt lk rs None nx out err HV HF HB)
    as (out' & ->).
  unfold import_contacts. run_all. rewrite L.
  repeat split.
Qed.

Lemma import_contacts_as_inserts_witness :
  let w := world (connection Healthy true
                    [mkContact 1 "Ada" "Lovelace" "ada@example.com" "+44123"] 2) in
  let cs := [mkContact 0 "Grace" "Hopper" "" ""; mkContact 0 "Alan" "" "alan@bletchley.uk" "1"] in
  fst (import_contacts cs w) = Returned true /\
  fst (insert_each cs w) = Returned tt /\
  conn_ (snd (import_contacts cs w)) = conn_ (snd (insert_each cs w)).
Proof.
  intros w cs.
  apply (import_contacts_as_inserts w cs); try reflexivity.
  unfold INT_MAX. simpl. lia.
Defined.

End DBRestFacts.

(** ** Orders on rows: transitivity, filtering, reversal *)

Module OrderMore.
Import Store DBRest OrderFacts.

(** *** The order of strings *)

Lemma string_compare_refl (s : string) : String.compare s s = Eq.
Proof.
  pose proof (String.compare_antisym s s) as H.
  destruct (String.compare s s); simpl in H; congruence.
Qed.

Lemma string_compare_lt_trans (a b c : string) :
  String.compare a b = Lt -> String.compare b c = Lt -> String.compare a c = Lt.
Proof.
  intros H1 H2.
  apply OrderedTypeEx.String_as_OT.cmp_lt.
  apply OrderedTypeEx.String_as_OT.lt_trans with (y := b);
    now apply OrderedTypeEx.String_as_OT.cmp_lt.
Qed.

Lemma ordering_text (w : string -> string) (field : Contact -> string) :
  ordering (fun a b => compare_text w (field a) (field b)).
Proof.
  unfold ordering, compare_text. repeat split.
  - intros a b. apply String.compare_antisym.
  - intros a b c E. apply String.compare_eq_iff in E. now rewrite E.
  - intros a b c. apply string_compare_lt_trans.
Qed.

Lemma ordering_id : ordering (fun a b => Z.compare (id a) (id b)).
Proof.
  unfold ordering. repeat split.
  - intros a b. apply Z.compare_antisym.
  - intros a b c E. apply Z.compare_eq in E. now rewrite E.
  - intros a b c H1 H2. rewrite Z.compare_lt_iff in *. lia.
Qed.

Lemma ordering_names (w : string -> string) : ordering (compare_names w).
Proof.
  destruct (ordering_text w last_name) as (LA & LE & LT).
  destruct (ordering_text w first_name) as (FA & FE & FT).
  unfold ordering, compare_names. repeat split.
  - intros a b. rewrite (LA a b), (FA a b).
    destruct (compare_text w (last_name b) (last_name a)); reflexivity.
  - intros a b c.
    destruct (compare_text w (last_name a) (last_name b)) eqn:L;
      try discriminate.
    intro F. rewrite (LE a b c L), (FE a b c F). reflexivity.
  - intros a b c.
    destruct (compare_text w (last_name a) (last_name b)) eqn:L1;
      try discriminate;
      destruct (compare_text w (last_name b) (last_name c)) eqn:L2;
      try discriminate; intros F1 F2.
    + rewrite <- (LE a b c L1), L2. now apply (FT a b c).
    + now rewrite <- (LE a b c L1), L2.
    + assert (L3 : compare_text w (last_name a) (last_name c) = Lt).
      { pose proof (LA b c) as S. rewrite L2 in S.
        assert (E : compare_text w (last_name c) (last_name b) = Eq)
          by (destruct (compare_text w (last_name c) (last_name b));
              simpl in S; congruence).
        pose proof (LE c b a E) as T.
        rewrite (LA b a), (LA c a) in T.
        rewrite L1 in T. simpl in T.
        destruct (compare_text w (last_name a) (last_name c));
          simpl in T; congruence. }
      now rewrite L3.
    + now rewrite (LT a b c L1 L2).
Qed.

Lemma ordering_column (w : string -> string) (col : string)
  (cmp : Contact -> Contact -> comparison) :
  compare_column w col = Some cmp -> ordering cmp.
Proof.
  unfold compare_column. intro H.
  repeat match type of H with
         | (if ?c then _ else _) = _ => destruct c
         end;
    try discriminate; injection H as <-;
    first [apply ordering_id | apply (ordering_text w)].
Qed.

Section Ordered.

Variable cmp : Contact -> Contact -> comparison.
Hypothesis cmp_ordering : ordering cmp.

Lemma cmp_refl (a : Contact) : cmp a a = Eq.
Proof.
  destruct cmp_ordering as (A & _ & _). pose proof (A a a) as H.
  destruct (cmp a a); simpl in H; congruence.
Qed.

Lemma cmp_gt_lt (a b : Contact) : cmp a b = Gt <-> cmp b a = Lt.
Proof.
  destruct cmp_ordering as (A & _ & _). rewrite (A a b).
  destruct (cmp b a); simpl; split; congruence.
Qed.

Lemma ascending_trans (a b c : Contact) :
  ascending cmp a b = true -> ascending cmp b c = true ->
  ascending cmp a c = true.
Proof.
  destruct cmp_ordering as (A & E & T). unfold ascending.
  destruct (cmp a b) eqn:H1; try discriminate; intros _;
    destruct (cmp b c) eqn:H2; try discriminate; intros _.
  - now rewrite <- (E a b c H1), H2.
  - now rewrite <- (E a b c H1), H2.
  - assert (H3 : cmp c b = Eq)
      by (rewrite (A c b), H2; reflexivity).
    pose proof (E c b a H3) as H4. rewrite (A b a), (A c a), H1 in H4.
    simpl in H4. destruct (cmp a c); simpl in H4; congruence.
  - now rewrite (T a b c H1 H2).
Qed.

Lemma descending_ascending (a b : Contact) :
  descending cmp a b = ascending cmp b a.
Proof.
  destruct cmp_ordering as (A & _ & _). unfold descending, ascending.
  rewrite (A a b). destruct (cmp b a); reflexivity.
Qed.

Lemma ascending_total' (a b : Contact) :
  ascending cmp a b = false -> ascending cmp b a = true.
Proof.
  destruct cmp_ordering as (A & _ & _). now apply ascending_total.
Qed.

End Ordered.

(** *** Filtering a sorted result *)

Section Filtering.

Variable leb : Contact -> Contact -> bool.
Hypothesis leb_total : forall a b, leb a b = false -> leb b a = true.
Hypothesis leb_trans :
  forall a b c, leb a b = true -> leb b c = true -> leb a c = true.
Variable keep : Contact -> bool.

Lemma place_strongly_sorted (x : Contact) (l : list Contact) :
  StronglySorted (in_order leb) l -> StronglySorted (in_order leb) (place leb x l).
Proof.
  induction l as [|y l IH]; cbn [place]; intro H.
  - repeat constructor.
  - inversion H as [|? ? Hl Hy]; subst.
    destruct (leb x y) eqn:E.
    + constructor; [exact H |]. constructor; [exact E |].
      eapply Forall_impl; [| exact Hy].
      intros z Hz. unfold in_order in *. now apply leb_trans with (b := y).
    + constructor; [now apply IH |].
      apply Forall_forall. intros z Hz.
      apply (Permutation_in z (place_perm leb x l)) in Hz.
      destruct Hz as [<-|Hz].
      * now apply leb_total.
      * rewrite Forall_forall in Hy. now apply Hy.
Qed.

Lemma order_by_strongly_sorted (l : list Contact) :
  StronglySorted (in_order leb) (order_by leb l).
Proof.
  unfold order_by. induction l as [|x l IH]; cbn [fold_right];
    [constructor | now apply place_strongly_sorted].
Qed.




End Filtering.



(** *** Descending is ascending read backwards, when no two rows tie *)

Section Reversal.

Variable cmp : Contact -> Contact -> comparison.
Hypothesis cmp_ordering : ordering cmp.

Lemma descending_trans (a b c : Contact) :
  descending cmp a b = true -> descending cmp b c = true ->
  descending cmp a c = true.
Proof.
  rewrite !(descending_ascending cmp cmp_ordering). intros H1 H2.
  now apply (ascending_trans cmp cmp_ordering c b a).
Qed.

Lemma descending_total' (a b : Contact) :
  descending cmp a b = false -> descending cmp b a = true.
Proof.
  rewrite !(descending_ascending cmp cmp_ordering).
  apply (ascending_total' cmp cmp_ordering).
Qed.

Lemma strongly_sorted_snoc (R : Contact -> Contact -> Prop) (l : list Contact)
  (x : Contact) :
  StronglySorted R l -> Forall (fun y => R y x) l ->
  StronglySorted R (l ++ [x])%list.
Proof.
  induction l as [|y l IH]; cbn [List.app]; intros S F.
  - repeat constructor.
  - inversion S as [|? ? Sl Hy]; subst. inversion F as [|? ? Fy Fl]; subst.
    constructor; [now apply IH |].
    apply Forall_app. split; [exact Hy | now constructor].
Qed.

Lemma strongly_sorted_rev (l : list Contact) :
  StronglySorted (in_order (ascending cmp)) l ->
  StronglySorted (in_order (descending cmp)) (rev l).
Proof.
  induction l as [|x l IH]; cbn [rev]; intro S; [constructor |].
  inversion S as [|? ? Sl Hx]; subst.
  apply strongly_sorted_snoc; [now apply IH |].
  apply Forall_forall. intros y Hy. apply in_rev in Hy.
  rewrite Forall_forall in Hx. specialize (Hx y Hy).
  unfold in_order in *. now rewrite (descending_ascending cmp cmp_ordering).
Qed.

(** Two rows of a list without ties are the same row or rank apart. *)
Definition untied (l : list Contact) : Prop :=
  forall a b, In a l -> In b l -> cmp a b = Eq -> a = b.

Lemma pairs_untied (l : list Contact) :
  ForallOrdPairs (fun a b => cmp a b <> Eq) l -> untied l.
Proof.
  intros H a b Ia Ib E.
  destruct (ForallOrdPairs_In H a b Ia Ib) as [->|[N|N]];
    [reflexivity | contradiction |].
  destruct cmp_ordering as (A & _ & _). rewrite (A b a), E in N.
  now contradiction N.
Qed.

(** A list without ties has one descending arrangement. *)
Lemma descending_unique (l1 : list Contact) :
  forall l2 : list Contact,
    Permutation l1 l2 -> untied l1 ->
    StronglySorted (in_order (descending cmp)) l1 ->
    StronglySorted (in_order (descending cmp)) l2 ->
    l1 = l2.
Proof.
  induction l1 as [|a t1 IH]; intros l2 P U S1 S2.
  - apply Permutation_nil in P. now subst.
  - destruct l2 as [|b t2];
      [apply Permutation_sym, Permutation_nil in P; discriminate |].
    inversion S1 as [|? ? St1 Ha]; subst.
    inversion S2 as [|? ? St2 Hb]; subst.
    assert (E : a = b).
    { assert (Ia : In a (b :: t2))
        by (apply (Permutation_in a P); now left).
      assert (Ib : In b (a :: t1))
        by (apply (Permutation_in b (Permutation_sym P)); now left).
      destruct Ia as [Ia|Ia]; [now symmetry |].
      destruct Ib as [Ib|Ib]; [exact Ib |].
      rewrite Forall_forall in Ha, Hb.
      specialize (Ha b Ib). specialize (Hb a Ia).
      unfold in_order, descending in Ha, Hb.
      apply U; [now left | now right |].
      destruct cmp_ordering as (A & _ & _). rewrite (A b a) in Hb.
      destruct (cmp a b); simpl in *; congruence. }
    subst b. f_equal. apply IH.
    + now apply Permutation_cons_inv with (a := a).
    + intros x y Ix Iy. apply U; now right.
    + exact St1.
    + exact St2.
Qed.

Lemma order_by_reversed (l : list Contact) :
  ForallOrdPairs (fun a b => cmp a b <> Eq) l ->
  order_by (descending cmp) l = rev (order_by (ascending cmp) l).
Proof.
  intro T.
  apply descending_unique.
  - rewrite (order_by_perm (descending cmp) l).
    rewrite <- (Permutation_rev (order_by (ascending cmp) l)).
    symmetry. apply order_by_perm.
  - intros a b Ia Ib.
    apply (pairs_untied l T);
      now apply (Permutation_in _ (order_by_perm (descending cmp) l)).
  - apply order_by_strongly_sorted;
      [apply descending_total' | apply descending_trans].
  - apply strongly_sorted_rev. apply order_by_strongly_sorted;
      [apply (ascending_total' cmp cmp_ordering)
      | apply (ascending_trans cmp cmp_ordering)].
Qed.

End Reversal.

End OrderMore.

(** ** Searching and sorting, against the full listing *)

Module ListingFacts.
Import Text Validation Store Effects Driver DB Session DBRest.
Import DBFacts DBRestFacts OrderFacts OrderMore.
Local Open Scope op_scope.



(** On a healthy connection, when no two rows tie on the sanitized column,
    the descending listing is the ascending listing read backwards. *)
Theorem get_contacts_sorted_reverses :
  forall (w : World) (column : string)
         (cmp : Contact -> Contact -> comparison),
    link (conn_ w) = Healthy ->
    compare_column (weight (conn_ w)) (sanitize_column_name column) = Some cmp ->
    ForallOrdPairs (fun a b => cmp a b <> Eq) (rows (conn_ w)) ->
    exists up : list Contact,
      get_contacts_sorted column true w = (Returned up, w) /\
      get_contacts_sorted column false w = (Returned (rev up), w).
Proof.
  intros w column cmp HL HC HT.
  pose proof (ordering_column _ _ _ HC) as O.
  destruct (get_contacts_sorted_runs w column true HL) as (c1 & C1 & E1).
  destruct (get_contacts_sorted_runs w column false HL) as (c2 & C2 & E2).
  rewrite HC in C1, C2. injection C1 as <-. injection C2 as <-.
  eexists. split; [exact E1 |].
  rewrite E2, <- map_rev.
  now rewrite (order_by_reversed cmp O (rows (conn_ w)) HT).
Qed.

Lemma get_contacts_sorted_reverses_witness :
  let w := world (connection Healthy true
                    [mkContact 1 "Ada" "Lovelace" "ada@example.com" "+44123";
                     mkContact 2 "Grace" "Hopper" "" "";
                     mkContact 3 "Alan" "Turing" "" ""] 4) in
  exists up : list Contact,
    get_contacts_sorted "last_name" true w = (Returned up, w) /\
    get_contacts_sorted "last_name" false w = (Returned (rev up), w).
Proof.
  intro w.
  apply (get_contacts_sorted_reverses w "last_name"
           (fun a b => compare_text binary_weight (last_name a) (last_name b)));
    [reflexivity | reflexivity |].
  repeat constructor; discriminate.
Defined.

End ListingFacts.

(** ** The order of the listings, against the specification *)

Module ListingOrder.
Import Text Validation Store Effects Driver DB Session DBRest.
Import TextFacts DBFacts DBRestFacts OrderFacts OrderMore.
Local Open Scope op_scope.

(** *** From the comparisons of the store to the orders of the
    specification *)

Lemma compare_text_le (w : string -> string) (s t : string) :
  compare_text w s t <> Gt -> text_le w s t.
Proof.
  unfold compare_text, text_le, text_lt. intro H.
  destruct (String.compare (w s) (w t)) eqn:C; [| | congruence].
  - right. now apply String.compare_eq_iff.
  - left. now apply OrderedTypeEx.String_as_OT.cmp_lt.
Qed.

Lemma ascending_not_gt (cmp : Contact -> Contact -> comparison) (a b : Contact) :
  ascending cmp a b = true -> cmp a b <> Gt.
Proof. unfold ascending. destruct (cmp a b); congruence. Qed.

Lemma ascending_names_le (w : string -> string) (a b : Contact) :
  in_order (ascending (compare_names w)) a b -> names_le w a b.
Proof.
  unfold in_order. intro H. apply ascending_not_gt in H.
  unfold compare_names in H. unfold names_le.
  destruct (compare_text w (last_name a) (last_name b)) eqn:L;
    [| | congruence].
  - right. split; [| now apply compare_text_le].
    now apply String.compare_eq_iff.
  - left. now apply OrderedTypeEx.String_as_OT.cmp_lt.
Qed.

Lemma ascending_column_le (w : string -> string) (column : string)
  (cmp : Contact -> Contact -> comparison) (a b : Contact) :
  compare_column w column = Some cmp ->
  ascending cmp a b = true -> column_le w column a b.
Proof.
  unfold compare_column, column_le. intros C H. apply ascending_not_gt in H.
  destruct (String.eqb_spec column "id") as [E|_].
  { injection C as <-. left. split; [exact E | exact H]. }
  destruct (String.eqb_spec column "first_name") as [E|_].
  { injection C as <-. right. left.
    split; [exact E | now apply compare_text_le]. }
  destruct (String.eqb_spec column "last_name") as [E|_].
  { injection C as <-. right. right. left.
    split; [exact E | now apply compare_text_le]. }
  destruct (String.eqb_spec column "email") as [E|_].
  { injection C as <-. right. right. right. left.
    split; [exact E | now apply compare_text_le]. }
  destruct (String.eqb_spec column "mobile") as [E|_]; [| discriminate].
  injection C as <-. right. right. right. right.
  split; [exact E | now apply compare_text_le].
Qed.

Lemma strongly_sorted_impl (R R' : Contact -> Contact -> Prop) (l : list Contact) :
  (forall a b, R a b -> R' a b) -> StronglySorted R l -> StronglySorted R' l.
Proof.
  intros I S. induction S as [|a l S IH F]; constructor; [exact IH |].
  revert F. apply Forall_impl. exact (I a).
Qed.

(** *** What [c_str] leaves of the order *)

Lemma fetch_names (r : Contact) :
  nul_free_names r = true ->
  last_name (fetch r) = last_name r /\ first_name (fetch r) = first_name r.
Proof.
  unfold nul_free_names, fetch. cbn [first_name last_name].
  rewrite andb_true_iff. intros [F L]. now rewrite !c_str_nul_free.
Qed.

Lemma names_le_fetch (w : string -> string) (a b : Contact) :
  nul_free_names a = true -> nul_free_names b = true ->
  names_le w a b -> names_le w (fetch a) (fetch b).
Proof.
  intros Na Nb. unfold names_le, text_le, text_lt.
  destruct (fetch_names a Na) as [-> ->].
  destruct (fetch_names b Nb) as [-> ->]. tauto.
Qed.

Lemma strongly_sorted_fetch (w : string -> string) (l : list Contact) :
  forallb nul_free_names l = true ->
  StronglySorted (names_le w) l -> StronglySorted (names_le w) (map fetch l).
Proof.
  intros N S. induction S as [|a l S IH F]; cbn [map]; [constructor |].
  cbn [forallb] in N. apply andb_true_iff in N. destruct N as [Na Nl].
  constructor; [now apply IH |].
  apply Forall_forall. intros x Hx. apply in_map_iff in Hx.
  destruct Hx as (b & <- & Hb).
  rewrite Forall_forall in F. rewrite forallb_forall in Nl.
  apply names_le_fetch; auto.
Qed.

Lemma text_lt_irrefl (w : string -> string) (s : string) : ~ text_lt w s s.
Proof.
  intro H. now apply (OrderedTypeEx.String_as_OT.lt_not_eq _ _ H).
Qed.

(** *** The full listing *)

(** C9, as the code has it. In every state [search_contacts ""] is
    [get_all_contacts]: the same outcome, the same contacts in the same
    order, the same state afterwards.  On a healthy connection that common
    result is the table, every row once, each field read through [c_str],
    the rows taken in ascending order of [(last_name, first_name)] as they
    are stored: each row has the smaller last name than every later one, or
    the same last name and a first name that is not greater.  When no
    stored name holds a NUL byte the contacts returned are in that order
    themselves; when no stored field holds one they are the rows. *)
Theorem search_empty_is_get_all :
  forall w : World,
    search_contacts "" w = get_all_contacts w /\
    (link (conn_ w) = Healthy ->
     exists stored : list Contact,
       get_all_contacts w = (Returned (map fetch stored), w) /\
       Permutation stored (rows (conn_ w)) /\
       StronglySorted (names_le (weight (conn_ w))) stored /\
       (forallb nul_free_names (rows (conn_ w)) = true ->
        StronglySorted (names_le (weight (conn_ w))) (map fetch stored)) /\
       (forallb nul_free_row (rows (conn_ w)) = true ->
        map fetch stored = stored)).
Proof.
  intro w. split; [reflexivity |].
  intro HL. destruct w as [[l st fr wt lk rs tx nx] o e].
  cbn [conn_ link rows weight] in *. subst l.
  exists (order_by (ascending (compare_names wt)) rs).
  assert (S : StronglySorted (names_le wt)
                             (order_by (ascending (compare_names wt)) rs)).
  { apply strongly_sorted_impl
      with (R := in_order (ascending (compare_names wt)));
      [apply ascending_names_le |].
    apply order_by_strongly_sorted;
      [apply (ascending_total' _ (ordering_names wt))
      | apply (ascending_trans _ (ordering_names wt))]. }
  split; [reflexivity |].
  split; [apply order_by_perm |].
  split; [exact S |].
  split.
  - intro N. apply strongly_sorted_fetch; [| exact S].
    apply forallb_perm with (l' := rs); [apply order_by_perm | exact N].
  - intro N. apply map_fetch_nul_free.
    apply forallb_perm with (l' := rs); [apply order_by_perm | exact N].
Qed.

Lemma search_empty_is_get_all_witness :
  let w := world (connection Healthy true
                    [mkContact 1 "Ada" "Lovelace" "ada@example.com" "+44123";
                     mkContact 2 "Grace" "Hopper" "" ""] 3) in
  search_contacts "" w = get_all_contacts w /\
  exists stored : list Contact,
    get_all_contacts w = (Returned (map fetch stored), w) /\
    Permutation stored (rows (conn_ w)) /\
    StronglySorted (names_le (weight (conn_ w))) stored /\
    StronglySorted (names_le (weight (conn_ w))) (map fetch stored) /\
    map fetch stored = stored.
Proof.
  intro w. destruct (search_empty_is_get_all w) as [E H].
  split; [exact E |].
  destruct (H eq_refl) as (stored & G & P & S & N1 & N2).
  exists stored. repeat split; try assumption.
  - apply N1. reflexivity.
  - apply N2. reflexivity.
Defined.

(** C9 as stated fails: the listing is not in [(last_name, first_name)]
    order in every state of the store.  Import, which checks nothing, two
    contacts: "z" with the last name "a", and "a" with the last name "a"
    followed by a NUL byte.  The store puts the shorter last name first;
    [c_str] then cuts the other at the NUL, and both [get_all_contacts] and
    [search_contacts ""] return "z a" before "a a". *)
Lemma listing_out_of_order :
  let zed := mkContact 0 "z" "a" "" "" in
  let ann := mkContact 0 "a" (String "a" (String NUL "")) "" "" in
  let w := world (connection Healthy true [] 1) in
  let listed := [mkContact 1 "z" "a" "" ""; mkContact 2 "a" "a" "" ""] in
  fst ((import_contacts [zed; ann] ;; get_all_contacts) w) = Returned listed /\
  fst ((import_contacts [zed; ann] ;; search_contacts "") w) = Returned listed /\
  ~ names_le binary_weight (mkContact 1 "z" "a" "" "") (mkContact 2 "a" "a" "" "") /\
  ~ Sorted (names_le binary_weight) listed.
Proof.
  assert (N : ~ names_le binary_weight (mkContact 1 "z" "a" "" "")
                         (mkContact 2 "a" "a" "" "")).
  { unfold names_le, text_le, binary_weight. cbn [last_name first_name].
    intros [L|[_ [L|E]]].
    - now apply (text_lt_irrefl (fun s => s) "a").
    - apply OrderedTypeEx.String_as_OT.cmp_lt in L. discriminate.
    - discriminate. }
  split; [reflexivity | split; [reflexivity | split; [exact N |]]].
  intro S. inversion S as [|? ? _ H]; subst.
  inversion H as [|? ? L]; subst. exact (N L).
Qed.

(** *** The sorted listing *)

Lemma order_by_sorted_on (w : string -> string) (column : string)
  (cmp : Contact -> Contact -> comparison) (asc : bool) (l : list Contact) :
  compare_column w column = Some cmp ->
  sorted_on w column asc
            (order_by (if asc then ascending cmp else descending cmp) l).
Proof.
  intro C. pose proof (ordering_column _ _ _ C) as O. unfold sorted_on.
  destruct asc.
  - apply strongly_sorted_impl with (R := in_order (ascending cmp)).
    + intros a b. apply (ascending_column_le w column cmp a b C).
    + apply order_by_strongly_sorted;
        [apply (ascending_total' _ O) | apply (ascending_trans _ O)].
  - apply strongly_sorted_impl with (R := in_order (descending cmp)).
    + intros a b. unfold in_order, directed.
      rewrite (descending_ascending cmp O).
      apply (ascending_column_le w column cmp b a C).
    + apply order_by_strongly_sorted;
        [apply (descending_total' _ O) | apply (descending_trans _ O)].
Qed.

Lemma sanitize_listed (column : string) :
  In column ["id"; "first_name"; "last_name"; "email"; "mobile"] ->
  sanitize_column_name column = column.
Proof.
  intro I. unfold sanitize_column_name.
  destruct (find_string column valid_columns) eqn:F; [reflexivity |].
  pose proof (proj2 (find_string_In column valid_columns) I). congruence.
Qed.

Lemma sanitize_unlisted (column : string) :
  ~ In column ["id"; "first_name"; "last_name"; "email"; "mobile"] ->
  sanitize_column_name column = "last_name".
Proof.
  intro N. unfold sanitize_column_name.
  destruct (find_string column valid_columns) eqn:F; [| reflexivity].
  apply find_string_In in F. contradiction.
Qed.

(** On a healthy connection [get_contacts_sorted] returns the table,
    every row once, each field read through [c_str], the rows taken in the
    order of the column asked for as they are stored: by [id] as a number,
    by one of the four texts as the collation has it, each row before or
    with every later one when ascending, after or with it when descending;
    a column that is not one of the five names gives the order of
    ["last_name"].  When no stored field holds a NUL byte the list returned
    is itself the table, every row once, in that order.  A column that is
    not one of the five names gives exactly what ["last_name"] gives. *)
Theorem get_contacts_sorted_sorts :
  forall (w : World) (column : string) (asc : bool),
    link (conn_ w) = Healthy ->
    (exists stored : list Contact,
       get_contacts_sorted column asc w = (Returned (map fetch stored), w) /\
       listed_on (weight (conn_ w)) column asc (rows (conn_ w)) stored) /\
    (forallb nul_free_row (rows (conn_ w)) = true ->
     exists result : list Contact,
       get_contacts_sorted column asc w = (Returned result, w) /\
       listed_on (weight (conn_ w)) column asc (rows (conn_ w)) result) /\
    (~ In column ["id"; "first_name"; "last_name"; "email"; "mobile"] ->
     get_contacts_sorted column asc w = get_contacts_sorted "last_name" asc w).
Proof.
  intros w column asc HL.
  destruct (get_contacts_sorted_runs w column asc HL) as (cmp & C & E).
  assert (L : listed_on (weight (conn_ w)) column asc (rows (conn_ w))
                (order_by (if asc then ascending cmp else descending cmp)
                          (rows (conn_ w)))).
  { split; [apply order_by_perm |]. split.
    - intro I. rewrite (sanitize_listed column I) in C.
      now apply order_by_sorted_on.
    - intro N. rewrite (sanitize_unlisted column N) in C.
      now apply order_by_sorted_on. }
  split; [| split].
  - eexists. split; [exact E | exact L].
  - intro N. eexists. split; [| exact L].
    rewrite E. rewrite map_fetch_nul_free; [reflexivity |].
    apply forallb_perm with (l' := rows (conn_ w));
      [apply order_by_perm | exact N].
  - intro N. unfold get_contacts_sorted, sorted_query.
    now rewrite (sanitize_unlisted column N).
Qed.

Lemma get_contacts_sorted_sorts_witness :
  let ada := mkContact 1 "Ada" "Lovelace" "ada@example.com" "+44123" in
  let grace := mkContact 2 "Grace" "Hopper" "" "" in
  let w := world (connection Healthy true [ada; grace] 3) in
  (exists result : list Contact,
     get_contacts_sorted "email" false w = (Returned result, w) /\
     listed_on (weight (conn_ w)) "email" false (rows (conn_ w)) result) /\
  get_contacts_sorted "email" false w = (Returned [ada; grace], w) /\
  get_contacts_sorted "email" true w = (Returned [grace; ada], w).
Proof.
  intros ada grace w. split; [| split; reflexivity].
  destruct (get_contacts_sorted_sorts w "email" false eq_refl) as (_ & H & _).
  apply H. reflexivity.
Defined.

End ListingOrder.

(** ** What every sequence of calls keeps *)

Module SessionMoreFacts.
Import Text Validation Store Effects Driver DB Session DBRest SessionMore.
Import DBFacts SessionFacts DBRestFacts.
Local Open Scope op_scope.

Ltac by_link' w :=
  destruct w as [[lnk st fr wt lk rs tx nx] out err];
  destruct lnk as [|[|n]]; run_all.

Lemma NoDup_ids_filter (keep : Contact -> bool) (l : list Contact) :
  NoDup (map id l) -> NoDup (map id (filter keep l)).
Proof.
  induction l as [|x l IH]; cbn [map filter]; intro H; [constructor |].
  inversion H as [|? ? Hx Hl]; subst.
  destruct (keep x); cbn [map]; [| now apply IH].
  constructor; [| now apply IH].
  intro I. apply Hx. apply in_map_iff in I. destruct I as (y & E & I).
  apply filter_In in I. apply in_map_iff. exists y. tauto.
Qed.

Lemma ids_replaced (i : Z) (row : Contact) (l : list Contact) :
  id row = i ->
  map id (map (fun r => if has_id i r then row else r) l) = map id l.
Proof.
  intro E. induction l as [|x l IH]; cbn [map]; [reflexivity |].
  rewrite IH. f_equal. unfold has_id.
  destruct (Z.eqb_spec (id x) i); congruence.
Qed.

Lemma NoDup_ids_fresh (l : list Contact) (row : Contact) (nx : Z) :
  Forall (fun r => (id r < nx)%Z) l -> id row = nx ->
  NoDup (map id l) -> NoDup (map id (l ++ [row])).
Proof.
  intros B E N. rewrite map_app. apply NoDup_app; [exact N | |].
  - cbn [map]. constructor; [intros [] | constructor].
  - intros a I [<-|[]]. apply in_map_iff in I. destruct I as (r & Er & I).
    rewrite Forall_forall in B. specialize (B r I). lia.
Qed.

Ltac open_numbered :=
  unfold numbered_rows, counted, counter_above, keyed in *;
  cbn [conn_ rows txn next_id] in *.

Lemma numbered_transmit : preserves numbered_rows transmit.
Proof. intros w H. by_link' w; exact H. Qed.

Lemma numbered_isValid : preserves numbered_rows isValid.
Proof. intros w H. by_link' w; exact H. Qed.

Lemma numbered_print_cout (s : string) : preserves numbered_rows (print_cout s).
Proof. intros w H. exact H. Qed.

Lemma numbered_print_cerr (s : string) : preserves numbered_rows (print_cerr s).
Proof. intros w H. exact H. Qed.

Lemma numbered_setAutoCommit (b : bool) :
  preserves numbered_rows (setAutoCommit b).
Proof.
  intros w H. by_link' w; open_numbered;
    destruct b; run_all; try destruct tx; run_all; open_numbered; tauto.
Qed.

Lemma numbered_commit : preserves numbered_rows commit.
Proof.
  intros w H. by_link' w; open_numbered;
    try destruct tx; run_all; open_numbered; tauto.
Qed.

Lemma numbered_rollback : preserves numbered_rows rollback.
Proof.
  intros w H. by_link' w; open_numbered;
    try destruct tx; run_all; open_numbered; tauto.
Qed.

Lemma numbered_update_insert (f l e m : string) :
  preserves numbered_rows (update_insert f l e m).
Proof.
  intros w [C K].
  split; [exact (counted_update_insert f l e m w C) |].
  destruct C as [C1 C2]. destruct K as [K1 K2].
  by_link' w; open_numbered; try tauto;
    (destruct (store_row st nx f l e m) as [row|] eqn:S; run_all;
     open_numbered; try tauto;
     destruct (INT_MAX <? nx)%Z; run_all; open_numbered; try tauto;
     apply store_row_id in S;
     split; [now apply NoDup_ids_fresh with (nx := nx) | exact K2]).
Qed.

Lemma numbered_update_update (f l e m : string) (i : Z) :
  preserves numbered_rows (update_update f l e m i).
Proof.
  intros w [C K].
  split; [exact (counted_update_update f l e m i w C) |].
  destruct K as [K1 K2].
  by_link' w; open_numbered; try tauto;
    (destruct (filter (has_id i) rs); run_all; open_numbered; try tauto;
     destruct (store_row st i f l e m) as [row|] eqn:S; run_all;
     open_numbered; try tauto;
     apply store_row_id in S;
     split; [now rewrite ids_replaced | exact K2]).
Qed.

Lemma numbered_update_delete (i : Z) : preserves numbered_rows (update_delete i).
Proof.
  intros w [C K].
  split; [exact (counted_update_delete i w C) |].
  destruct K as [K1 K2].
  by_link' w; open_numbered; try tauto;
    (split; [now apply NoDup_ids_filter | exact K2]).
Qed.

Lemma numbered_update_delete_all : preserves numbered_rows update_delete_all.
Proof.
  intros w [[C1 C2] [K1 K2]].
  by_link' w; open_numbered; try tauto;
    (repeat split; try assumption; constructor).
Qed.

Lemma numbered_query_by_id (i : Z) : preserves numbered_rows (query_by_id i).
Proof. intros w H. by_link' w; exact H. Qed.

Lemma numbered_query_all : preserves numbered_rows query_all.
Proof. intros w H. by_link' w; exact H. Qed.

Lemma numbered_query_like (p1 p2 p3 p4 : string) :
  preserves numbered_rows (query_like p1 p2 p3 p4).
Proof. intros w H. by_link' w; exact H. Qed.

Lemma numbered_query_order_by (col order : string) :
  preserves numbered_rows (query_order_by col order).
Proof. intros w H. by_link' w; repeat split_goal; exact H. Qed.

Lemma numbered_query_count : preserves numbered_rows query_count.
Proof. intros w H. by_link' w; exact H. Qed.

Lemma numbered_ensure_connection : preserves numbered_rows ensure_connection.
Proof.
  unfold ensure_connection. apply preserves_bind; [exact numbered_isValid |].
  intros []; [apply preserves_ret | apply preserves_throw].
Qed.

Ltac keep_numbered :=
  repeat (first
    [ keep_step
    | exact numbered_transmit | exact numbered_isValid
    | apply numbered_print_cout | apply numbered_print_cerr
    | apply numbered_setAutoCommit | exact numbered_commit
    | exact numbered_rollback | apply numbered_update_insert
    | apply numbered_update_update | apply numbered_update_delete
    | exact numbered_update_delete_all | exact numbered_ensure_connection
    | apply numbered_query_by_id | exact numbered_query_all
    | apply numbered_query_like | apply numbered_query_order_by
    | exact numbered_query_count | assumption ]).

Lemma numbered_import_loop (cs : list Contact) :
  preserves numbered_rows (import_loop cs).
Proof.
  induction cs as [|c cs IH]; cbn [import_loop]; keep_numbered.
Qed.

Lemma numbered_serve (r : request) (w : World) :
  numbered_rows w -> numbered_rows (serve r w).
Proof.
  revert w.
  destruct r as [[|f l e m|i f l e m|i|i| |q|col asc| |cs]| |];
    cbn [serve perform].
  - change (preserves numbered_rows test_connection).
    unfold test_connection, query_select_1, prepareStatement. keep_numbered.
  - change (preserves numbered_rows (insert_contact f l e m)).
    unfold insert_contact, prepareStatement. keep_numbered.
  - change (preserves numbered_rows (update_contact i f l e m)).
    unfold update_contact, prepareStatement. keep_numbered.
  - change (preserves numbered_rows (delete_contact i)).
    unfold delete_contact, prepareStatement. keep_numbered.
  - change (preserves numbered_rows (get_contact_by_id i)).
    unfold get_contact_by_id, prepareStatement. keep_numbered.
  - change (preserves numbered_rows get_all_contacts).
    unfold get_all_contacts, prepareStatement. keep_numbered.
  - change (preserves numbered_rows (search_contacts q)).
    unfold search_contacts, get_all_contacts, prepareStatement. keep_numbered.
  - change (preserves numbered_rows (get_contacts_sorted col asc)).
    unfold get_contacts_sorted, prepareStatement. keep_numbered.
  - change (preserves numbered_rows get_contact_count).
    unfold get_contact_count, prepareStatement. keep_numbered.
  - change (preserves numbered_rows (import_contacts cs)).
    unfold import_contacts, prepareStatement.
    pose proof (numbered_import_loop cs). keep_numbered.
  - change (preserves numbered_rows delete_all_contacts).
    unfold delete_all_contacts, prepareStatement. keep_numbered.
  - change (preserves numbered_rows initialize_schema).
    unfold initialize_schema, prepareStatement, execute_create_table.
    keep_numbered.
Qed.

Lemma idle_serve (r : request) (w : World) : idle w -> idle (serve r w).
Proof.
  destruct r as [c| |]; cbn [serve]; [apply idle_perform | |];
    unfold idle, settled, delete_all_contacts, initialize_schema;
    intro H; by_exchanges w; cbn [conn_ txn link] in *;
    intuition congruence.
Qed.

(** Whatever requests are made and however each of them ends, a [DB]
    object that starts with the [AUTO_INCREMENT] counter above every id, no
    two rows with the same id and auto-commit on (or a dead link) is in
    such a state again after every request: ids stay distinct and below the
    counter, and no transaction is left open on a link that still works. *)
Theorem session_stays_sound :
  forall w w' : World, sound w -> leads_to w w' -> sound w'.
Proof.
  intros w w' S L. induction L as [|w' r L IH]; [exact S |].
  destruct IH as (C & K & I).
  destruct (numbered_serve r w' (conj C K)) as [C' K'].
  split; [exact C' |]. split; [exact K' |].
  now apply (idle_serve r w').
Qed.

Lemma session_stays_sound_witness :
  let ada := mkContact 1 "Ada" "Lovelace" "ada@example.com" "+44123" in
  let w := world (connection Healthy true [ada] 2) in
  sound
    (serve DeleteAll
       (serve (Call (Import [mkContact 0 "Grace" "Hopper" "" ""]))
          (serve (Call (Delete 1)) w))).
Proof.
  intros ada w.
  apply (session_stays_sound w).
  - unfold sound, counter_above, keyed, settled. cbn.
    repeat split; repeat constructor; try lia; try (intros []).
  - repeat apply and_then. apply stay.
Defined.

End SessionMoreFacts.

(** ** The CSV files of the main window *)

Module CsvFacts.
Import Text Store Effects Driver DB DBRest Streams Gui Windows TextFacts.

Lemma plain_unlike (s : string) :
  plain s = all (unlike comma) s && all (unlike LF) s.
Proof.
  unfold plain, unlike. induction s as [|c s IH]; [reflexivity |].
  cbn [all]. rewrite IH.
  destruct (Ascii.eqb c comma), (Ascii.eqb c LF), (all _ s), (all _ s);
    reflexivity.
Qed.

Lemma extract_found (d : ascii) (field rest : string) :
  all (unlike d) field = true ->
  extract d (field ++ String d rest) = (field, Some rest).
Proof.
  induction field as [|c field IH]; cbn [all append extract]; intro H.
  - now rewrite Ascii.eqb_refl.
  - apply andb_true_iff in H. destruct H as [Hc H].
    unfold unlike in Hc. apply negb_true_iff in Hc. rewrite Hc.
    now rewrite (IH H).
Qed.

Lemma extract_end (d : ascii) (field : string) :
  all (unlike d) field = true -> extract d field = (field, None).
Proof.
  induction field as [|c field IH]; cbn [all extract]; intro H; [reflexivity |].
  apply andb_true_iff in H. destruct H as [Hc H].
  unfold unlike in Hc. apply negb_true_iff in Hc. rewrite Hc.
  now rewrite (IH H).
Qed.

Lemma extract_shorter (d : ascii) (s field rest : string) :
  extract d s = (field, Some rest) -> String.length rest < String.length s.
Proof.
  revert field. induction s as [|c s IH]; cbn [extract]; intros field H;
    [discriminate |].
  destruct (Ascii.eqb c d).
  - injection H as _ <-. cbn [String.length]. lia.
  - destruct (extract d s) as [f r] eqn:E. injection H as _ ->.
    specialize (IH f eq_refl). cbn [String.length]. lia.
Qed.

(** What [extract] hands on is made of bytes of its argument, and the
    field holds no delimiter. *)
Lemma extract_all (p : ascii -> bool) (d : ascii) (s : string) :
  all p s = true ->
  all p (fst (extract d s)) = true /\
  all (unlike d) (fst (extract d s)) = true /\
  match snd (extract d s) with
  | Some rest => all p rest = true
  | None => True
  end.
Proof.
  induction s as [|c s IH]; cbn [all extract]; intro H; [now repeat split |].
  apply andb_true_iff in H. destruct H as [Hc H].
  destruct (Ascii.eqb c d) eqn:E; cbn [fst snd all]; [now repeat split |].
  destruct (IH H) as (A & B & C).
  destruct (extract d s) as [f r]. cbn [fst snd all] in *.
  unfold unlike at 1. now rewrite Hc, E, A, B.
Qed.

Lemma getline_found (d : ascii) (field rest str : string) :
  all (unlike d) field = true ->
  getline (opened (field ++ String d rest)) str d = (opened rest, field).
Proof.
  intro H. unfold getline, opened, good. cbn [buffer eofbit failbit negb andb].
  now rewrite (extract_found d field rest H).
Qed.

Lemma getline_last (d : ascii) (field str : string) :
  all (unlike d) field = true ->
  snd (getline (opened field) str d) = field.
Proof.
  intro H. unfold getline, opened, good. cbn [buffer eofbit failbit negb andb].
  now rewrite (extract_end d field H).
Qed.

(** A line of the export is split into the four fields it was made of. *)
Lemma split_csv_line (first last email mobile : string) :
  all (unlike comma) first = true -> all (unlike comma) last = true ->
  all (unlike comma) email = true -> all (unlike comma) mobile = true ->
  split_line (first ++ "," ++ last ++ "," ++ email ++ "," ++ mobile)
  = (first, last, email, mobile).
Proof.
  intros Hf Hl He Hm. unfold split_line.
  change ("," ++ last ++ "," ++ email ++ "," ++ mobile)%string
    with (String comma (last ++ String comma (email ++ String comma mobile))).
  rewrite (getline_found comma first _ "" Hf).
  rewrite (getline_found comma last _ "" Hl).
  rewrite (getline_found comma email _ "" He).
  pose proof (getline_last comma mobile "" Hm) as L.
  destruct (getline (opened mobile) "" comma) as [ss m]. cbn [snd] in L.
  now subst m.
Qed.

Lemma portable_fields (c : Contact) :
  portable c = true ->
  (negb (empty (first_name c)) || negb (empty (last_name c))) = true /\
  (all (unlike comma) (first_name c) = true /\
   all (unlike comma) (last_name c) = true /\
   all (unlike comma) (email c) = true /\
   all (unlike comma) (mobile c) = true) /\
  all (unlike LF)
      (first_name c ++ "," ++ last_name c ++ "," ++ email c ++ "," ++ mobile c)
  = true.
Proof.
  unfold portable. rewrite !plain_unlike, !andb_true_iff.
  intros [[[[V [F1 F2]] [L1 L2]] [E1 E2]] [M1 M2]].
  split; [exact V |]. split; [now repeat split |].
  rewrite !all_append, F2, L2, E2, M2. reflexivity.
Qed.

Lemma csv_line_split (c : Contact) :
  csv_line c
  = (first_name c ++ "," ++ last_name c ++ "," ++ email c ++ "," ++ mobile c)
    ++ String LF "".
Proof. unfold csv_line. now rewrite !append_assoc. Qed.

(** The loop over the lines of an export, after the header. *)
Lemma read_loop_lines (cs : list Contact) :
  forall (fuel : nat) (line : string) (acc : list Contact),
    length cs < fuel ->
    forallb portable cs = true ->
    read_loop fuel (opened (String.concat "" (map csv_line cs))) line false acc
    = Some (acc ++ map unnumbered cs)%list.
Proof.
  induction cs as [|c cs IH]; intros fuel line acc B P.
  - destruct fuel as [|fuel]; [cbn [length] in B; lia |].
    cbn [map String.concat read_loop]. now rewrite app_nil_r.
  - destruct fuel as [|fuel]; [cbn [length] in B; lia |].
    cbn [forallb] in P. apply andb_true_iff in P. destruct P as [Pc P].
    destruct (portable_fields c Pc) as (V & (Hf & Hl & He & Hm) & HL).
    assert (E : String.concat "" (map csv_line (c :: cs))
                = (first_name c ++ "," ++ last_name c ++ "," ++ email c ++ ","
                   ++ mobile c)
                  ++ String LF (String.concat "" (map csv_line cs))).
    { cbn [map]. destruct cs as [|c' cs'].
      - cbn [map String.concat]. now rewrite csv_line_split.
      - cbn [map String.concat]. cbn [append].
        rewrite csv_line_split, append_assoc. reflexivity. }
    rewrite E. cbn [read_loop].
    rewrite (getline_found LF _ _ line HL).
    cbn [ok opened failbit negb].
    rewrite (split_csv_line _ _ _ _ Hf Hl He Hm), V.
    rewrite (IH fuel); [| cbn [length] in B; lia | exact P].
    cbn [map]. unfold unnumbered at 2. now rewrite <- app_assoc.
Qed.

Lemma csv_text_longer (cs : list Contact) :
  length cs <= String.length (String.concat "" (map csv_line cs)).
Proof.
  induction cs as [|c cs IH]; [cbn; lia |].
  assert (E : String.length (String.concat "" (map csv_line (c :: cs)))
              = String.length (csv_line c)
                + String.length (String.concat "" (map csv_line cs))).
  { cbn [map]. destruct cs as [|c' cs'].
    - cbn [map String.concat String.length]. lia.
    - cbn [map String.concat]. cbn [append]. now rewrite length_append. }
  rewrite E. rewrite csv_line_split, length_append. cbn [length String.length].
  lia.
Qed.

Lemma read_loop_header (fuel : nat) (body line : string) (acc : list Contact) :
  read_loop (S fuel) (opened (csv_header ++ body)) line true acc
  = read_loop fuel (opened body) "First Name,Last Name,Email,Mobile" false acc.
Proof.
  assert (E : (csv_header ++ body)%string
              = ("First Name,Last Name,Email,Mobile" ++ String LF body)%string).
  { unfold csv_header. now rewrite append_assoc. }
  rewrite E. cbn [read_loop].
  now rewrite (getline_found LF "First Name,Last Name,Email,Mobile" body line
                 eq_refl).
Qed.

(** What the export writes, the import reads back: for contacts that
    have a first or a last name and no comma or line feed in any field,
    reading the text of their export gives the same contacts, in the
    same order, each with id 0; the header line is skipped. *)
Theorem csv_round_trip :
  forall contacts : list Contact,
    forallb portable contacts = true ->
    read_contacts (csv_text contacts) = map unnumbered contacts.
Proof.
  intros cs P. unfold read_contacts, csv_text.
  rewrite Nat.add_comm. change (2 + ?n) with (S (S n)).
  rewrite read_loop_header.
  rewrite (read_loop_lines cs); [reflexivity | | exact P].
  rewrite length_append. pose proof (csv_text_longer cs). lia.
Qed.

Lemma csv_round_trip_witness :
  let contacts := [mkContact 4 "Ada" "Lovelace" "ada@example.com" "+44 123";
                   mkContact 9 "" "Hopper" "" ""] in
  read_contacts (csv_text contacts) = map unnumbered contacts.
Proof.
  intro contacts. apply (csv_round_trip contacts). reflexivity.
Defined.

(** *** What the import reads *)

Lemma all_true (s : string) : all (fun _ => true) s = true.
Proof. induction s as [|c s IH]; [reflexivity | exact IH]. Qed.

Lemma getline_plain (ins : istream) (str : string) :
  all (unlike LF) (buffer ins) = true -> plain str = true ->
  all (unlike LF) (buffer (fst (getline ins str comma))) = true /\
  plain (snd (getline ins str comma)) = true.
Proof.
  intros B P. unfold getline. destruct (good ins); [| now split].
  destruct (extract_all (unlike LF) comma (buffer ins) B) as (F1 & F2 & F3).
  destruct (extract comma (buffer ins)) as [field [rest|]];
    cbn [fst snd buffer] in *; rewrite plain_unlike, F1, F2; now split.
Qed.

Lemma split_line_plain (line : string) :
  all (unlike LF) line = true ->
  let '(first, last, email, mobile) := split_line line in
  plain first = true /\ plain last = true /\ plain email = true /\
  plain mobile = true.
Proof.
  intro L. unfold split_line.
  pose proof (getline_plain (opened line) "" L eq_refl) as [B1 P1].
  destruct (getline (opened line) "" comma) as [s1 first]. cbn [fst snd] in *.
  pose proof (getline_plain s1 "" B1 eq_refl) as [B2 P2].
  destruct (getline s1 "" comma) as [s2 last]. cbn [fst snd] in *.
  pose proof (getline_plain s2 "" B2 eq_refl) as [B3 P3].
  destruct (getline s2 "" comma) as [s3 email]. cbn [fst snd] in *.
  pose proof (getline_plain s3 "" B3 eq_refl) as [B4 P4].
  destruct (getline s3 "" comma) as [s4 mobile]. cbn [fst snd] in *.
  now repeat split.
Qed.

Lemma line_as_read (line : string) (acc : list Contact) :
  all (unlike LF) line = true ->
  Forall as_read acc ->
  let '(first, last, email, mobile) := split_line line in
  Forall as_read
         (if negb (empty first) || negb (empty last)
          then acc ++ [mkContact 0 first last email mobile]
          else acc)%list.
Proof.
  intros L A. pose proof (split_line_plain line L) as P.
  destruct (split_line line) as [[[f l] e] m].
  destruct P as (P1 & P2 & P3 & P4).
  destruct (negb (empty f) || negb (empty l)) eqn:V; [| exact A].
  apply Forall_app. split; [exact A |]. constructor; [| constructor].
  split; [reflexivity |]. unfold portable.
  cbn [first_name last_name email mobile]. now rewrite V, P1, P2, P3, P4.
Qed.

(** The loop ends within the rounds [read_contacts] allows, and what it
    has added is as described. *)
Lemma read_loop_ends (fuel : nat) :
  forall (ins : istream) (line : string) (first_line : bool)
         (acc : list Contact),
    rounds ins < fuel ->
    Forall as_read acc ->
    exists contacts,
      read_loop fuel ins line first_line acc = Some contacts /\
      Forall as_read contacts.
Proof.
  induction fuel as [|fuel IH]; intros ins line first_line acc B A; [lia |].
  cbn [read_loop]. unfold rounds in B. unfold getline.
  destruct (good ins) eqn:G.
  2:{ cbn [ok failbit negb]. eauto. }
  pose proof (extract_shorter LF (buffer ins)) as Sh.
  destruct (extract_all (fun _ => true) LF (buffer ins) (all_true _))
    as (_ & NL & _).
  destruct (extract LF (buffer ins)) as [field rest]. cbn [fst] in NL.
  pose proof (line_as_read field acc NL A) as Body.
  assert (R : rounds (match rest with
                      | Some rest => mkStream rest false false
                      | None => mkStream "" true (empty field)
                      end) < fuel).
  { destruct rest as [rest|].
    - specialize (Sh field rest eq_refl). unfold rounds, good.
      cbn [buffer eofbit failbit negb andb]. lia.
    - unfold rounds, good. cbn [eofbit negb andb]. lia. }
  destruct rest as [rest|].
  - cbn [ok failbit negb].
    destruct first_line; [now apply IH |].
    destruct (split_line field) as [[[f l] e] m].
    destruct (negb (empty f) || negb (empty l)); now apply IH.
  - unfold ok. cbn [failbit]. destruct (empty field); cbn [negb]; [eauto |].
    destruct first_line; [now apply IH |].
    destruct (split_line field) as [[[f l] e] m].
    destruct (negb (empty f) || negb (empty l)); now apply IH.
Qed.

(** Rounds that the loop does not need change nothing. *)
Lemma read_loop_more (fuel : nat) :
  forall (ins : istream) (line : string) (first_line : bool)
         (acc contacts : list Contact),
    read_loop fuel ins line first_line acc = Some contacts ->
    read_loop (S fuel) ins line first_line acc = Some contacts.
Proof.
  induction fuel as [|fuel IH]; intros ins line first_line acc contacts;
    [discriminate |].
  intro H. cbn [read_loop] in H.
  change (read_loop (S (S fuel)) ins line first_line acc)
    with (let (infile, line) := getline ins line LF in
          if ok infile then
            if first_line then read_loop (S fuel) infile line false acc
            else
              let '(first, last, email, mobile) := split_line line in
              if negb (empty first) || negb (empty last)
              then read_loop (S fuel) infile line false
                     (acc ++ [mkContact 0 first last email mobile])
              else read_loop (S fuel) infile line false acc
          else Some acc).
  destruct (getline ins line LF) as [infile line'].
  destruct (ok infile); [| exact H].
  destruct first_line; [now apply IH |].
  destruct (split_line line') as [[[f l] e] m].
  destruct (negb (empty f) || negb (empty l)); now apply IH.
Qed.

Lemma read_loop_enough (fuel more : nat) (ins : istream) (line : string)
  (first_line : bool) (acc contacts : list Contact) :
  read_loop fuel ins line first_line acc = Some contacts ->
  fuel <= more ->
  read_loop more ins line first_line acc = Some contacts.
Proof.
  intros H L. induction L as [|more L IH]; [exact H |].
  now apply read_loop_more.
Qed.

(** Whatever the file holds, the loop of the import ends: two rounds
    more than the file has bytes reach its end, and further rounds change
    nothing.  What it then hands to [import_contacts] are contacts with
    id 0, each with a first or a last name (the test of
    [Contact::is_valid]) and without comma or line feed in any field.  The
    emails are not checked. *)
Theorem read_contacts_as_read :
  forall text : string,
    exists contacts : list Contact,
      (forall fuel : nat,
         String.length text + 2 <= fuel ->
         read_loop fuel (opened text) "" true [] = Some contacts) /\
      read_contacts text = contacts /\
      Forall (fun c => id c = 0%Z /\ is_valid c = true /\ portable c = true)
             contacts.
Proof.
  intro text. unfold read_contacts.
  destruct (read_loop_ends (String.length text + 2) (opened text) "" true [])
    as (contacts & E & H).
  - unfold rounds, opened, good. cbn [buffer eofbit failbit negb andb]. lia.
  - constructor.
  - exists contacts. rewrite E. split; [| split; [reflexivity |]].
    + intros fuel B.
      now apply read_loop_enough with (fuel := String.length text + 2).
    + revert H. apply Forall_impl. intros c [I P]. repeat split; try assumption.
      unfold portable in P. rewrite !andb_true_iff in P.
      unfold is_valid. tauto.
Qed.

End CsvFacts.

(** ** The contact dialog *)

Module TrimFacts.
Import Text Validation TextFacts ValidationFacts.

Lemma strip_leading_split (s : string) :
  exists pre, s = pre ++ strip_leading s /\ all is_space pre = true.
Proof.
  induction s as [|c s (pre & E & A)]; [now exists "" |].
  cbn [strip_leading]. destruct (is_space c) eqn:Sp.
  - exists (String c pre). cbn [append all]. now rewrite <- E, Sp, A.
  - now exists "".
Qed.

Lemma strip_leading_head (s : string) (c : ascii) (t : string) :
  strip_leading s = String c t -> is_space c = false.
Proof.
  induction s as [|a s IH]; cbn [strip_leading]; [discriminate |].
  destruct (is_space a) eqn:Sp; [exact IH |].
  intro H. injection H as <- _. exact Sp.
Qed.

Lemma strip_trailing_split (s : string) :
  exists post, s = strip_trailing s ++ post /\ all is_space post = true.
Proof.
  induction s as [|c s (post & E & A)]; [now exists "" |].
  cbn [strip_trailing]. destruct (strip_trailing s) as [|b r].
  - cbn [append] in E. subst post. destruct (is_space c) eqn:Sp.
    + exists (String c s). cbn [append all]. now rewrite Sp, A.
    + now exists s.
  - exists post. cbn [append] in *. now rewrite <- E.
Qed.

Lemma strip_trailing_last (s : string) :
  forall (t : string) (c : ascii),
    strip_trailing s = t ++ String c "" -> is_space c = false.
Proof.
  induction s as [|a s IH]; intros t c; cbn [strip_trailing].
  - destruct t; discriminate.
  - destruct (strip_trailing s) as [|b r].
    + destruct (is_space a) eqn:Sp; [destruct t; discriminate |].
      destruct t as [|x t]; cbn [append]; intro H.
      * injection H as <-. exact Sp.
      * injection H as _ H. destruct t; discriminate.
    + destruct t as [|x t]; cbn [append]; intro H; [discriminate |].
      injection H as _ H. now apply (IH t c).
Qed.

Lemma strip_trailing_head (s : string) (c : ascii) (t : string) :
  strip_trailing s = String c t -> exists t', s = String c t'.
Proof.
  destruct s as [|a s]; cbn [strip_trailing]; [discriminate |].
  destruct (strip_trailing s); [destruct (is_space a) |];
    intro H; try discriminate; injection H as <- _; eauto.
Qed.

Lemma strip_trailing_idem (s : string) :
  strip_trailing (strip_trailing s) = strip_trailing s.
Proof.
  induction s as [|c s IH]; [reflexivity |].
  cbn [strip_trailing]. destruct (strip_trailing s) as [|b r] eqn:E.
  - destruct (is_space c) eqn:Sp; [reflexivity |].
    cbn [strip_trailing]. now rewrite Sp.
  - cbn [strip_trailing] in *. now rewrite IH.
Qed.

Lemma strip_idem (s : string) : strip (strip s) = strip s.
Proof.
  unfold strip. destruct (strip_trailing (strip_leading s)) as [|c t] eqn:E;
    [reflexivity |].
  destruct (strip_trailing_head _ _ _ E) as (t' & U).
  pose proof (strip_leading_head _ _ _ U) as Sp.
  cbn [strip_leading]. rewrite Sp, <- E. apply strip_trailing_idem.
Qed.

(** [ContactDialog::trim] takes off the leading and the trailing run
    of spaces, tabs, line feeds and carriage returns, and nothing else:
    the text is a run of such bytes, then the result, then another such
    run; the result neither starts nor ends with one of them; trimming
    it again changes nothing. *)
Theorem trim_shape :
  forall s : string,
    (exists pre post : string,
       s = pre ++ trim s ++ post /\
       all (fun c => mem c whitespace) pre = true /\
       all (fun c => mem c whitespace) post = true) /\
    (forall (c : ascii) (t : string),
       trim s = String c t -> mem c whitespace = false) /\
    (forall (t : string) (c : ascii),
       trim s = t ++ String c "" -> mem c whitespace = false) /\
    trim (trim s) = trim s.
Proof.
  intro s. rewrite !trim_strip.
  split; [| split; [| split]].
  - destruct (strip_leading_split s) as (pre & E1 & A1).
    destruct (strip_trailing_split (strip_leading s)) as (post & E2 & A2).
    exists pre, post.
    rewrite !(all_ext (fun c => mem c whitespace) is_space _ whitespace_is_space).
    split; [| split; assumption].
    unfold strip. now rewrite <- E2.
  - intros c t H. rewrite whitespace_is_space. unfold strip in H.
    destruct (strip_trailing_head _ _ _ H) as (t' & U).
    exact (strip_leading_head _ _ _ U).
  - intros t c H. rewrite whitespace_is_space.
    exact (strip_trailing_last _ _ _ H).
  - apply strip_idem.
Qed.

End TrimFacts.

(** ** The main window and the contact dialog *)

Module WindowFacts.
Import Text Validation Store Effects Driver DB DBRest Streams Gui Windows.
Import TextFacts DBFacts SessionFacts.

(** Running the calls on the [DB] object, and the handlers around them. *)
Ltac run_db :=
  cbv beta iota zeta delta
    [try_catch_sql Effects.bind Effects.ret Effects.throw get_conn put_conn
     print_cout print_cerr ensure_connection prepareStatement transmit isValid setAutoCommit commit
     rollback query_select_1 update_insert update_update update_delete
     query_by_id query_all query_like query_order_by query_count
     execute_create_table update_delete_all
     conn_ cout cerr link strict_mode found_rows weight like rows txn next_id
     getAutoCommit with_link with_rows with_txn with_next_id negb fst snd].

Ltac run_gui :=
  cbv beta iota zeta delta
    [Gui.chain Gui.finish Gui.raise try_catch_db get modify within
     db in_db show_error show_info hide show_validation_error
     clear_validation_error
     with_db with_list_store with_status_label with_search_entry
     with_current_search with_dialogs with_files
     with_parent with_self with_entries with_validation with_visible];
  cbn [m_db m_ref_list_store m_status_label m_search_entry m_current_search
       dialogs files parent self
       m_on_saved m_editing m_contact_id entry_first entry_last entry_email
       entry_mobile m_validation_label validation_visible visible fst snd
       negb].

(** *** On a connection that works *)

Lemma get_all_contacts_healthy (w : World) :
  link (conn_ w) = Healthy ->
  get_all_contacts w = (Returned (listing (conn_ w) ""), w).
Proof.
  intro HL. destruct w as [[lnk st fr wt lk rs tx nx] out err].
  cbn [conn_ link] in HL. subst lnk. reflexivity.
Qed.

Lemma search_contacts_healthy (w : World) (q : string) :
  link (conn_ w) = Healthy ->
  search_contacts q w = (Returned (listing (conn_ w) q), w).
Proof.
  intro HL. destruct w as [[lnk st fr wt lk rs tx nx] out err].
  cbn [conn_ link] in HL. subst lnk. destruct q; reflexivity.
Qed.

Lemma append_rows_run (cs : list Contact) :
  forall w : MainWindow,
    append_rows cs w
    = (Returned tt, with_list_store (m_ref_list_store w ++ cs) w).
Proof.
  induction cs as [|c cs IH]; intro w; cbn [append_rows].
  - run_gui. rewrite app_nil_r. now destruct w.
  - run_gui. rewrite IH. run_gui.
    rewrite <- app_assoc. cbn [app]. now destruct c.
Qed.

Lemma refresh_list_healthy (w : MainWindow) :
  link (conn_ (m_db w)) = Healthy ->
  refresh_list w
  = (Returned tt,
     with_list_store (listing (conn_ (m_db w)) (m_current_search w)) w).
Proof.
  intro HL. destruct w as [d store status entry search msgs disk].
  cbn [m_db] in HL. unfold refresh_list. run_gui.
  destruct (empty search) eqn:E; cbn [negb]; run_gui.
  - rewrite (get_all_contacts_healthy d HL), append_rows_run. run_gui.
    apply empty_true in E. now subst search.
  - rewrite (search_contacts_healthy d search HL), append_rows_run.
    reflexivity.
Qed.

Lemma update_status_healthy (w : MainWindow) :
  link (conn_ (m_db w)) = Healthy ->
  update_status w
  = (Returned tt,
     with_status_label
       ("Total contacts: "
        ++ to_string (Z.of_nat (length (rows (conn_ (m_db w)))))) w).
Proof.
  intro HL. destruct w as [d store status entry search msgs disk].
  cbn [m_db] in HL. unfold update_status. run_gui.
  now rewrite (get_contact_count_healthy d HL).
Qed.

(** Case analysis on the innermost stuck [match] of the goal. *)
Ltac split_step :=
  first
    [ match goal with
      | |- context [match ?x with _ => _ end] =>
          lazymatch x with
          | context [match _ with _ => _ end] => fail
          | _ => destruct x eqn:?
          end
      end
    | match goal with
      | |- context [Z.eqb ?a ?b] => destruct (Z.eqb a b) eqn:?
      end ];
  run_db.

(** *** What a write leaves behind *)

Ltac at_rest_world w HL HT :=
  destruct w as [[lnk st fr wt lk rs tx nx] out err];
  cbn [conn_ link txn] in HL, HT; subst lnk tx.

Lemma insert_contact_settles (f l e m : string) (w : World) :
  link (conn_ w) = Healthy -> txn (conn_ w) = None ->
  settles (insert_contact f l e m) w.
Proof.
  intros HL HT. at_rest_world w HL HT.
  unfold settles, insert_contact. run_db. repeat split_step; repeat split; eauto.
Qed.

Lemma delete_contact_settles (i : Z) (w : World) :
  link (conn_ w) = Healthy -> txn (conn_ w) = None ->
  settles (delete_contact i) w.
Proof.
  intros HL HT. at_rest_world w HL HT.
  unfold settles, delete_contact. run_db. repeat split_step; repeat split; eauto.
  match goal with
  | H : (_ =? 0)%Z = true |- _ => apply Z.eqb_eq in H; rename H into Zero
  end.
  apply filter_none_absent.
  destruct (filter (has_id i) rs); [reflexivity | cbn [length] in Zero; lia].
Qed.

Lemma same_fields (i : Z) (r row : Contact) :
  has_id i r = true -> id row = i ->
  negb (String.eqb (first_name r) (first_name row)
        && String.eqb (last_name r) (last_name row)
        && String.eqb (email r) (email row)
        && String.eqb (mobile r) (mobile row)) = false ->
  row = r.
Proof.
  unfold has_id. intros H1 H2 H3. apply Z.eqb_eq in H1.
  apply negb_false_iff in H3. rewrite !andb_true_iff in H3.
  destruct H3 as [[[F L] E] M].
  apply String.eqb_eq in F, L, E, M.
  destruct r, row. cbn in *. congruence.
Qed.

Lemma update_without_change (i : Z) (row : Contact) (rs : list Contact) :
  id row = i ->
  filter (fun r => negb (String.eqb (first_name r) (first_name row)
                         && String.eqb (last_name r) (last_name row)
                         && String.eqb (email r) (email row)
                         && String.eqb (mobile r) (mobile row)))
         (filter (has_id i) rs) = [] ->
  map (fun r => if has_id i r then row else r) rs = rs.
Proof.
  intros Hrow H. induction rs as [|r rs IH]; [reflexivity |].
  cbn [filter map] in *. destruct (has_id i r) eqn:Hr.
  - cbn [filter] in H.
    destruct (negb _) eqn:N in H; [discriminate |].
    f_equal; [exact (same_fields i r row Hr Hrow N) | exact (IH H)].
  - f_equal. exact (IH H).
Qed.

Lemma update_contact_settles (i : Z) (f l e m : string) (w : World) :
  link (conn_ w) = Healthy -> txn (conn_ w) = None ->
  settles (update_contact i f l e m) w.
Proof.
  intros HL HT. at_rest_world w HL HT.
  unfold settles, update_contact. run_db.
  repeat split_step; repeat split; eauto.
  all: match goal with
       | S : store_row _ ?j _ _ _ _ = Some ?row,
         Hits : filter (has_id ?j) ?l = _,
         Zero : (_ =? 0)%Z = true |- _ =>
           apply store_row_id in S; apply Z.eqb_eq in Zero;
           apply (update_without_change j row l S); rewrite Hits
       end.
  all: try (cbn [length] in *; lia).
  all: match goal with
       | Zero : Z.of_nat _ = 0%Z |- _ = [] =>
           apply length_zero_iff_nil; apply Nat2Z.inj; exact Zero
       end.
Qed.

Lemma import_contacts_settles (cs : list Contact) (w : World) :
  link (conn_ w) = Healthy -> txn (conn_ w) = None ->
  exists (b : bool) (w' : World),
    import_contacts cs w = (Returned b, w') /\
    link (conn_ w') = Healthy /\ txn (conn_ w') = None /\
    weight (conn_ w') = weight (conn_ w) /\ like (conn_ w') = like (conn_ w) /\
    (b = false -> rows (conn_ w') = rows (conn_ w)).
Proof.
  intros HL HT. at_rest_world w HL HT.
  unfold import_contacts. run_db.
  pose proof (import_loop_run cs st fr wt lk rs (Some rs) nx out err) as R.
  destruct (staged st nx cs) as [added|].
  - rewrite R. run_db. do 2 eexists. split; [reflexivity |].
    cbn [conn_ link txn weight like rows]. repeat split. discriminate.
  - destruct R as (what & rs' & nx' & ->). run_db.
    do 2 eexists. split; [reflexivity |].
    cbn [conn_ link txn weight like rows]. now repeat split.
Qed.

Lemma get_contact_by_id_healthy (i : Z) (w : World) :
  link (conn_ w) = Healthy ->
  exists found, get_contact_by_id i w = (Returned found, w).
Proof.
  intro HL. destruct w as [[lnk st fr wt lk rs tx nx] out err].
  cbn [conn_ link] in HL. subst lnk.
  unfold get_contact_by_id. run_db.
  destruct (filter (has_id i) rs); eauto.
Qed.

(** *** The list and the status line follow the table *)

Lemma listing_same (c c' : Connection) (q : string) :
  rows c' = rows c -> weight c' = weight c -> like c' = like c ->
  listing c' q = listing c q.
Proof.
  intros R W L. unfold listing, matches. now rewrite R, W, L.
Qed.

Lemma in_step_carried (w w' : MainWindow) :
  in_step w ->
  m_ref_list_store w' = m_ref_list_store w ->
  m_status_label w' = m_status_label w ->
  m_current_search w' = m_current_search w ->
  rows (conn_ (m_db w')) = rows (conn_ (m_db w)) ->
  weight (conn_ (m_db w')) = weight (conn_ (m_db w)) ->
  like (conn_ (m_db w')) = like (conn_ (m_db w)) ->
  in_step w'.
Proof.
  intros [S1 S2] E1 E2 E3 R W L. unfold in_step.
  rewrite E1, E2, E3, R, (listing_same _ _ _ R W L). now split.
Qed.

(** After a call on the [DB] object that returned, [refresh_list] and
    [update_status] bring the window in step. *)
Lemma refreshed (w : MainWindow) :
  link (conn_ (m_db w)) = Healthy ->
  exists w1 w2,
    refresh_list w = (Returned tt, w1) /\
    update_status w1 = (Returned tt, w2) /\
    in_step w2 /\ m_db w2 = m_db w.
Proof.
  intro HL. rewrite (refresh_list_healthy w HL).
  do 2 eexists. split; [reflexivity |].
  rewrite update_status_healthy by (destruct w; exact HL).
  split; [reflexivity |].
  destruct w; unfold in_step; run_gui; now repeat split.
Qed.

Lemma search_in_step (w : MainWindow) :
  at_rest w -> in_step w ->
  fst (on_search_changed w) = Returned tt /\
  at_rest (snd (on_search_changed w)) /\ in_step (snd (on_search_changed w)).
Proof.
  intros [HL HT] [S1 S2]. unfold on_search_changed. run_gui.
  rewrite refresh_list_healthy by (destruct w; exact HL).
  destruct w. unfold at_rest, in_step in *. run_gui. cbn [m_db] in *. now repeat split.
Qed.

Lemma clear_in_step (w : MainWindow) :
  at_rest w -> in_step w ->
  fst (on_clear_search w) = Returned tt /\
  at_rest (snd (on_clear_search w)) /\ in_step (snd (on_clear_search w)).
Proof.
  intros [HL HT] [S1 S2]. unfold on_clear_search. run_gui.
  rewrite refresh_list_healthy by (destruct w; exact HL).
  destruct w. unfold at_rest, in_step in *. run_gui. cbn [m_db] in *. now repeat split.
Qed.

Lemma in_step_dialogs (w : MainWindow) (l : list message) :
  in_step w -> in_step (with_dialogs l w).
Proof. intro H. destruct w. exact H. Qed.

(** Running [refresh_list] and [update_status] on a working link. *)
Ltac refresh :=
  match goal with
  | |- context [refresh_list ?x] =>
      let w1 := fresh "w1" in
      let w2 := fresh "w2" in
      let U := fresh "U" in
      let R := fresh "R" in
      let I := fresh "I" in
      let M := fresh "M" in
      destruct (refreshed x) as (w1 & w2 & R & U & I & M);
      [ cbn [m_db conn_ link]; first [assumption | reflexivity]
      | rewrite R; run_gui; rewrite U; run_gui; clear R U;
        cbn [m_db] in M ]
  end.

Ltac projections :=
  cbn [m_db m_ref_list_store m_status_label m_search_entry m_current_search
       dialogs files parent self fst snd] in *.

(** The window is at rest and in step, from what is known of [w2]. *)
Ltac settled_in w2 :=
  unfold at_rest, in_step in *; destruct w2; projections; subst;
  intuition (try assumption; try congruence).

(** The handler returned and left table, list and status line as in [w]. *)
Ltac unchanged w :=
  run_gui; unfold at_rest; cbn [m_db];
  split;
  [ reflexivity
  | split;
    [ split; assumption
    | apply (in_step_carried w); try assumption; reflexivity ] ].

Lemma delete_in_step (w : MainWindow) (i : Z) (r : response) :
  at_rest w -> in_step w ->
  fst (on_delete_response i r w) = Returned tt /\
  at_rest (snd (on_delete_response i r w)) /\
  in_step (snd (on_delete_response i r w)).
Proof.
  intros [HL HT] S.
  destruct r; unfold on_delete_response; run_gui;
    [| unfold at_rest; intuition ..].
  destruct (delete_contact_settles i (m_db w) HL HT) as (L' & T' & W' & K' & O).
  destruct (delete_contact i (m_db w)) as [[[]|e] d']; cbn [fst snd] in *.
  - refresh. settled_in w2.
  - destruct O as [[what ->] O]. unchanged w.
Qed.

Lemma save_in_step (dialog : ContactDialog) (f l e m : string) (w : MainWindow) :
  at_rest w -> in_step w -> m_on_saved dialog = Some saved ->
  fst (save_in dialog f l e m w) = Returned tt /\
  at_rest (snd (save_in dialog f l e m w)) /\
  in_step (snd (save_in dialog f l e m w)).
Proof.
  intros [HL HT] S Cb. unfold save_in, on_ok_clicked, ContactDialog_validate_input. run_gui.
  destruct (empty (trim f) && empty (trim l)); run_gui; [unfold at_rest; intuition |].
  destruct (negb (empty (trim e)) && negb (is_valid_email (trim e)));
    run_gui; [unfold at_rest; intuition |].
  rewrite Cb. unfold saved.
  destruct (m_editing dialog).
  - destruct (update_contact_settles (m_contact_id dialog) (trim f) (trim l)
                (trim e) (trim m) (m_db w) HL HT) as (L' & T' & W' & K' & O).
    run_gui.
    destruct (update_contact _ _ _ _ _ (m_db w)) as [[[]|x] d'];
      cbn [fst snd] in *; run_gui.
    + refresh. settled_in w2.
    + destruct O as [[what ->] O]. unchanged w.
  - destruct (insert_contact_settles (trim f) (trim l)
                (trim e) (trim m) (m_db w) HL HT) as (L' & T' & W' & K' & O).
    run_gui.
    destruct (insert_contact _ _ _ _ (m_db w)) as [[[]|x] d'];
      cbn [fst snd] in *; run_gui.
    + refresh. settled_in w2.
    + destruct O as [[what ->] O]. unchanged w.
Qed.

Lemma import_in_step (w : MainWindow) (r : response) (file : option string) :
  at_rest w -> in_step w ->
  fst (on_import_response r file w) = Returned tt /\
  at_rest (snd (on_import_response r file w)) /\
  in_step (snd (on_import_response r file w)).
Proof.
  intros [HL HT] S.
  destruct r, file as [path|]; unfold on_import_response; run_gui;
    try (unfold at_rest; intuition; fail).
  destruct (ifstream (files w) path) as [text|]; run_gui;
    [| unfold at_rest; split; [reflexivity | split; [now split |]];
       now apply in_step_dialogs].
  destruct (read_contacts text) as [|c cs]; run_gui;
    [unfold at_rest; split; [reflexivity | split; [now split |]];
     now apply in_step_dialogs |].
  destruct (import_contacts_settles (c :: cs) (m_db w) HL HT)
    as (b & d' & -> & L' & T' & W' & K' & O).
  destruct b; run_gui.
  - refresh. settled_in w2.
  - specialize (O eq_refl). unchanged w.
Qed.

Lemma export_in_step (w : MainWindow) (r : response) (file : option string) :
  at_rest w -> in_step w ->
  fst (on_export_response r file w) = Returned tt /\
  at_rest (snd (on_export_response r file w)) /\
  in_step (snd (on_export_response r file w)).
Proof.
  intros [HL HT] S.
  destruct r, file as [path|]; unfold on_export_response; run_gui;
    try (unfold at_rest; intuition; fail).
  destruct (writable (files w) path); run_gui.
  - rewrite (get_all_contacts_healthy (m_db w) HL). run_gui. unchanged w.
  - unchanged w.
Qed.

Lemma edit_opens (w : MainWindow) (i : Z) :
  link (conn_ (m_db w)) = Healthy ->
  exists dialog,
    ContactDialog_new (Some saved) true i w = (Returned dialog, w) /\
    m_on_saved dialog = Some saved.
Proof.
  intro HL. unfold ContactDialog_new, load_contact_data. run_gui.
  destruct (get_contact_by_id_healthy i (m_db w) HL) as (found & ->).
  destruct found as [c|]; run_gui; eexists;
    (split; [now destruct w | reflexivity]).
Qed.

(** Every event keeps the window at rest and in step. *)
Lemma handle_in_step (w : MainWindow) (e : event) :
  at_rest w -> in_step w ->
  fst (handle e w) = Returned tt /\
  at_rest (snd (handle e w)) /\ in_step (snd (handle e w)).
Proof.
  intros R S.
  destruct e as [text| | |f l e m|selected f l e m|selected r|r file|r file];
    cbn [handle].
  - destruct R, S, w. unfold at_rest, in_step. run_gui. now repeat split.
  - now apply search_in_step.
  - now apply clear_in_step.
  - unfold on_add_contact, ContactDialog_new. run_gui.
    now apply save_in_step.
  - destruct selected as [i|]; unfold on_edit_contact; run_gui.
    + destruct (edit_opens w i (proj1 R)) as (dialog & -> & Cb). run_gui.
      now apply save_in_step.
    + destruct R. unchanged w.
  - destruct selected as [i|]; unfold on_delete_contact; run_gui.
    + now apply delete_in_step.
    + destruct R. unchanged w.
  - now apply import_in_step.
  - now apply export_in_step.
Qed.

(** The constructor leaves the window at rest and in step. *)
Lemma new_in_step (database : World) (disk : Disk) :
  link (conn_ database) = Healthy -> txn (conn_ database) = None ->
  fst (MainWindow_new database disk) = Returned tt /\
  at_rest (snd (MainWindow_new database disk)) /\
  in_step (snd (MainWindow_new database disk)).
Proof.
  intros HL HT. unfold MainWindow_new. run_gui.
  at_rest_world database HL HT.
  unfold initialize_schema. run_db. run_gui.
  refresh. settled_in w2.
Qed.

(** On a connection that works, the window shows the table.  From
    the constructor on and after every event (a text typed in the search
    entry, a search, a contact added or edited through the dialog, a
    deletion confirmed or not, an import, an export), whether the call
    on the [DB] object went through or was refused: no handler raises,
    no transaction is left open, the list holds the contacts of the
    table that match the current search, in the order of the listing,
    and the status line gives the number of rows of the table. *)
Theorem window_shows_the_table :
  forall (database : World) (disk : Disk) (w : MainWindow),
    link (conn_ database) = Healthy ->
    txn (conn_ database) = None ->
    shown database disk w ->
    at_rest w /\ in_step w /\
    forall e : event, fst (handle e w) = Returned tt.
Proof.
  intros database disk w HL HT Sh.
  assert (H : at_rest w /\ in_step w).
  { induction Sh as [|w e Sh [R S]].
    - now destruct (new_in_step database disk HL HT) as (_ & R & S).
    - now destruct (handle_in_step w e R S) as (_ & R' & S'). }
  destruct H as [R S]. repeat split; try assumption; try apply R; try apply S.
  intro e. now destruct (handle_in_step w e R S).
Qed.

Lemma window_shows_the_table_witness :
  let database := world (connection Healthy true
                           [mkContact 1 "Ada" "Lovelace" "ada@example.com" "+44123"]
                           2) in
  let disk := mkDisk (fun _ => None) (fun _ => true) (fun _ => true)
                     (fun _ => None) (fun _ => None) in
  let w := snd (handle (Deleted (Some 1%Z) OK)
                  (snd (handle (Added " Grace " "Hopper" "" "")
                          (snd (MainWindow_new database disk))))) in
  at_rest w /\ in_step w /\
  forall e : event, fst (handle e w) = Returned tt.
Proof.
  intros database disk w.
  apply (window_shows_the_table database disk w);
    [reflexivity | reflexivity |].
  unfold w. apply shown_after. apply shown_after. apply shown_new.
Defined.

(** *** Saving through the dialog *)

Lemma insert_contact_healthy (f l e m : string) (w : World) :
  link (conn_ w) = Healthy ->
  empty f && empty l = false ->
  negb (empty e) && negb (is_valid_email e) = false ->
  fits f l e m = true ->
  (next_id (conn_ w) <= INT_MAX)%Z ->
  exists w',
    insert_contact f l e m w = (Returned tt, w') /\
    rows (conn_ w')
    = (rows (conn_ w) ++ [mkContact (next_id (conn_ w)) f l e m])%list /\
    link (conn_ w') = Healthy.
Proof.
  intros HL N E F B. destruct w as [[lnk st fr wt lk rs tx nx] out err].
  cbn [conn_ link next_id rows] in *. subst lnk.
  unfold insert_contact. rewrite N, E. run_db.
  rewrite (store_row_fits st nx f l e m F).
  destruct (Z.ltb_spec INT_MAX nx) as [L|_]; [lia |].
  eexists. split; [reflexivity |]. now split.
Qed.

Lemma validate_input_guards (f l e : string) :
  Validation.validate_input f l e = true ->
  empty (trim f) && empty (trim l) = false /\
  negb (empty (trim e)) && negb (is_valid_email (trim e)) = false.
Proof.
  unfold Validation.validate_input.
  destruct (empty (trim f) && empty (trim l)); [discriminate |].
  destruct (negb (empty (trim e)) && negb (is_valid_email (trim e)));
    [discriminate | now split].
Qed.

(** What Save in the Add dialog stores.  On a connection that works,
    when the texts pass the checks of the dialog and, once trimmed, fit
    the columns, the row added holds the trimmed texts under the next
    id; the list and the status line of the window show the new table,
    and no message is presented. *)
Theorem add_stores_trimmed :
  forall (w : MainWindow) (f l e m : string),
    at_rest w ->
    Validation.validate_input f l e = true ->
    fits (trim f) (trim l) (trim e) (trim m) = true ->
    (next_id (conn_ (m_db w)) <= INT_MAX)%Z ->
    fst (handle (Added f l e m) w) = Returned tt /\
    rows (conn_ (m_db (snd (handle (Added f l e m) w))))
    = (rows (conn_ (m_db w))
       ++ [mkContact (next_id (conn_ (m_db w)))
                     (trim f) (trim l) (trim e) (trim m)])%list /\
    in_step (snd (handle (Added f l e m) w)) /\
    dialogs (snd (handle (Added f l e m) w)) = dialogs w.
Proof.
  intros w f l e m [HL HT] V F B.
  destruct (validate_input_guards f l e V) as [N E].
  destruct (insert_contact_healthy (trim f) (trim l) (trim e) (trim m)
              (m_db w) HL N E F B) as (d' & I & R & L').
  cbn [handle]. unfold on_add_contact, ContactDialog_new. run_gui.
  unfold save_in, on_ok_clicked, ContactDialog_validate_input. run_gui.
  rewrite N. run_gui. rewrite E. run_gui. rewrite I. run_gui.
  unfold saved. run_gui.
  destruct w as [d store status entry search msgs disk]. projections.
  rewrite refresh_list_healthy by exact L'. run_gui.
  rewrite update_status_healthy by exact L'. run_gui.
  unfold in_step. projections. now repeat split.
Qed.

Lemma add_stores_trimmed_witness :
  let w := snd (MainWindow_new
                  (world (connection Healthy true
                            [mkContact 1 "Ada" "Lovelace" "ada@example.com"
                                       "+44123"] 2))
                  (mkDisk (fun _ => None) (fun _ => true) (fun _ => true)
                          (fun _ => None) (fun _ => None))) in
  fst (handle (Added " Grace " "Hopper " "" " 1 ") w) = Returned tt /\
  rows (conn_ (m_db (snd (handle (Added " Grace " "Hopper " "" " 1 ") w))))
  = (rows (conn_ (m_db w))
     ++ [mkContact (next_id (conn_ (m_db w)))
                   (trim " Grace ") (trim "Hopper ") (trim "") (trim " 1 ")])%list /\
  in_step (snd (handle (Added " Grace " "Hopper " "" " 1 ") w)) /\
  dialogs (snd (handle (Added " Grace " "Hopper " "" " 1 ") w)) = dialogs w.
Proof.
  intro w.
  apply (add_stores_trimmed w " Grace " "Hopper " "" " 1 ");
    [split; reflexivity | reflexivity | reflexivity |].
  unfold INT_MAX. cbn. lia.
Defined.

(** *** Whatever the state of the link *)

Ltac by_depth w :=
  destruct w as [[lnk st fr wt lk rs tx nx] out err];
  destruct lnk as [|[|[|[|n]]]]; run_db; repeat split_step.

Lemma insert_contact_raises (f l e m : string) (w : World) :
  empty f && empty l = false ->
  negb (empty e) && negb (is_valid_email e) = false ->
  match fst (insert_contact f l e m w) with
  | Returned _ => True
  | Thrown x => x = connection_lost \/ wrapped "Insert error: " x
  end.
Proof.
  intros N E. unfold insert_contact, wrapped, connection_lost. rewrite N, E.
  by_depth w; eauto.
Qed.

Lemma update_contact_raises (i : Z) (f l e m : string) (w : World) :
  empty f && empty l = false ->
  negb (empty e) && negb (is_valid_email e) = false ->
  match fst (update_contact i f l e m w) with
  | Returned _ => True
  | Thrown x =>
      x = connection_lost \/ x = not_found i \/ wrapped "Update error: " x
  end.
Proof.
  intros N E. unfold update_contact, wrapped, connection_lost, not_found.
  rewrite N, E. by_depth w; eauto.
Qed.

Lemma delete_contact_raises (i : Z) (w : World) :
  match fst (delete_contact i w) with
  | Returned _ => True
  | Thrown x => exists what, x = DBException what
  end.
Proof. unfold delete_contact. by_depth w; eauto. Qed.

Lemma reads_raise (w : World) (q : string) (i : Z) :
  match fst (get_all_contacts w) with
  | Returned _ => True
  | Thrown x => x = connection_lost
  end /\
  match fst (search_contacts q w) with
  | Returned _ => True
  | Thrown x => x = connection_lost
  end /\
  match fst (get_contact_count w) with
  | Returned _ => True
  | Thrown x => x = connection_lost
  end /\
  match fst (get_contact_by_id i w) with
  | Returned _ => True
  | Thrown x => x = connection_lost
  end.
Proof.
  unfold search_contacts, get_all_contacts, get_contact_count,
    get_contact_by_id, connection_lost.
  repeat split; try destruct (empty q); by_depth w; auto.
Qed.

Lemma refresh_list_returns (w : MainWindow) :
  fst (refresh_list w) = Returned tt.
Proof.
  unfold refresh_list. run_gui.
  destruct (reads_raise (m_db w) (m_current_search w) 0) as (G & S & _).
  destruct (empty (m_current_search w)); run_gui.
  - destruct (get_all_contacts (m_db w)) as [[cs|x] d']; cbn [fst] in G.
    + rewrite append_rows_run. reflexivity.
    + subst x. reflexivity.
  - destruct (search_contacts (m_current_search w) (m_db w)) as [[cs|x] d'];
      cbn [fst] in S.
    + rewrite append_rows_run. reflexivity.
    + subst x. reflexivity.
Qed.

Lemma update_status_raises (w : MainWindow) :
  match fst (update_status w) with
  | Returned _ => True
  | Thrown x => x = connection_lost
  end.
Proof.
  unfold update_status. run_gui.
  destruct (reads_raise (m_db w) "" 0) as (_ & _ & C & _).
  destruct (get_contact_count (m_db w)) as [[n|x] d']; exact C.
Qed.

Lemma saved_raises (w : MainWindow) :
  match fst (saved w) with
  | Returned _ => True
  | Thrown x => x = connection_lost
  end.
Proof.
  unfold saved. unfold Gui.chain.
  pose proof (refresh_list_returns w) as R.
  destruct (refresh_list w) as [[[]|x] w1]; cbn [fst] in R; [| discriminate].
  exact (update_status_raises w1).
Qed.

(** Every way a Save of the contact dialog ends, whatever the state
    of the connection.  [on_ok_clicked] never raises.  Either the save
    went through and the dialog is hidden with its label hidden, or the
    dialog stays as visible as it was and its label shows, after the
    warning sign, one of the two messages of the dialog, "Database
    connection lost", or what the statement was refused with ("Contact
    not found with ID: ..." or "Update error: ..." when editing, "Insert
    error: ..." when adding): the two validation messages of the [DB]
    object are never shown, because what passes the checks of the
    dialog passes those.  When the checks of the dialog fail, the [DB]
    object is not called and the window is left as it was. *)
Theorem on_ok_clicked_outcomes :
  forall d : Desk,
    m_on_saved (self d) = Some saved ->
    exists d' : Desk,
      on_ok_clicked d = (Returned tt, d') /\
      (visible (self d') = false /\ validation_visible (self d') = false \/
       visible (self d') = visible (self d) /\
       validation_visible (self d') = true /\
       exists what,
         m_validation_label (self d') = warning_sign ++ what /\
         refusal (self d) what) /\
      (Validation.validate_input (entry_first (self d)) (entry_last (self d))
                                 (entry_email (self d)) = false ->
       parent d' = parent d).
Proof.
  intros [w c] Cb. projections.
  unfold on_ok_clicked, ContactDialog_validate_input,
    Validation.validate_input, refusal.
  run_gui.
  destruct (empty (trim (entry_first c)) && empty (trim (entry_last c))) eqn:N;
    run_gui.
  { eexists. split; [reflexivity |]. projections. split; [| reflexivity].
    right. repeat split. eexists. split; [reflexivity |]. now left. }
  destruct (negb (empty (trim (entry_email c)))
            && negb (is_valid_email (trim (entry_email c)))) eqn:E; run_gui.
  { eexists. split; [reflexivity |]. projections. split; [| reflexivity].
    right. repeat split. eexists. split; [reflexivity |]. now right; left. }
  rewrite Cb.
  destruct (m_editing c) eqn:Ed; run_gui.
  - pose proof (update_contact_raises (m_contact_id c) _ _ _ (trim (entry_mobile c))
                  (m_db w) N E) as U.
    destruct (update_contact _ _ _ _ _ (m_db w)) as [[[]|x] d'];
      cbn [fst] in U; run_gui.
    + match goal with
      | |- context [saved ?x] =>
          pose proof (saved_raises x) as Sv;
          destruct (saved x) as [[[]|y] w2]; cbn [fst] in Sv; run_gui
      end.
      * eexists. split; [reflexivity |]. projections.
        split; [now left | discriminate].
      * subst y. run_gui. eexists. split; [reflexivity |]. projections.
        split; [| discriminate].
        right. repeat split. eexists. split; [reflexivity |].
        now right; right; left.
    + destruct U as [->|[->|[what ->]]]; run_gui;
        (eexists; split; [reflexivity |]; projections;
         split; [| discriminate];
         right; repeat split; eexists; split; [reflexivity |]).
      * now right; right; left.
      * right; right; right; left. split; [reflexivity |]. now left.
      * right; right; right; left. split; [reflexivity |]. right. eauto.
  - pose proof (insert_contact_raises _ _ _ (trim (entry_mobile c))
                  (m_db w) N E) as U.
    destruct (insert_contact _ _ _ _ (m_db w)) as [[[]|x] d'];
      cbn [fst] in U; run_gui.
    + match goal with
      | |- context [saved ?x] =>
          pose proof (saved_raises x) as Sv;
          destruct (saved x) as [[[]|y] w2]; cbn [fst] in Sv; run_gui
      end.
      * eexists. split; [reflexivity |]. projections.
        split; [now left | discriminate].
      * subst y. run_gui. eexists. split; [reflexivity |]. projections.
        split; [| discriminate].
        right. repeat split. eexists. split; [reflexivity |].
        now right; right; left.
    + destruct U as [->|[what ->]]; run_gui;
        (eexists; split; [reflexivity |]; projections;
         split; [| discriminate];
         right; repeat split; eexists; split; [reflexivity |]).
      * now right; right; left.
      * right; right; right; right. split; [reflexivity |]. eauto.
Qed.

Lemma on_ok_clicked_outcomes_witness :
  let d := mkDesk
             (snd (MainWindow_new
                     (world (connection (DropsAfter 7) true [] 1))
                     (mkDisk (fun _ => None) (fun _ => true) (fun _ => true)
                             (fun _ => None) (fun _ => None))))
             (mkContactDialog (Some saved) false 0 "Ada" "" "ada@example.com"
                              "" "" false true) in
  exists d' : Desk,
    on_ok_clicked d = (Returned tt, d') /\
    (visible (self d') = false /\ validation_visible (self d') = false \/
     visible (self d') = visible (self d) /\
     validation_visible (self d') = true /\
     exists what,
       m_validation_label (self d') = warning_sign ++ what /\
       refusal (self d) what) /\
    (Validation.validate_input (entry_first (self d)) (entry_last (self d))
                               (entry_email (self d)) = false ->
     parent d' = parent d).
Proof.
  intro d. apply (on_ok_clicked_outcomes d). reflexivity.
Defined.

(** *** What the handlers let out *)

Lemma escapes_transmit (P : World -> Prop) :
  Session.triple P transmit Session.whatever escapes.
Proof.
  intros w _. destruct w as [[lnk st fr wt lk rs tx nx] out err].
  destruct lnk as [|[|n]]; run_db; unfold Session.whatever, escapes; eauto.
Qed.

Lemma escapes_ensure_connection (P : World -> Prop) :
  Session.triple P ensure_connection Session.whatever escapes.
Proof.
  intros w _. destruct w as [[lnk st fr wt lk rs tx nx] out err].
  destruct lnk as [|[|n]]; run_db; unfold Session.whatever, escapes; eauto.
Qed.

Lemma escapes_setAutoCommit (P : World -> Prop) (b : bool) :
  Session.triple P (setAutoCommit b) Session.whatever escapes.
Proof.
  intros w _. destruct w as [[lnk st fr wt lk rs tx nx] out err].
  destruct lnk as [|[|n]], b, tx; run_db;
    unfold Session.whatever, escapes; eauto.
Qed.

Lemma escapes_commit (P : World -> Prop) :
  Session.triple P commit Session.whatever escapes.
Proof.
  intros w _. destruct w as [[lnk st fr wt lk rs tx nx] out err].
  destruct lnk as [|[|n]], tx; run_db;
    unfold Session.whatever, escapes; eauto.
Qed.

Lemma escapes_rollback (P : World -> Prop) :
  Session.triple P rollback Session.whatever escapes.
Proof.
  intros w _. destruct w as [[lnk st fr wt lk rs tx nx] out err].
  destruct lnk as [|[|n]], tx; run_db;
    unfold Session.whatever, escapes; eauto.
Qed.

Lemma escapes_update_insert (P : World -> Prop) (f l e m : string) :
  Session.triple P (update_insert f l e m) Session.whatever escapes.
Proof.
  intros w _. destruct w as [[lnk st fr wt lk rs tx nx] out err].
  destruct lnk as [|[|n]]; run_db; repeat split_step;
    unfold Session.whatever, escapes; eauto.
Qed.

Lemma escapes_print_cout (P : World -> Prop) (s : string) :
  Session.triple P (print_cout s) Session.whatever escapes.
Proof. intros w _. exact I. Qed.

Lemma escapes_print_cerr (P : World -> Prop) (s : string) :
  Session.triple P (print_cerr s) Session.whatever escapes.
Proof. intros w _. exact I. Qed.

Lemma escapes_ret (P : World -> Prop) (A : Type) (a : A) :
  Session.triple P (Effects.ret a) Session.whatever escapes.
Proof. intros w _. exact I. Qed.

Lemma escapes_import_loop (cs : list Contact) (P : World -> Prop) :
  Session.triple P (import_loop cs) Session.whatever escapes.
Proof.
  revert P. induction cs as [|c cs IH]; intro P; cbn [import_loop].
  - apply escapes_ret.
  - apply triple_bind with (Q := Session.whatever);
      [apply escapes_update_insert | intro; apply IH].
Qed.

Ltac escape_step :=
  first
    [ apply escapes_ret
    | apply escapes_print_cout
    | apply escapes_print_cerr
    | apply escapes_transmit
    | apply escapes_ensure_connection
    | apply escapes_setAutoCommit
    | apply escapes_commit
    | apply escapes_rollback
    | apply escapes_import_loop
    | apply triple_bind with (Q := Session.whatever); [| intro] ].

(** An import raises the exception of the liveness check or hands on
    what the connector raised while the import was being undone. *)
Lemma import_contacts_escapes (cs : list Contact) (w : World) :
  match fst (import_contacts cs w) with
  | Returned _ => True
  | Thrown x => escapes x w
  end.
Proof.
  assert (T : Session.triple Session.anywhere (import_contacts cs)
                             Session.whatever escapes).
  { unfold import_contacts.
    apply triple_try with (E1 := escapes).
    - unfold prepareStatement. repeat escape_step.
    - intro what. repeat escape_step.
    - intros what w' H. exact H. }
  specialize (T w I).
  destruct (import_contacts cs w) as [[b|x] w']; [exact I |].
  exact T.
Qed.

Lemma save_in_returns (dialog : ContactDialog) (f l e m : string)
  (w : MainWindow) :
  m_on_saved dialog = Some saved ->
  fst (save_in dialog f l e m w) = Returned tt.
Proof.
  intro Cb. unfold save_in, on_ok_clicked, ContactDialog_validate_input. run_gui.
  destruct (empty (trim f) && empty (trim l)) eqn:N; run_gui;
    [reflexivity |].
  destruct (negb (empty (trim e)) && negb (is_valid_email (trim e))) eqn:E;
    run_gui; [reflexivity |].
  rewrite Cb.
  destruct (m_editing dialog); run_gui.
  - pose proof (update_contact_raises (m_contact_id dialog) _ _ _ (trim m)
                  (m_db w) N E) as U.
    destruct (update_contact _ _ _ _ _ (m_db w)) as [[[]|x] d'];
      cbn [fst] in U; run_gui.
    + match goal with
      | |- context [saved ?x] =>
          pose proof (saved_raises x) as Sv;
          destruct (saved x) as [[[]|y] w2]; cbn [fst] in Sv; run_gui
      end; [reflexivity | now subst y].
    + now destruct U as [->|[->|[what ->]]].
  - pose proof (insert_contact_raises _ _ _ (trim m) (m_db w) N E) as U.
    destruct (insert_contact _ _ _ _ (m_db w)) as [[[]|x] d'];
      cbn [fst] in U; run_gui.
    + match goal with
      | |- context [saved ?x] =>
          pose proof (saved_raises x) as Sv;
          destruct (saved x) as [[[]|y] w2]; cbn [fst] in Sv; run_gui
      end; [reflexivity | now subst y].
    + now destruct U as [->|[what ->]].
Qed.

Lemma on_delete_response_returns (i : Z) (r : response) (w : MainWindow) :
  fst (on_delete_response i r w) = Returned tt.
Proof.
  destruct r; unfold on_delete_response; run_gui; try reflexivity.
  pose proof (delete_contact_raises i (m_db w)) as D.
  destruct (delete_contact i (m_db w)) as [[[]|x] d']; cbn [fst] in D; run_gui.
  - match goal with
    | |- context [refresh_list ?x] =>
        pose proof (refresh_list_returns x) as R;
        destruct (refresh_list x) as [[[]|y] w1]; cbn [fst] in R;
        [| discriminate]; run_gui
    end.
    pose proof (update_status_raises w1) as U.
    destruct (update_status w1) as [[[]|y] w2]; cbn [fst] in U; run_gui;
      [reflexivity | now subst y].
  - now destruct D as [what ->].
Qed.

(** What the handlers of the main window let out, whatever the state
    of the connection.  A search, clearing it, a contact added through
    the dialog and a deletion never raise: what the [DB] object raises
    there ends in a message.  Opening the edit dialog and the export
    raise nothing but the "Database connection lost" of the liveness
    check; the import raises that or the [sql::SQLException] that undoing
    the import ran into. *)
Theorem what_handlers_raise :
  forall (w : MainWindow) (e : event),
    match fst (handle e w) with
    | Returned _ => True
    | Thrown x => lets_out e x
    end.
Proof.
  intros w e.
  destruct e as [text| | |f l e m|selected f l e m|selected r|r file|r file];
    cbn [handle].
  - exact I.
  - unfold on_search_changed. run_gui.
    match goal with
    | |- context [refresh_list ?x] => now rewrite (refresh_list_returns x)
    end.
  - unfold on_clear_search. run_gui.
    match goal with
    | |- context [refresh_list ?x] => now rewrite (refresh_list_returns x)
    end.
  - unfold on_add_contact, ContactDialog_new. run_gui.
    now rewrite save_in_returns.
  - destruct selected as [i|]; unfold on_edit_contact; run_gui; [| exact I].
    unfold ContactDialog_new, load_contact_data. run_gui.
    destruct (reads_raise (m_db w) "" i) as (_ & _ & _ & G).
    destruct (get_contact_by_id i (m_db w)) as [[[c|]|x] d'];
      cbn [fst] in G; run_gui;
      [now rewrite save_in_returns | now rewrite save_in_returns | exact G].
  - destruct selected as [i|]; unfold on_delete_contact; run_gui; [| exact I].
    now rewrite on_delete_response_returns.
  - destruct r, file as [path|]; unfold on_import_response; run_gui;
      try exact I.
    destruct (ifstream (files w) path) as [text|]; run_gui; [| exact I].
    destruct (read_contacts text) as [|c cs]; run_gui; [exact I |].
    pose proof (import_contacts_escapes (c :: cs) (m_db w)) as Im.
    destruct (import_contacts (c :: cs) (m_db w)) as [[[]|x] d'];
      cbn [fst] in Im; run_gui; [| exact I | exact Im].
    match goal with
    | |- context [refresh_list ?x] =>
        pose proof (refresh_list_returns x) as R;
        destruct (refresh_list x) as [[[]|y] w1]; cbn [fst] in R;
        [| discriminate]; run_gui
    end.
    pose proof (update_status_raises w1) as U.
    destruct (update_status w1) as [[[]|y] w2]; cbn [fst] in U; run_gui;
      [exact I | now left].
  - destruct r, file as [path|]; unfold on_export_response; run_gui;
      try exact I.
    destruct (writable (files w) path); run_gui; [| exact I].
    destruct (reads_raise (m_db w) "" 0) as (G & _).
    destruct (get_all_contacts (m_db w)) as [[cs|x] d']; cbn [fst] in G;
      run_gui; [exact I | exact G].
Qed.

(** *** What the window shows when the connection fails *)

Ltac open_window w :=
  destruct w as [[[lnk st fr wt lk rs tx nx] out err] store status entry
                   search msgs disk];
  cbn [m_db conn_ link] in *.

(** When the link drops during a query, after the liveness check has
    passed, the window shows an empty table and says nothing: the fault
    the [DB] object caught went to [std::cerr]; [refresh_list] leaves
    the list empty and presents no message, [update_status] writes
    "Total contacts: 0". *)
Theorem faults_show_as_empty_table :
  forall (w : MainWindow) (n : nat),
    link (conn_ (m_db w)) = DropsAfter (S n) ->
    (n < 2)%nat ->
    (fst (refresh_list w) = Returned tt /\
     m_ref_list_store (snd (refresh_list w)) = [] /\
     dialogs (snd (refresh_list w)) = dialogs w) /\
    (fst (update_status w) = Returned tt /\
     m_status_label (snd (update_status w)) = "Total contacts: 0" /\
     dialogs (snd (update_status w)) = dialogs w).
Proof.
  intros w n HL Hn. open_window w. subst lnk.
  unfold refresh_list, update_status, search_contacts, get_all_contacts,
    get_contact_count.
  destruct n as [|[|n]]; [| | lia];
    (split; [destruct (empty search) eqn:Em |]; run_gui; rewrite ?Em;
     run_gui; run_db; cbn [append_rows]; run_gui; now repeat split).
Qed.

Lemma faults_show_as_empty_table_witness :
  let w := mkMainWindow
             (world (connection (DropsAfter 2) true
                       [mkContact 1 "Ada" "Lovelace" "ada@example.com"
                                  "+44123"] 2))
             [mkContact 1 "Ada" "Lovelace" "ada@example.com" "+44123"]
             "Total contacts: 1" "" "" []
             (mkDisk (fun _ => None) (fun _ => true) (fun _ => true)
                     (fun _ => None) (fun _ => None)) in
  (fst (refresh_list w) = Returned tt /\
   m_ref_list_store (snd (refresh_list w)) = [] /\
   dialogs (snd (refresh_list w)) = dialogs w) /\
  (fst (update_status w) = Returned tt /\
   m_status_label (snd (update_status w)) = "Total contacts: 0" /\
   dialogs (snd (update_status w)) = dialogs w).
Proof.
  intro w. apply (faults_show_as_empty_table w 1); [reflexivity | lia].
Defined.

(** On a connection that the liveness check finds lost, nothing is sent
    and the table is not touched.  [refresh_list] empties the list and
    presents the error "Failed to load contacts: Database connection
    lost"; [update_status] raises and leaves the status line; a Save of
    texts that pass the checks of the dialog shows "Database connection
    lost" in the label of the dialog, which stays open, and leaves the
    window as it was; an export to a file that can be written raises and
    leaves the file with the header line only. *)
Theorem lost_connection_in_window :
  forall (w : MainWindow) (c : ContactDialog) (path : string),
    link (conn_ (m_db w)) = DropsAfter 0 ->
    refresh_list w
    = (Returned tt,
       with_dialogs
         (dialogs w ++ [Error "Failed to load contacts: Database connection lost"])
         (with_list_store [] w)) /\
    update_status w = (Thrown connection_lost, w) /\
    (Validation.validate_input (entry_first c) (entry_last c) (entry_email c)
     = true ->
     on_ok_clicked (mkDesk w c)
     = (Returned tt,
        mkDesk w (with_validation (warning_sign ++ "Database connection lost")
                                  true c))) /\
    (writable (files w) path = true ->
     on_export_response ACCEPT (Some path) w
     = (Thrown connection_lost,
        with_files (written path csv_header (files w)) w)).
Proof.
  intros w c path HL. open_window w. subst lnk.
  split; [| split; [| split]].
  - unfold refresh_list, search_contacts, get_all_contacts.
    destruct (empty search) eqn:Em; run_gui; rewrite ?Em; run_gui; run_db;
      reflexivity.
  - unfold update_status, get_contact_count. run_gui. run_db. reflexivity.
  - intro V. destruct (validate_input_guards _ _ _ V) as [N E].
    unfold on_ok_clicked, ContactDialog_validate_input. run_gui.
    rewrite N. run_gui. rewrite E. run_gui.
    unfold update_contact, insert_contact. rewrite N, E.
    destruct (m_editing c); run_gui; run_db; reflexivity.
  - intro W. cbn [files] in W. unfold on_export_response. run_gui.
    rewrite W. run_gui. unfold get_all_contacts. run_db. reflexivity.
Qed.

Lemma lost_connection_in_window_witness :
  let w := mkMainWindow
             (world (connection (DropsAfter 0) true
                       [mkContact 1 "Ada" "Lovelace" "ada@example.com"
                                  "+44123"] 2))
             [mkContact 1 "Ada" "Lovelace" "ada@example.com" "+44123"]
             "Total contacts: 1" "" "" []
             (mkDisk (fun _ => None) (fun _ => true) (fun _ => true)
                     (fun _ => None) (fun _ => None)) in
  let c := mkContactDialog (Some saved) false 0 "Grace" "Hopper" "" ""
                           "" false true in
  refresh_list w
  = (Returned tt,
     with_dialogs
       (dialogs w ++ [Error "Failed to load contacts: Database connection lost"])
       (with_list_store [] w)) /\
  update_status w = (Thrown connection_lost, w) /\
  (Validation.validate_input (entry_first c) (entry_last c) (entry_email c)
   = true ->
   on_ok_clicked (mkDesk w c)
   = (Returned tt,
      mkDesk w (with_validation (warning_sign ++ "Database connection lost")
                                true c))) /\
  (writable (files w) "contacts.csv" = true ->
   on_export_response ACCEPT (Some "contacts.csv") w
   = (Thrown connection_lost,
      with_files (written "contacts.csv" csv_header (files w)) w)).
Proof.
  intros w c. apply (lost_connection_in_window w c "contacts.csv").
  reflexivity.
Defined.

(** What an export leaves, on a connection that works and for a file
    that can be written: the file, opened with the header line, ends
    up holding the header and one line per contact of the full listing,
    in its order, whatever the current search; the message gives their number; the table, the list and the
    status line are untouched.  For a file that cannot be written the
    message is "Failed to create file" and nothing else changes. *)
Theorem export_writes_the_listing :
  forall (w : MainWindow) (path : string),
    link (conn_ (m_db w)) = Healthy ->
    (writable (files w) path = true ->
     on_export_response ACCEPT (Some path) w
     = (Returned tt,
        with_dialogs
          (dialogs w
           ++ [Info ("Successfully exported "
                     ++ size_to_string (length (rows (conn_ (m_db w))))
                     ++ " contacts")])
          (with_files
             (written path (csv_text (listing (conn_ (m_db w)) ""))
                      (written path csv_header (files w)))
             w))) /\
    (writable (files w) path = false ->
     on_export_response ACCEPT (Some path) w
     = (Returned tt, with_dialogs (dialogs w ++ [Error "Failed to create file"]) w)).
Proof.
  intros w path HL. split; intro W; unfold on_export_response; run_gui;
    rewrite W; run_gui; [| reflexivity].
  rewrite (get_all_contacts_healthy (m_db w) HL). run_gui.
  assert (L : length (listing (conn_ (m_db w)) "")
              = length (rows (conn_ (m_db w)))).
  { unfold listing. cbn [empty]. rewrite length_map.
    apply Permutation.Permutation_length. apply OrderFacts.order_by_perm. }
  rewrite L. now destruct w.
Qed.

Lemma export_writes_the_listing_witness :
  let w := snd (MainWindow_new
                  (world (connection Healthy true
                            [mkContact 1 "Ada" "Lovelace" "ada@example.com"
                                       "+44123";
                             mkContact 2 "Grace" "Hopper" "" ""] 3))
                  (mkDisk (fun _ => None) (fun _ => true)
                          (fun p => String.eqb p "contacts.csv")
                          (fun _ => None) (fun _ => None))) in
  (writable (files w) "contacts.csv" = true ->
   on_export_response ACCEPT (Some "contacts.csv") w
   = (Returned tt,
      with_dialogs
        (dialogs w
         ++ [Info ("Successfully exported "
                   ++ size_to_string (length (rows (conn_ (m_db w))))
                   ++ " contacts")])
        (with_files
           (written "contacts.csv" (csv_text (listing (conn_ (m_db w)) ""))
                    (written "contacts.csv" csv_header (files w)))
           w))) /\
  (writable (files w) "contacts.csv" = false ->
   on_export_response ACCEPT (Some "contacts.csv") w
   = (Returned tt, with_dialogs (dialogs w ++ [Error "Failed to create file"]) w)).
Proof.
  intro w. apply (export_writes_the_listing w "contacts.csv"). reflexivity.
Defined.

(** *** Importing a file *)

Lemma import_contacts_fit (cs : list Contact) (w : World) :
  link (conn_ w) = Healthy -> txn (conn_ w) = None ->
  all_fit cs = true ->
  (next_id (conn_ w) + Z.of_nat (length cs) <= INT_MAX + 1)%Z ->
  exists w',
    import_contacts cs w = (Returned true, w') /\
    link (conn_ w') = Healthy /\
    rows (conn_ w') = (rows (conn_ w) ++ numbered (next_id (conn_ w)) cs)%list.
Proof.
  intros HL HT HF HB. at_rest_world w HL HT.
  cbn [conn_ next_id rows] in *.
  pose proof (import_loop_run cs st fr wt lk rs (Some rs) nx out err) as L.
  rewrite (DBRestFacts.staged_numbered st cs nx HF HB) in L.
  unfold import_contacts. run_db. rewrite L. run_db.
  eexists. split; [reflexivity |]. now split.
Qed.

(** What the import of a CSV file adds.  On a connection that works, for
    a file that can be read and holds at least one line with a first or
    a last name after its first line, when the fields fit the columns:
    every such line becomes a row, in the order of the file, numbered
    from the counter, with the texts between the commas as they are,
    neither trimmed nor checked against the email rule; the list and
    the status line show the new table, and the message gives the
    number of rows added. *)
Theorem import_appends_the_file :
  forall (w : MainWindow) (path text : string),
    at_rest w ->
    ifstream (files w) path = Some text ->
    (0 < length (read_contacts text))%nat ->
    all_fit (read_contacts text) = true ->
    (next_id (conn_ (m_db w)) + Z.of_nat (length (read_contacts text))
     <= INT_MAX + 1)%Z ->
    fst (on_import_response ACCEPT (Some path) w) = Returned tt /\
    rows (conn_ (m_db (snd (on_import_response ACCEPT (Some path) w))))
    = (rows (conn_ (m_db w))
       ++ numbered (next_id (conn_ (m_db w))) (read_contacts text))%list /\
    in_step (snd (on_import_response ACCEPT (Some path) w)) /\
    dialogs (snd (on_import_response ACCEPT (Some path) w))
    = (dialogs w
       ++ [Info ("Successfully imported "
                 ++ size_to_string (length (read_contacts text))
                 ++ " contacts")])%list.
Proof.
  intros w path text [HL HT] F NE HF HB.
  destruct (import_contacts_fit (read_contacts text) (m_db w) HL HT HF HB)
    as (d' & Im & L' & R').
  unfold on_import_response. run_gui. rewrite F. run_gui.
  destruct (read_contacts text) as [|c cs] eqn:RC; [cbn [length] in NE; lia |].
  run_gui. rewrite Im. run_gui.
  destruct w as [d store status entry search msgs disk]. projections.
  rewrite refresh_list_healthy by exact L'. run_gui.
  rewrite update_status_healthy by exact L'. run_gui.
  unfold in_step. projections. now repeat split.
Qed.

Lemma import_appends_the_file_witness :
  let text := "name,surname,mail,phone" ++ String LF ""
              ++ " Grace ,Hopper,not an email" ++ String LF ""
              ++ ",,nobody@example.com,1" ++ String LF ""
              ++ "Alan" in
  let w := snd (MainWindow_new
                  (world (connection Healthy true
                            [mkContact 1 "Ada" "Lovelace" "ada@example.com"
                                       "+44123"] 2))
                  (mkDisk (fun p => if String.eqb p "in.csv" then Some text
                                    else None)
                          (fun _ => true) (fun _ => false)
                          (fun _ => None) (fun _ => None))) in
  fst (on_import_response ACCEPT (Some "in.csv") w) = Returned tt /\
  rows (conn_ (m_db (snd (on_import_response ACCEPT (Some "in.csv") w))))
  = (rows (conn_ (m_db w))
     ++ numbered (next_id (conn_ (m_db w))) (read_contacts text))%list /\
  in_step (snd (on_import_response ACCEPT (Some "in.csv") w)) /\
  dialogs (snd (on_import_response ACCEPT (Some "in.csv") w))
  = (dialogs w
     ++ [Info ("Successfully imported "
               ++ size_to_string (length (read_contacts text))
               ++ " contacts")])%list.
Proof.
  intros text w.
  apply (import_appends_the_file w "in.csv" text);
    [split; reflexivity | reflexivity | cbn; lia | reflexivity |].
  unfold INT_MAX. cbn. lia.
Defined.

End WindowFacts.

(** ** The connection dialog *)

Module ConnectFacts.
Import Text Store Effects Streams Gui Connect TextFacts.

Ltac run_dialog :=
  cbv beta iota zeta delta
    [Gui.chain Gui.finish Gui.raise try_catch_db get modify within
     show_status hide_dialog save_failed
     with_app with_disk with_stderr with_dialog
     with_status with_host with_port with_user with_database with_remember
     with_on_screen];
  cbn [app disk HOME locale_from_utf8 stderr dialog
       entry_host entry_port entry_user entry_password entry_database
       check_remember m_status_label status_visible status_error on_screen
       fst snd negb].

(** What [std::stoi] returns is an [int]. *)
Lemma stoi_int (s : string) (n : Z) :
  stoi s = Converted n -> (INT_MIN <= n <= INT_MAX)%Z.
Proof.
  unfold stoi.
  destruct (match skip_space s with
            | String "-" t => (true, t)
            | String "+" t => (false, t)
            | _ => (false, skip_space s)
            end) as [negative rest].
  destruct rest as [|c rest]; [discriminate |].
  destruct (digit c); [| discriminate].
  match goal with
  | |- (if ?b then _ else _) = _ -> _ => destruct b eqn:R
  end; [| discriminate].
  intro H. injection H as <-.
  apply andb_true_iff in R. destruct R as [R1 R2].
  apply Z.leb_le in R1, R2. now split.
Qed.

(** The range test of [on_ok] on the [unsigned int] an [int] converts
    to: negative numbers end above 65535. *)
Lemma port_test (n : Z) :
  (INT_MIN <= n <= INT_MAX)%Z ->
  (to_unsigned n =? 0)%Z || (65535 <? to_unsigned n)%Z = false ->
  to_unsigned n = n /\ (1 <= n <= 65535)%Z.
Proof.
  unfold INT_MIN, INT_MAX, to_unsigned. intros R H.
  apply orb_false_iff in H. destruct H as [H0 H1].
  apply Z.eqb_neq in H0. apply Z.ltb_ge in H1.
  destruct (Z.neg_nonneg_cases n) as [Neg|Pos].
  - exfalso.
    assert (E : (n mod 2 ^ 32 = n + 2 ^ 32)%Z).
    { symmetry. apply (Z.mod_unique_pos _ _ (-1)); lia. }
    rewrite E in *. lia.
  - assert (E : (n mod 2 ^ 32 = n)%Z) by (apply Z.mod_small; lia).
    rewrite E in *. lia.
Qed.

Lemma save_credentials_keeps (App : Type) (d : Desktop App) :
  exists d',
    save_credentials d = (Returned tt, d') /\
    app d' = app d /\ dialog d' = dialog d.
Proof.
  unfold save_credentials. run_dialog.
  destruct (directories_error (disk d) (config_dir (HOME d)));
    run_dialog; [eexists; split; [reflexivity |]; now split |].
  destruct (writable (disk d) (config_file (HOME d)));
    run_dialog; [| eexists; split; [reflexivity |]; now split].
  destruct (stream_lines _ _) as [text [what|]]; run_dialog;
    [eexists; split; [reflexivity |]; now split |].
  destruct (permissions_error (disk d) (config_file (HOME d)));
    run_dialog; eexists; (split; [reflexivity |]); now split.
Qed.

(** The port [on_ok] connects with.  Either the dialog refuses, with
    one of its two messages as an error in the status label and nothing
    else changed, the callback not called, nothing saved; or host, port
    and user are filled in, the text of the port starts (after white
    space and a sign, whatever follows) with a number between 1 and
    65535, and the callback is called with the host, that number, the
    user and the password.  A negative number, which the conversion to
    [unsigned int] turns into a large one, is refused like 0 and like
    anything above 65535. *)
Theorem on_ok_port_in_range :
  forall (App : Type)
         (m_on_connect : option (string -> Z -> string -> string
                                 -> Prog App unit))
         (d : Desktop App),
    (exists message : string,
       (message = "Please fill in all required fields" \/
        message = "Invalid port number") /\
       on_ok m_on_connect d
       = (Returned tt, with_dialog (with_status message true (dialog d)) d)) \/
    (exists port : Z,
       stoi (entry_port (dialog d)) = Converted port /\
       (1 <= port <= 65535)%Z /\
       entry_host (dialog d) <> "" /\ entry_port (dialog d) <> "" /\
       entry_user (dialog d) <> "" /\
       app (snd (on_ok m_on_connect d))
       = match m_on_connect with
         | Some on_connect =>
             snd (on_connect (entry_host (dialog d)) port (entry_user (dialog d))
                             (entry_password (dialog d)) (app d))
         | None => app d
         end).
Proof.
  intros App m_on_connect d. unfold on_ok. run_dialog.
  destruct (empty (entry_host (dialog d)) || empty (entry_port (dialog d))
            || empty (entry_user (dialog d))) eqn:Em; run_dialog.
  { left. eexists. split; [now left | reflexivity]. }
  apply orb_false_iff in Em. destruct Em as [Em Eu].
  apply orb_false_iff in Em. destruct Em as [Eh Ep].
  apply empty_false in Eh, Ep, Eu.
  destruct (stoi (entry_port (dialog d))) as [n| |] eqn:St; run_dialog;
    try (left; eexists; split; [now right | reflexivity]).
  destruct ((to_unsigned n =? 0)%Z || (65535 <? to_unsigned n)%Z) eqn:T;
    run_dialog.
  { left. eexists. split; [now right | reflexivity]. }
  destruct (port_test n (stoi_int _ _ St) T) as [U R]. rewrite U.
  right. exists n. repeat split; try assumption; try apply R.
  destruct (check_remember (dialog d)); run_dialog.
  - destruct (save_credentials_keeps App d) as (d' & -> & A & _).
    destruct m_on_connect as [on_connect|]; run_dialog; [| exact A].
    rewrite A.
    now destruct (on_connect _ _ _ _ (app d)) as [[[]|x] a].
  - destruct m_on_connect as [on_connect|]; run_dialog; [| reflexivity].
    now destruct (on_connect _ _ _ _ (app d)) as [[[]|x] a].
Qed.

Lemma load_line_found (App : Type)
  (set_text : string -> DBConnectionDialog -> DBConnectionDialog)
  (field rest line : string) (d : Desktop App) :
  one_line field = true ->
  load_line set_text (opened (field ++ String LF rest)) line d
  = (Returned (opened rest, field), with_dialog (set_text field (dialog d)) d).
Proof.
  intro H. unfold load_line.
  rewrite (CsvFacts.getline_found LF field rest line H).
  reflexivity.
Qed.

Lemma kept_by_stream (locale : string -> localized) (text : string)
  (rest : list string) :
  kept_by locale text = true ->
  stream_lines locale (text :: rest)
  = (text ++ String LF (fst (stream_lines locale rest)),
     snd (stream_lines locale rest)).
Proof.
  unfold kept_by. cbn [stream_lines].
  destruct (locale text) as [bytes|what]; [| discriminate].
  intro E. apply String.eqb_eq in E. rewrite E.
  now destruct (stream_lines locale rest).
Qed.

(** What "Remember credentials" keeps.  When the directory and the
    file can be made, the locale has for each of the four texts the bytes
    of the text itself, and none of them holds a line feed,
    [save_credentials] leaves a file with host, port, user and database,
    one per line, and nothing of the password; a dialog constructed
    afterwards shows these four texts, an empty password, and the box
    ticked. *)
Theorem credentials_round_trip :
  forall (App : Type) (d : Desktop App),
    directories_error (disk d) (config_dir (HOME d)) = None ->
    writable (disk d) (config_file (HOME d)) = true ->
    permissions_error (disk d) (config_file (HOME d)) = None ->
    kept_by (locale_from_utf8 d) (entry_host (dialog d)) = true ->
    kept_by (locale_from_utf8 d) (entry_port (dialog d)) = true ->
    kept_by (locale_from_utf8 d) (entry_user (dialog d)) = true ->
    kept_by (locale_from_utf8 d) (entry_database (dialog d)) = true ->
    one_line (entry_host (dialog d)) = true ->
    one_line (entry_port (dialog d)) = true ->
    one_line (entry_user (dialog d)) = true ->
    one_line (entry_database (dialog d)) = true ->
    content (disk (snd (save_credentials d))) (config_file (HOME d))
    = Some (entry_host (dialog d) ++ String LF ""
            ++ entry_port (dialog d) ++ String LF ""
            ++ entry_user (dialog d) ++ String LF ""
            ++ entry_database (dialog d) ++ String LF "") /\
    dialog (snd (DBConnectionDialog_new (snd (save_credentials d))))
    = mkDBConnectionDialog (entry_host (dialog d)) (entry_port (dialog d))
                           (entry_user (dialog d)) "" (entry_database (dialog d))
                           true "" false false true.
Proof.
  intros App d D W P Kh Kp Ku Kd Hh Hp Hu Hd.
  unfold save_credentials. run_dialog. rewrite D, W.
  rewrite (kept_by_stream _ _ _ Kh), (kept_by_stream _ _ _ Kp),
    (kept_by_stream _ _ _ Ku), (kept_by_stream _ _ _ Kd).
  cbn [stream_lines fst snd]. run_dialog.
  rewrite P. run_dialog.
  unfold written, owner_only. cbn [content readable].
  rewrite String.eqb_refl. split; [reflexivity |].
  unfold DBConnectionDialog_new, load_saved_credentials. run_dialog.
  unfold ifstream. cbn [content readable]. rewrite String.eqb_refl.
  rewrite (load_line_found App with_host _ _ "" _ Hh). run_dialog.
  rewrite (load_line_found App with_port _ _ _ _ Hp). run_dialog.
  rewrite (load_line_found App with_user _ _ _ _ Hu). run_dialog.
  rewrite (load_line_found App with_database _ _ _ _ Hd). run_dialog.
  reflexivity.
Qed.

Lemma credentials_round_trip_witness :
  let d := mkDesktop tt
             (mkDisk (fun _ => None) (fun _ => false) (fun _ => true)
                     (fun _ => None) (fun _ => None))
             "/home/ada" c_locale []
             (mkDBConnectionDialog "db.example.org" "3307" "ada" "secret"
                                   "Contacts" true "" false false true) in
  content (disk (snd (save_credentials d))) (config_file (HOME d))
  = Some (entry_host (dialog d) ++ String LF ""
          ++ entry_port (dialog d) ++ String LF ""
          ++ entry_user (dialog d) ++ String LF ""
          ++ entry_database (dialog d) ++ String LF "") /\
  dialog (snd (DBConnectionDialog_new (snd (save_credentials d))))
  = mkDBConnectionDialog (entry_host (dialog d)) (entry_port (dialog d))
                         (entry_user (dialog d)) "" (entry_database (dialog d))
                         true "" false false true.
Proof.
  intro d. apply (credentials_round_trip unit d); reflexivity.
Defined.

(** A text that the locale has no bytes for stops the writing.  In the
    "C" locale, with a user name that is not ASCII, the file is left with
    the two lines written before it, the handler reports the
    [Glib::ConvertError], and a dialog constructed afterwards shows the
    saved host and port next to the user and the database of the
    defaults. *)
Example save_credentials_convert_error :
  let jose := String "J" (String "o" (String "s"
                (String (ascii_of_nat 195) (String (ascii_of_nat 169) "")))) in
  let d := mkDesktop tt
             (mkDisk (fun _ => None) (fun _ => true) (fun _ => true)
                     (fun _ => None) (fun _ => None))
             "/home/ada" c_locale []
             (mkDBConnectionDialog "db.example.org" "3307" jose "secret"
                                   "Contacts" true "" false false true) in
  fst (save_credentials d) = Returned tt /\
  content (disk (snd (save_credentials d))) (config_file (HOME d))
  = Some ("db.example.org" ++ String LF ("3307" ++ String LF "")) /\
  stderr (snd (save_credentials d))
  = ["Failed to save credentials: Invalid byte sequence in conversion input"
     ++ String LF ""] /\
  dialog (snd (DBConnectionDialog_new (snd (save_credentials d))))
  = mkDBConnectionDialog "db.example.org" "3307" "root" "" "Contacts"
                         true "" false false true.
Proof. repeat split; vm_compute; reflexivity. Qed.

End ConnectFacts.
